(** * Orthographic globe renderer: colour scales, normalisation, base map,
      overlay and camera of the three map drivers

    The three scripts of [Geographic_Visualizations]
    ([VisualizePopularity.py], [VisualizeDensity.py], [VisualizeChange.py])
    are embedded here.  Python floats are IEEE binary64 numbers: the
    arithmetic of the scripts is written once, over an interface
    [PyFloat], and read at two instances,
    - [binary64]: Rocq's primitive floats, bit for bit what CPython
      computes, used to run the code at concrete inputs;
    - [ideal]: the real numbers, used for statements about all inputs and
      for the geometry (numpy's trigonometry has no primitive-float
      counterpart). *)

From Stdlib Require Import ZArith Floats Reals Lra Lia RNsatz.
From stdpp Require Import base option list strings gmap sorting.

Set Warnings "-inexact-float".

(** ** Python exceptions and fallible results *)

Inductive exn : Type :=
| ZeroDivisionError
| IndexError
| ValueError
| OverflowError.

Inductive result (A : Type) : Type :=
| Ok (a : A)
| Raise (e : exn).
Arguments Ok {A} a.
Arguments Raise {A} e.

#[export] Instance result_ret : MRet result := fun A a => Ok a.
#[export] Instance result_bind : MBind result := fun A B f m =>
  match m with
  | Ok a => f a
  | Raise e => Raise e
  end.
#[export] Instance result_fmap : FMap result := fun A B f m =>
  match m with
  | Ok a => Ok (f a)
  | Raise e => Raise e
  end.

(** A [for] loop that builds a list, stopping at the first exception. *)
Fixpoint for_each {A B : Type} (body : A → result B) (l : list A)
  : result (list B) :=
  match l with
  | [] => Ok []
  | a :: l' => b ← body a; bs ← for_each body l'; mret (b :: bs)
  end.

(** ** The float interface *)

Class PyFloat (F : Type) : Type := {
  of_int : Z → F;                (* an [int] literal used as a float *)
  fadd : F → F → F;
  fsub : F → F → F;
  fmul : F → F → F;
  fdiv : F → F → F;              (* IEEE quotient; Python checks the divisor *)
  fabs : F → F;
  feqb : F → F → bool;
  fltb : F → F → bool;
  fleb : F → F → bool;
  to_int : F → result Z          (* [int(x)]: truncation toward zero *)
}.

Declare Scope py_scope.
Delimit Scope py_scope with py.
Infix "+" := fadd : py_scope.
Infix "-" := fsub : py_scope.
Infix "*" := fmul : py_scope.
Infix "==" := feqb (at level 70) : py_scope.
Infix "<" := fltb : py_scope.
Infix "<=" := fleb : py_scope.

Section Arithmetic.
Context {F : Type} `{PyFloat F}.
Local Open Scope py_scope.

(** The decimal literal [n/d], as the nearest float: [dec 7 10] is
    Python's [0.7]. *)
Definition dec (n d : Z) : F := fdiv (of_int n) (of_int d).

(** Python's [x / y] on floats. *)
Definition pydiv (x y : F) : result F :=
  if y == of_int 0 then Raise ZeroDivisionError else Ok (fdiv x y).

(** [min(a, b)] and [max(a, b)] with two arguments: the first one is
    kept unless the second is strictly better. *)
Definition min2 (a b : F) : F := if b < a then b else a.
Definition max2 (a b : F) : F := if a < b then b else a.

(** [min(l)] and [max(l)] over a list; [ValueError] on an empty one. *)
Definition py_min (l : list F) : result F :=
  match l with
  | [] => Raise ValueError
  | x :: l' => Ok (fold_left min2 l' x)
  end.
Definition py_max (l : list F) : result F :=
  match l with
  | [] => Raise ValueError
  | x :: l' => Ok (fold_left max2 l' x)
  end.

(** [sorted(l, reverse=True)], by insertion: an element goes in front
    of the first one that is strictly smaller. *)
Fixpoint insert_desc (x : F) (l : list F) : list F :=
  match l with
  | [] => [x]
  | y :: l' => if y < x then x :: y :: l' else y :: insert_desc x l'
  end.
Definition sorted_reverse (l : list F) : list F :=
  foldr (fun x acc => insert_desc x acc) [] (reverse l).

(** [l[i]] *)
Definition index {A : Type} (l : list A) (i : nat) : result A :=
  match l !! i with
  | Some a => Ok a
  | None => Raise IndexError
  end.
End Arithmetic.

Infix "/" := pydiv : py_scope.

(** *** binary64 *)

Definition float_of_int (n : Z) : float :=
  SF2Prim (binary_normalize prec emax n 0 false).

Definition float_to_int (x : float) : result Z :=
  match Prim2SF x with
  | S754_zero _ => Ok 0%Z
  | S754_infinity _ => Raise OverflowError
  | S754_nan => Raise ValueError
  | S754_finite s m e =>
      let v := Z.shiftl (Z.pos m) e in Ok (if s then (- v)%Z else v)
  end.

#[export] Instance binary64 : PyFloat float := {|
  of_int := float_of_int;
  fadd := PrimFloat.add;
  fsub := PrimFloat.sub;
  fmul := PrimFloat.mul;
  fdiv := PrimFloat.div;
  fabs := PrimFloat.abs;
  feqb := PrimFloat.eqb;
  fltb := PrimFloat.ltb;
  fleb := PrimFloat.leb;
  to_int := float_to_int
|}.

(** *** Real numbers *)

Definition Reqb (x y : R) : bool := if Req_dec_T x y then true else false.
Definition Rltb (x y : R) : bool := if Rlt_dec x y then true else false.
Definition Rleb (x y : R) : bool := if Rle_dec x y then true else false.

Definition Rtrunc (x : R) : Z :=
  if Rle_dec 0 x then Int_part x else (- Int_part (- x))%Z.

#[export] Instance ideal : PyFloat R := {|
  of_int := IZR;
  fadd := Rplus;
  fsub := Rminus;
  fmul := Rmult;
  fdiv := Rdiv;
  fabs := Rabs;
  feqb := Reqb;
  fltb := Rltb;
  fleb := Rleb;
  to_int := fun x => Ok (Rtrunc x)
|}.

(** ** Colour transfer functions *)

Definition color : Type := Z * Z * Z.

Section Colors.
Context {F : Type} `{PyFloat F}.
Local Open Scope py_scope.

(** [VisualizePopularity.get_visitor_color] *)
Definition get_visitor_color (normalized_value : F) : result color :=
  let t := normalized_value in
  if t <= dec 7 10 then
    let r := 255%Z in
    q ← of_int 255 * (dec 7 10 - t) / dec 7 10;
    g ← to_int q;
    let b := 0%Z in
    mret (r, g, b)
  else
    q ← of_int 116 * (t - dec 7 10) / dec 3 10;
    r ← to_int (of_int 255 - q);
    let g := 0%Z in
    let b := 0%Z in
    mret (r, g, b).

(** [VisualizeDensity.get_density_color] *)
Definition get_density_color (normalized_value : F) : result color :=
  let t := max2 (of_int 0) (min2 (of_int 1) normalized_value) in
  r ← to_int (of_int 46 * t);
  g ← to_int (of_int 102 - of_int 94 * t);
  b ← to_int (of_int 255 - of_int 171 * t);
  mret (r, g, b).

(** [VisualizeChange.get_change_color] *)
Definition get_change_color (normalized_value : F) : result color :=
  let t := normalized_value in
  if t <= dec 1 2 then
    let factor := t * of_int 2 in
    r ← to_int (of_int 204 + of_int 28 * factor);
    g ← to_int (of_int 0 + of_int 232 * factor);
    b ← to_int (of_int 0 + of_int 232 * factor);
    mret (r, g, b)
  else
    let factor := (t - dec 1 2) * of_int 2 in
    r ← to_int (of_int 232 - of_int 125 * factor);
    g ← to_int (of_int 232 - of_int 188 * factor);
    b ← to_int (of_int 232 - of_int 87 * factor);
    mret (r, g, b).
End Colors.

(** ** Normalisation and colour assignment in the three drivers *)

Section Normalisation.
Context {F : Type} `{PyFloat F}.
Local Open Scope py_scope.

(** The divisor guard shared by the drivers:
    [if range == 0: range = 1.0]. *)
Definition guard_zero (range : F) : F :=
  if range == of_int 0 then of_int 1 else range.
End Normalisation.

(** *** [VisualizePopularity.main], step 3 *)
Module Popularity.
Section Popularity.
Context {F : Type} `{PyFloat F}.
Local Open Scope py_scope.

Record park : Type := {
  name : string; lat : F; lon : F; visitors : F
}.

(** [min_visitors] and the guarded [visitor_range]. *)
Definition visitor_stats (parks_for_analysis : list park) : result (F * F) :=
  let visitor_counts := map visitors parks_for_analysis in
  min_visitors ← py_min visitor_counts;
  max_visitors ← py_max visitor_counts;
  let visitor_range := guard_zero (max_visitors - min_visitors) in
  mret (min_visitors, visitor_range).

Definition normalized_visitors (min_visitors visitor_range : F) (p : park)
  : result F :=
  (visitors p - min_visitors) / visitor_range.

Definition assign_colors (parks_for_analysis : list park)
  : result (list (park * color)) :=
  '(min_visitors, visitor_range) ← visitor_stats parks_for_analysis;
  for_each (fun p =>
    t ← normalized_visitors min_visitors visitor_range p;
    c ← get_visitor_color t;
    mret (p, c)) parks_for_analysis.
End Popularity.
Arguments park F : clear implicits.
End Popularity.

(** *** [VisualizeDensity.main], step 3 *)
Module Density.
Section Density.
Context {F : Type} `{PyFloat F}.
Local Open Scope py_scope.

Record park : Type := {
  name : string; lat : F; lon : F; density : F
}.

Definition black : color := (0, 0, 0)%Z.

(** [min_density], the guarded [density_range] (taken up to the
    second entry of the densities sorted downwards) and
    [actual_max_density]. *)
Definition density_stats (parks_for_analysis : list park)
  : result (F * F * F) :=
  let densities := map density parks_for_analysis in
  min_density ← py_min densities;
  max_density ← index (sorted_reverse densities) 1;
  let density_range := guard_zero (max_density - min_density) in
  actual_max_density ← py_max densities;
  mret (min_density, density_range, actual_max_density).

Definition park_color (min_density density_range actual_max_density : F)
    (p : park) : result color :=
  if density p == actual_max_density then Ok black
  else
    normalized_density ← (density p - min_density) / density_range;
    get_density_color normalized_density.

Definition assign_colors (parks_for_analysis : list park)
  : result (list (park * color)) :=
  '(min_density, density_range, actual_max_density) ←
     density_stats parks_for_analysis;
  for_each (fun p =>
    c ← park_color min_density density_range actual_max_density p;
    mret (p, c)) parks_for_analysis.
End Density.
Arguments park F : clear implicits.
End Density.

(** *** [VisualizeChange.main], steps 4 and 5 *)
Module Change.
Section Change.
Context {F : Type} `{PyFloat F}.
Local Open Scope py_scope.

Record park : Type := {
  name : string; lat : F; lon : F; visitors_a : F; visitors_b : F
}.

Definition delta (p : park) : F := visitors_b p - visitors_a p.

(** Both maps share the remapping of a signed value onto [0, 1]. *)
Definition remap (v max_abs : F) : result F :=
  q ← v / max_abs; mret (q * dec 1 2 + dec 1 2).

Definition max_abs_delta (parks_for_analysis : list park) : result F :=
  m ← py_max (map (fun p => fabs (delta p)) parks_for_analysis);
  mret (guard_zero m).

Definition absolute_colors (parks_for_analysis : list park)
  : result (list (park * color)) :=
  m ← max_abs_delta parks_for_analysis;
  for_each (fun p =>
    normalized_delta ← remap (delta p) m;
    c ← get_change_color normalized_delta;
    mret (p, c)) parks_for_analysis.

(** Parks with [visitors_a > 0], with their percent change. *)
Definition with_valid_percent (parks_for_analysis : list park)
  : result (list (park * F)) :=
  for_each (fun p =>
    percent_change ← (visitors_b p - visitors_a p) / visitors_a p;
    mret (p, percent_change))
    (filter (fun p => (of_int 0 < visitors_a p) = true) parks_for_analysis).

Definition max_abs_percent (valid : list (park * F)) : result F :=
  m ← py_max (map (fun pc => fabs (snd pc)) valid);
  mret (guard_zero m).

(** [None] when no park has a valid percent change: the map is skipped. *)
Definition percent_colors (parks_for_analysis : list park)
  : result (option (list (park * color))) :=
  valid ← with_valid_percent parks_for_analysis;
  match valid with
  | [] => mret None
  | _ =>
      m ← max_abs_percent valid;
      cs ← for_each (fun pc =>
        normalized_percent ← remap (snd pc) m;
        c ← get_change_color normalized_percent;
        mret (fst pc, c)) valid;
      mret (Some cs)
  end.
End Change.
Arguments park F : clear implicits.
End Change.

(** ** Configuration *)

Record config : Type := {
  IMAGE_SIZE_PX : nat;
  SUPER_SAMPLING_FACTOR : nat;
  PROJECTION_CENTER_LAT : R;
  PROJECTION_CENTER_LON : R;
  CAMERA_ROLL_DEG : R;
  MARGIN_FRACTION : R;
  LAND_COLOR : color;
  OCEAN_COLOR : color;
  SPACE_COLOR : color;
  PARK_CIRCLE_RADIUS_KM : R
}.

(** The constants at the head of the three scripts. *)
Definition default_config : config := {|
  IMAGE_SIZE_PX := 2048;
  SUPER_SAMPLING_FACTOR := 2;
  PROJECTION_CENTER_LAT := 45;
  PROJECTION_CENTER_LON := -105;
  CAMERA_ROLL_DEG := -13;
  MARGIN_FRACTION := 5 / 100;
  LAND_COLOR := (78, 97, 65)%Z;
  OCEAN_COLOR := (130, 160, 194)%Z;
  SPACE_COLOR := (10, 15, 20)%Z;
  PARK_CIRCLE_RADIUS_KM := 50
|}.

Definition SUPER_SAMPLED_SIZE (cfg : config) : nat :=
  IMAGE_SIZE_PX cfg * SUPER_SAMPLING_FACTOR cfg.

Definition EARTH_RADIUS_KM : R := 6371.

(** ** Sphere and camera (real arithmetic) *)

Definition vec : Type := R * R * R.

Definition deg2rad (d : R) : R := (d * (PI / 180))%R.
Definition rad2deg (r : R) : R := (r * (180 / PI))%R.

(** [latlon_to_vec] *)
Definition latlon_to_vec (lat lon : R) : vec :=
  let lat_rad := deg2rad lat in
  let lon_rad := deg2rad lon in
  let x := (cos lat_rad * cos lon_rad)%R in
  let y := (cos lat_rad * sin lon_rad)%R in
  let z := sin lat_rad in
  (x, y, z).

(** scipy's [Rotation], as the rotation matrix it stands for (rows). *)
Module Rotation.
Local Open Scope R_scope.

Definition t : Type := vec * vec * vec.

Definition dot (u v : vec) : R :=
  let '(u1, u2, u3) := u in
  let '(v1, v2, v3) := v in
  u1 * v1 + u2 * v2 + u3 * v3.

Definition identity : t := ((1, 0, 0), (0, 1, 0), (0, 0, 1)).

(** [r.apply(v)] *)
Definition apply (r : t) (v : vec) : vec :=
  let '(r1, r2, r3) := r in (dot r1 v, dot r2 v, dot r3 v).

Definition transpose (r : t) : t :=
  let '((a11, a12, a13), (a21, a22, a23), (a31, a32, a33)) := r in
  ((a11, a21, a31), (a12, a22, a32), (a13, a23, a33)).

(** [p * q]: the rotation [q] followed by [p]. *)
Definition mul (p q : t) : t :=
  let '(p1, p2, p3) := p in
  let '(c1, c2, c3) := transpose q in
  ((dot p1 c1, dot p1 c2, dot p1 c3),
   (dot p2 c1, dot p2 c2, dot p2 c3),
   (dot p3 c1, dot p3 c2, dot p3 c3)).

(** [r.inv()]: the inverse of a rotation is its transpose. *)
Definition inv (r : t) : t := transpose r.

(** [Rotation.from_euler('z', angle, degrees=True)] *)
Definition from_euler_z (angle_deg : R) : t :=
  let a := deg2rad angle_deg in
  ((cos a, - sin a, 0), (sin a, cos a, 0), (0, 0, 1)).

(** What makes a matrix a rotation: orthonormal columns. *)
Definition orthogonal (r : t) : Prop := mul (transpose r) r = identity.

(** The shortest-arc rotation that takes the unit vector [b] onto the
    viewing axis [(0, 0, 1)]: what [Rotation.align_vectors] returns for
    one pair of vectors, away from the antipode of the axis. *)
Definition shortest_arc_to_z (b : vec) : t :=
  let '(bx, by_, bz) := b in
  ((1 - bx * bx / (1 + bz), - (bx * by_) / (1 + bz), - bx),
   (- (bx * by_) / (1 + bz), 1 - by_ * by_ / (1 + bz), - by_),
   (bx, by_, bz)).
End Rotation.

Definition norm_sq (v : vec) : R := Rotation.dot v v.
Definition neg_vec (v : vec) : vec :=
  let '(x, y, z) := v in (- x, - y, - z)%R.
Definition z_axis : vec := (0, 0, 1)%R.

Section Camera.
(** [align_vectors a b] stands for [R.align_vectors([a], [b])[0]]. *)
Variable align_vectors : vec → vec → Rotation.t.

Definition target_vec (cfg : config) : vec :=
  latlon_to_vec (PROJECTION_CENTER_LAT cfg) (PROJECTION_CENTER_LON cfg).

Definition r_aim (cfg : config) : Rotation.t :=
  align_vectors z_axis (target_vec cfg).

Definition r_roll (cfg : config) : Rotation.t :=
  Rotation.from_euler_z (- CAMERA_ROLL_DEG cfg).

(** [rotation = r_roll * r_aim] *)
Definition rotation (cfg : config) : Rotation.t :=
  Rotation.mul (r_roll cfg) (r_aim cfg).

(** What the scripts rely on from [align_vectors]: a rotation that takes
    the target vector onto the viewing axis. *)
Definition aims_at_target (cfg : config) : Prop :=
  Rotation.orthogonal (r_aim cfg) ∧
  Rotation.apply (r_aim cfg) (target_vec cfg) = z_axis.
End Camera.

(** ** Arrays *)

(** A numpy array of shape [(S, S)] is a list of rows; an image is such
    an array of colours, row 0 at the top. *)
Abbreviation image := (list (list color)).

Definition view_scale (cfg : config) : R := (1 / (1 - MARGIN_FRACTION cfg))%R.

(** [np.linspace(start, stop, num)]: [arange(num) * step + start], the
    last sample set to [stop]. *)
Definition linspace (start stop : R) (num : nat) : list R :=
  let div := (num - 1)%nat in
  let delta := (stop - start)%R in
  let step := if decide (0 < div)%nat then (delta / INR div)%R else delta in
  let y := map (fun k => (INR k * step + start)%R) (seq 0 num) in
  if decide (1 < num)%nat then <[(num - 1)%nat := stop]> y else y.

(** [np.meshgrid(x, y)] *)
Definition meshgrid {A : Type} (x y : list A) : list (list A) * list (list A) :=
  (map (fun _ => x) y, map (fun yi => map (fun _ => yi) x) y).

(** Elementwise operation on two arrays of one shape. *)
Definition map2 {A B C : Type} (f : A → B → C)
    (a : list (list A)) (b : list (list B)) : list (list C) :=
  zip_with (zip_with f) a b.

(** [a[mask]] on flattened arrays: the entries under a [True], in
    row-major order. *)
Fixpoint select {A : Type} (a : list A) (mask : list bool) : list A :=
  match a, mask with
  | x :: a', b :: mask' =>
      if b then x :: select a' mask' else select a' mask'
  | _, _ => []
  end.

(** [a[mask] = vals] on one row: the row after the assignment and the
    values left for the rows below. *)
Fixpoint assign_row {A : Type} (row : list A) (mask : list bool)
    (vals : list A) : list A * list A :=
  match row, mask with
  | x :: row', b :: mask' =>
      if b then
        match vals with
        | v :: vals' =>
            let '(r, rest) := assign_row row' mask' vals' in (v :: r, rest)
        | [] => (row, [])
        end
      else
        let '(r, rest) := assign_row row' mask' vals in (x :: r, rest)
  | _, _ => (row, vals)
  end.

Fixpoint assign_rows {A : Type} (a : list (list A)) (mask : list (list bool))
    (vals : list A) : list (list A) :=
  match a, mask with
  | row :: a', m :: mask' =>
      let '(r, rest) := assign_row row m vals in
      r :: assign_rows a' mask' rest
  | _, _ => a
  end.

Definition count_true (mask : list (list bool)) : nat :=
  length (filter (fun b => b = true) (concat mask)).

(** [a[mask] = vals]: numpy refuses a number of values that is not the
    number of [True] entries. *)
Definition assign {A : Type} (a : list (list A)) (mask : list (list bool))
    (vals : list A) : result (list (list A)) :=
  if decide (length vals = count_true mask) then Ok (assign_rows a mask vals)
  else Raise ValueError.

(** [np.full((n, n, 3), c)] *)
Definition full (n : nat) (c : color) : image := replicate n (replicate n c).

(** ** Base map (step 6 of [main]), in exact arithmetic *)

(** The camera and the overlay are stated on real numbers.  This is the
    base map they are drawn on, with the samples, their squares and the
    sum exact; the base map on the numbers of the program follows
    below. *)

(** The view-space coordinates of the pixel columns ([x]) and of the
    pixel rows ([y], top row first). *)
Definition grid_x (cfg : config) : list R :=
  linspace (- view_scale cfg) (view_scale cfg) (SUPER_SAMPLED_SIZE cfg).
Definition grid_y (cfg : config) : list R :=
  linspace (view_scale cfg) (- view_scale cfg) (SUPER_SAMPLED_SIZE cfg).

(** The colour of the pixel in row [row] and column [col]. *)
Definition pixel (img : image) (row col : nat) : option color :=
  img !! row ≫= fun r => r !! col.

Section BaseMap.
Variable align_vectors : vec → vec → Rotation.t.
(** [np.arctan2] *)
Variable arctan2 : R → R → R.
(** The land test of a point given by longitude and latitude in degrees:
    some polygon whose bounding box meets the point contains it. *)
Variable on_land : R → R → bool.
Local Open Scope R_scope.

(** The world position seen at view-space [(x, y)] on the disk, as
    longitude and latitude in degrees. *)
Definition lon_lat_of (cfg : config) (x y : R) : R * R :=
  let zz := sqrt (1 - (x * x + y * y)) in
  let '(wx, wy, wz) :=
    Rotation.apply (Rotation.inv (rotation align_vectors cfg)) (x, y, zz) in
  let lon_rad := arctan2 wy wx in
  let lat_rad := asin wz in
  (rad2deg lon_rad, rad2deg lat_rad).

Definition point_color (cfg : config) (xy : R * R) : color :=
  let '(lon_deg, lat_deg) := lon_lat_of cfg (fst xy) (snd xy) in
  if on_land lon_deg lat_deg then LAND_COLOR cfg else OCEAN_COLOR cfg.

Definition pixel_grid (cfg : config) : list (list R) * list (list R) :=
  meshgrid (grid_x cfg) (grid_y cfg).

Definition on_globe_mask (cfg : config) : list (list bool) :=
  let '(xx, yy) := pixel_grid cfg in
  let radius_sq := map2 (fun x y => x * x + y * y) xx yy in
  map (map (fun r => Rleb r 1)) radius_sq.

Definition base_map (cfg : config) : result image :=
  let '(xx, yy) := pixel_grid cfg in
  let mask := on_globe_mask cfg in
  let visible_points :=
    zip (select (concat xx) (concat mask)) (select (concat yy) (concat mask)) in
  let point_colors := map (point_color cfg) visible_points in
  let output_image_array :=
    full (SUPER_SAMPLED_SIZE cfg) (SPACE_COLOR cfg) in
  assign output_image_array mask point_colors.
End BaseMap.

(** ** The base map on the numbers of the program *)

(** Step 6 of [main] once more, over any arithmetic, binary64 included:
    [np.linspace] as numpy computes it, and the squares, their sum and
    the comparison with 1.0 on rounded numbers.  The functions of numpy,
    scipy and geopandas that colour a point are parameters, taken to
    return; each of them works on one point at a time. *)
Module Raster.
Record library {F : Type} : Type := {
  np_sqrt : F → F;
  (* [rotation.inv().apply], on one point *)
  inv_apply : F * F * F → F * F * F;
  np_arctan2 : F → F → F;
  np_arcsin : F → F;
  np_rad2deg : F → F;
  (* some polygon whose bounding box meets the point (lon, lat) contains it *)
  on_land : F → F → bool
}.
Arguments library : clear implicits.

Record config {F : Type} : Type := {
  IMAGE_SIZE_PX : nat;
  SUPER_SAMPLING_FACTOR : nat;
  MARGIN_FRACTION : F;
  LAND_COLOR : color;
  OCEAN_COLOR : color;
  SPACE_COLOR : color
}.
Arguments config : clear implicits.

Section Raster.
Context {F : Type} `{PyFloat F}.
Variable lib : library F.
Local Open Scope py_scope.

Definition SUPER_SAMPLED_SIZE (cfg : config F) : nat :=
  IMAGE_SIZE_PX cfg * SUPER_SAMPLING_FACTOR cfg.

(** [-v]: the sign is flipped, nothing is rounded. *)
Definition neg (v : F) : F := of_int (-1) * v.

(** [view_scale = 1.0 / (1.0 - MARGIN_FRACTION)] *)
Definition view_scale (cfg : config F) : result F :=
  of_int 1 / (of_int 1 - MARGIN_FRACTION cfg).

(** [np.arange(0, num)] as floats. *)
Definition arange (num : nat) : list F :=
  map (fun k => of_int (Z.of_nat k)) (seq 0 num).

(** [np.linspace(start, stop, num)]: with [div = num - 1] intervals the
    samples are [arange(num) * step + start] for [step = delta / div],
    unless the step underflows to zero, when they are
    [arange(num) / div * delta + start]; the last sample is then set to
    [stop].  A single sample is [0 * delta + start]. *)
Definition linspace (start stop : F) (num : nat) : list F :=
  let div := (num - 1)%nat in
  let delta := stop - start in
  let y := arange num in
  let y :=
    if decide (0 < div)%nat then
      let step := fdiv delta (of_int (Z.of_nat div)) in
      if step == of_int 0
      then map (fun v => fdiv v (of_int (Z.of_nat div)) * delta) y
      else map (fun v => v * step) y
    else map (fun v => v * delta) y in
  let y := map (fun v => v + start) y in
  if decide (1 < num)%nat then <[(num - 1)%nat := stop]> y else y.

(** [x] and [y]: the view-space coordinates of the pixel columns and of
    the pixel rows, top row first. *)
Definition grid_x (view_scale : F) (size : nat) : list F :=
  linspace (neg view_scale) view_scale size.
Definition grid_y (view_scale : F) (size : nat) : list F :=
  linspace view_scale (neg view_scale) size.

(** [radius_sq = xx**2 + yy**2] and [on_globe_mask = radius_sq <= 1.0] *)
Definition on_globe_mask (x y : list F) : list (list bool) :=
  let '(xx, yy) := meshgrid x y in
  let radius_sq := map2 (fun x y => x * x + y * y) xx yy in
  map (map (fun r => r <= of_int 1)) radius_sq.

(** The world position seen at view-space [(x, y)], as longitude and
    latitude in degrees. *)
Definition lon_lat_of (x y : F) : F * F :=
  let zz := np_sqrt lib (of_int 1 - (x * x + y * y)) in
  let '(wx, wy, wz) := inv_apply lib (x, y, zz) in
  let lon_rad := np_arctan2 lib wy wx in
  let lat_rad := np_arcsin lib wz in
  (np_rad2deg lib lon_rad, np_rad2deg lib lat_rad).

Definition point_color (cfg : config F) (xy : F * F) : color :=
  let '(lon_deg, lat_deg) := lon_lat_of (fst xy) (snd xy) in
  if on_land lib lon_deg lat_deg then LAND_COLOR cfg else OCEAN_COLOR cfg.

(** One colour for each point under the mask, in row-major order. *)
Definition point_colors (cfg : config F) (x y : list F) : list color :=
  let '(xx, yy) := meshgrid x y in
  let mask := on_globe_mask x y in
  let visible_points :=
    zip (select (concat xx) (concat mask)) (select (concat yy) (concat mask)) in
  map (point_color cfg) visible_points.

Definition base_map (cfg : config F) : result image :=
  view_scale ← view_scale cfg;
  let x := grid_x view_scale (SUPER_SAMPLED_SIZE cfg) in
  let y := grid_y view_scale (SUPER_SAMPLED_SIZE cfg) in
  let output_image_array :=
    full (SUPER_SAMPLED_SIZE cfg) (SPACE_COLOR cfg) in
  assign output_image_array (on_globe_mask x y) (point_colors cfg x y).
End Raster.
End Raster.

(** The entries of a mask that are [True], as (row, column) in
    row-major order: the places that [a[mask] = vals] assigns, the k-th
    of them with the k-th value. *)
Fixpoint true_columns (j : nat) (row : list bool) : list nat :=
  match row with
  | [] => []
  | b :: row' => if b then j :: true_columns (S j) row' else true_columns (S j) row'
  end.
Fixpoint true_positions (i : nat) (mask : list (list bool)) : list (nat * nat) :=
  match mask with
  | [] => []
  | row :: mask' => map (pair i) (true_columns 0 row) ++ true_positions (S i) mask'
  end.

(** ** Park overlay (step 7 of [main], and [generate_map]) *)

Record marker : Type := { m_lat : R; m_lon : R; m_color : color }.

(** Which pixels [ImageDraw.ellipse] sets is Pillow's business: it casts
    the corners of the box to [int] and rasterises the ellipse inscribed
    in that box of whole pixels.  The rasteriser is therefore left open:
    [covers x0 y0 x1 y1 col row] tells whether a call with the box
    [(x0, y0), (x1, y1)] sets the pixel in column [col] and row [row].
    For a filled ellipse on an RGB image the pixels set depend on the
    box alone; they take the fill colour, and what falls outside the
    image is dropped. *)
Section Overlay.
Variable align_vectors : vec → vec → Rotation.t.
Variable covers : R → R → R → R → nat → nat → bool.
Local Open Scope R_scope.

(** [ImageDraw.ellipse([(x0, y0), (x1, y1)], fill)] *)
Definition ellipse (img : image) (x0 y0 x1 y1 : R) (fill : color) : image :=
  imap (fun row => imap (fun col c =>
    if covers x0 y0 x1 y1 col row then fill else c)) img.

Definition globe_pixel_radius (cfg : config) : R :=
  INR (SUPER_SAMPLED_SIZE cfg) / 2 / view_scale cfg.

Definition park_pixel_radius (cfg : config) : R :=
  PARK_CIRCLE_RADIUS_KM cfg / EARTH_RADIUS_KM * globe_pixel_radius cfg.

Definition rotated_park_vec (cfg : config) (park : marker) : vec :=
  Rotation.apply (rotation align_vectors cfg)
    (latlon_to_vec (m_lat park) (m_lon park)).

(** The test [rotated_park_vec[2] > 0.0]. *)
Definition visible (cfg : config) (park : marker) : bool :=
  Rltb 0 (snd (rotated_park_vec cfg park)).

(** Pixel position of a park. *)
Definition park_px (cfg : config) (park : marker) : R * R :=
  let '(x_proj, y_proj, _) := rotated_park_vec cfg park in
  let px := (x_proj / view_scale cfg + 1) * (1 / 2) * INR (SUPER_SAMPLED_SIZE cfg) in
  let py := (- y_proj / view_scale cfg + 1) * (1 / 2) * INR (SUPER_SAMPLED_SIZE cfg) in
  (px, py).

(** The box handed to [ellipse] for a park. *)
Definition park_box (cfg : config) (park : marker) : R * R * R * R :=
  let '(px, py) := park_px cfg park in
  let r := park_pixel_radius cfg in
  (px - r, py - r, px + r, py + r).

(** Whether the call for a park sets the pixel in row [row] and column
    [col]. *)
Definition covers_park (cfg : config) (park : marker) (row col : nat) : bool :=
  let '(x0, y0, x1, y1) := park_box cfg park in
  covers x0 y0 x1 y1 col row.

Definition draw_disk (cfg : config) (img : image) (park : marker) : image :=
  let '(px, py) := park_px cfg park in
  let r := park_pixel_radius cfg in
  ellipse img (px - r) (py - r) (px + r) (py + r) (m_color park).

(** One turn of the loop over the parks: the image and the counter
    [visible_parks]. *)
Definition draw_park (cfg : config) (st : image * nat) (park : marker)
  : image * nat :=
  let '(img, visible_parks) := st in
  if visible cfg park then (draw_disk cfg img park, S visible_parks)
  else (img, visible_parks).

Definition draw_parks (cfg : config) (parks : list marker) (img : image)
  : image * nat :=
  fold_left (draw_park cfg) parks (img, 0%nat).
End Overlay.

(** Two facts about Pillow's rasteriser.  It sets no pixel outside the
    box of whole pixels: the corners of the box are cast to [int], which
    truncates. *)
Definition paints_within_box (covers : R → R → R → R → nat → nat → bool) : Prop :=
  ∀ (x0 y0 x1 y1 : R) (col row : nat),
    (x0 < x1)%R → (y0 < y1)%R →
    covers x0 y0 x1 y1 col row = true →
    (Rtrunc x0 ≤ Z.of_nat col ≤ Rtrunc x1)%Z ∧
    (Rtrunc y0 ≤ Z.of_nat row ≤ Rtrunc y1)%Z.

(** And it sets the pixels within half a pixel of the centre of a box
    that is eight pixels or more each way. *)
Definition paints_centre (covers : R → R → R → R → nat → nat → bool) : Prop :=
  ∀ (x0 y0 x1 y1 : R) (col row : nat),
    (8 <= x1 - x0)%R → (8 <= y1 - y0)%R →
    (Rabs (INR col - (x0 + x1) / 2) <= 1 / 2)%R →
    (Rabs (INR row - (y0 + y1) / 2) <= 1 / 2)%R →
    covers x0 y0 x1 y1 col row = true.

(** The ellipse of the drawing board, the exact ellipse inscribed in the
    box, is one rasteriser with these two properties; Pillow's differs
    from it by a pixel or so along the rim.  It serves in the examples
    only. *)
Definition exact_ellipse (x0 y0 x1 y1 : R) (col row : nat) : bool :=
  let cx := ((x0 + x1) / 2)%R in
  let cy := ((y0 + y1) / 2)%R in
  let rx := ((x1 - x0) / 2)%R in
  let ry := ((y1 - y0) / 2)%R in
  Rleb ((INR col - cx) * (INR col - cx) * (ry * ry)
        + (INR row - cy) * (INR row - cy) * (rx * rx))%R
       (rx * rx * (ry * ry))%R.

(** ** Image objects, [generate_map] and the change driver *)

(** PIL images are mutable objects: the store maps an object to its
    pixels, and the files written so far are kept by path. *)
Record world : Type := {
  heap : gmap nat image;
  files : gmap string image
}.

(** A new image object holding [im]. *)
Definition new_image (im : image) (w : world) : nat * world :=
  let l := fresh (dom (heap w)) in
  (l, {| heap := <[l := im]> (heap w); files := files w |}).

Section GenerateMap.
Variable align_vectors : vec → vec → Rotation.t.
Variable covers : R → R → R → R → nat → nat → bool.
Variable arctan2 : R → R → R.
Variable on_land : R → R → bool.
(** [img.resize((n, n), Image.Resampling.LANCZOS)] *)
Variable resize : image → nat → image.

(** One turn of the loop of [generate_map]: [draw] paints into the
    object [img]. *)
Definition draw_into (cfg : config) (img : nat) (st : world * nat)
    (park : marker) : world * nat :=
  let '(w, visible_parks) := st in
  if visible align_vectors cfg park then
    ({| heap := alter (fun im => draw_disk align_vectors covers cfg im park) img (heap w);
        files := files w |}, S visible_parks)
  else (w, visible_parks).

Definition generate_map (cfg : config) (parks_with_colors : list marker)
    (output_path : string) (base_map_image : nat) (w : world) : world :=
  (* img = base_map_image.copy() *)
  let '(img, w) := new_image (heap w !!! base_map_image) w in
  let '(w, visible_parks) :=
    fold_left (draw_into cfg img) parks_with_colors (w, 0%nat) in
  (* img = img.resize(...) *)
  let '(img, w) :=
    if decide (1 < SUPER_SAMPLING_FACTOR cfg)%nat
    then new_image (resize (heap w !!! img) (IMAGE_SIZE_PX cfg)) w
    else (img, w) in
  (* img.save(output_path) *)
  {| heap := heap w; files := <[output_path := heap w !!! img]> (files w) |}.

Definition change_marker (pc : Change.park R * color) : marker :=
  {| m_lat := Change.lat (fst pc); m_lon := Change.lon (fst pc);
     m_color := snd pc |}.

(** [VisualizeChange.main] from step 3 on, for the parks that have both
    years; nothing is done for an empty list. *)
Definition change_main (cfg : config) (parks_for_analysis : list (Change.park R))
    (absolute_path percent_path : string) (w : world) : result world :=
  match parks_for_analysis with
  | [] => Ok w
  | _ =>
      output_image_array ← base_map align_vectors arctan2 on_land cfg;
      let '(base_map_image, w) := new_image output_image_array w in
      parks_abs_colors ← Change.absolute_colors parks_for_analysis;
      let w := generate_map cfg (map change_marker parks_abs_colors)
                 absolute_path base_map_image w in
      pct ← Change.percent_colors parks_for_analysis;
      match pct with
      | Some parks_pct_colors =>
          Ok (generate_map cfg (map change_marker parks_pct_colors)
                percent_path base_map_image w)
      | None => Ok w
      end
  end.
End GenerateMap.

(** ** Properties stated about the drivers *)

(** An RGB triple whose components fit a byte. *)
Definition in_rgb_range (c : color) : Prop :=
  let '(r, g, b) := c in
  (0 ≤ r ≤ 255)%Z ∧ (0 ≤ g ≤ 255)%Z ∧ (0 ≤ b ≤ 255)%Z.

(** A colour scale that clamps: below the domain it answers as at 0,
    above it as at 1, and it always returns a byte triple. *)
Definition clamps_gracefully {F : Type} `{PyFloat F} (f : F → result color) : Prop :=
  ∀ t : F,
    (fltb t (of_int 0) = true → f t = f (of_int 0)) ∧
    (fltb (of_int 1) t = true → f t = f (of_int 1)) ∧
    (∃ c, f t = Ok c ∧ in_rgb_range c).

(** A normalised value inside the domain of a scale, coloured by it. *)
Definition unit_and_colored (f : R → result color) (t : R) : Prop :=
  (0 <= t <= 1)%R ∧ ∃ c, f t = Ok c ∧ in_rgb_range c.

(** Sorted downwards. *)
Definition descending (l : list R) : Prop :=
  StronglySorted (fun a b => (b <= a)%R) l.

(** The picture a driver saves for an overlay drawn on [base]. *)
Definition rendered (align_vectors : vec → vec → Rotation.t)
    (covers : R → R → R → R → nat → nat → bool)
    (resize : image → nat → image) (cfg : config) (parks : list marker)
    (base : image) : image :=
  let img := fst (draw_parks align_vectors covers cfg parks base) in
  if decide (1 < SUPER_SAMPLING_FACTOR cfg)%nat
  then resize img (IMAGE_SIZE_PX cfg) else img.

(** For one pair of vectors [align_vectors] is taken to return the
    shortest arc. *)
Definition align_shortest (a b : vec) : Rotation.t := Rotation.shortest_arc_to_z b.

(** A camera above the north pole with no roll, and a park close to the
    rim of the visible hemisphere (6.7 degrees north of the equator). *)
Definition polar_config : config := {|
  IMAGE_SIZE_PX := 2048;
  SUPER_SAMPLING_FACTOR := 2;
  PROJECTION_CENTER_LAT := 90;
  PROJECTION_CENTER_LON := 0;
  CAMERA_ROLL_DEG := 0;
  MARGIN_FRACTION := 5 / 100;
  LAND_COLOR := (78, 97, 65)%Z;
  OCEAN_COLOR := (130, 160, 194)%Z;
  SPACE_COLOR := (10, 15, 20)%Z;
  PARK_CIRCLE_RADIUS_KM := 50
|}.

Definition rim_park : marker := {|
  m_lat := rad2deg (asin (17 / 145));
  m_lon := 0;
  m_color := (255, 255, 0)%Z
|}.

(** A park closer still to the rim (1.1 degrees north of the equator):
    its centre falls on the pixel in row 2048 and column 3993. *)
Definition edge_park : marker := {|
  m_lat := rad2deg (asin (200 / 10001));
  m_lon := 0;
  m_color := (255, 255, 0)%Z
|}.

(** "The overlay never changes a pixel outside the globe disk", of the
    overlay drawn with the rasteriser [covers]. *)
Definition overlay_stays_on_globe (covers : R → R → R → R → nat → nat → bool)
  : Prop :=
  ∀ (align_vectors : vec → vec → Rotation.t) (arctan2 : R → R → R)
    (on_land : R → R → bool) (cfg : config) (parks : list marker)
    (base : image) (i j : nat) (x y : R),
    aims_at_target align_vectors cfg →
    base_map align_vectors arctan2 on_land cfg = Ok base →
    grid_x cfg !! j = Some x → grid_y cfg !! i = Some y →
    (1 < x * x + y * y)%R →
    pixel (fst (draw_parks align_vectors covers cfg parks base)) i j = pixel base i j.

(** ** The park data file and the filtering step of the drivers *)

(** Exceptions of the data stage; [Arith] wraps those of the colour
    stage. *)
Inductive py_exn : Type := KeyError | TypeError | Arith (e : exn).

(** How a run ends: with a value, after an error message and [return],
    or with an exception. *)
Inductive run (A : Type) : Type :=
  | Finished (a : A)
  | Stopped
  | Failed (e : py_exn).
Arguments Finished {A} a.
Arguments Stopped {A}.
Arguments Failed {A} e.

(** One turn of a filtering loop: the turn appends to the list, leaves it
    as it is ([continue], or an [else] branch that only prints), or
    raises. *)
Inductive turn (A : Type) : Type :=
  | Append (a : A)
  | Skip
  | Throw (e : py_exn).
Arguments Append {A} a.
Arguments Skip {A}.
Arguments Throw {A} e.

(** [for x in l: ...] building a list by [append]; the first turn that
    raises ends the loop. *)
Fixpoint filter_loop {A B : Type} (body : A → turn B) (l : list A)
  : py_exn + list B :=
  match l with
  | [] => inr []
  | a :: l' =>
      match body a with
      | Append b =>
          match filter_loop body l' with
          | inr bs => inr (b :: bs)
          | inl e => inl e
          end
      | Skip => filter_loop body l'
      | Throw e => inl e
      end
  end.

(** A park of [USNP_data.json] as [USNP_get_data.process_park] writes it:
    all six keys are there, [coordinates] and [area] are [null] when
    Wikidata has none. *)
Module Raw.
Section Raw.
Context {F : Type}.

Record entry : Type := { year : string; visitors : F }.

Record park : Type := {
  name : string;
  id : string;
  visitor_history : list entry;
  coordinates : option (F * F);       (* latitude, longitude *)
  area : option F;
  area_unit : option string
}.

(** [{entry['year']: entry['visitors'] for entry in
    park.get('visitor_history', [])}]: a later entry replaces an earlier
    one of the same year. *)
Definition history (p : park) : gmap string F :=
  foldl (fun d e => <[year e := visitors e]> d) ∅ (visitor_history p).

(** The years a park has an entry for. *)
Definition years (p : park) : list string := map year (visitor_history p).
End Raw.
Arguments entry F : clear implicits.
Arguments park F : clear implicits.
End Raw.

Section DataStage.
Context {F : Type} `{PyFloat F}.
Local Open Scope py_scope.

(** [VisualizePopularity.main], the loop of step 2. *)
Definition popularity_turn (TARGET_YEAR : string) (park : Raw.park F)
  : turn (Popularity.park F) :=
  let visitor_history := Raw.history park in
  match visitor_history !! TARGET_YEAR with
  | Some v =>
      match Raw.coordinates park with
      | Some (latitude, longitude) =>
          Append {| Popularity.name := Raw.name park;
                    Popularity.lat := latitude;
                    Popularity.lon := longitude;
                    Popularity.visitors := v |}
      | None => Throw TypeError       (* park['coordinates']['latitude'] *)
      end
  | None => Skip
  end.

(** [x ** y] on floats, for [x >= 0]: Python answers a negative [x] and a
    fractional [y] with a complex number, which visitor counts, being
    counts, never lead to. *)
Variable power : F → F → F.

(** [VisualizeDensity.main], the loop of step 2.  [area] is a number or
    [None], so it passes the [isinstance] test whenever it is not
    [None]. *)
Definition density_turn (TARGET_YEAR : string) (park : Raw.park F)
  : turn (Density.park F) :=
  let visitor_history := Raw.history park in
  let park_name := Raw.name park in
  match visitor_history !! TARGET_YEAR with
  | None => Skip
  | Some v =>
      match Raw.area park with
      | None => Skip
      | Some area =>
          if area <= of_int 0 then Skip
          else
            match Raw.coordinates park with
            | Some (latitude, longitude) =>
                match v / area with
                | Ok q =>
                    Append {| Density.name := park_name;
                              Density.lat := latitude;
                              Density.lon := longitude;
                              Density.density := power q (dec 1 3) |}
                | Raise e => Throw (Arith e)
                end
            | None => Throw TypeError
            end
      end
  end.

(** [VisualizeChange.main], the loop of step 2. *)
Definition change_turn (YEAR_A YEAR_B : string) (park : Raw.park F)
  : turn (Change.park F) :=
  let history := Raw.history park in
  match history !! YEAR_A, history !! YEAR_B with
  | Some a, Some b =>
      match Raw.coordinates park with
      | Some (latitude, longitude) =>
          Append {| Change.name := Raw.name park;
                    Change.lat := latitude;
                    Change.lon := longitude;
                    Change.visitors_a := a;
                    Change.visitors_b := b |}
      | None => Throw TypeError
      end
  | _, _ => Skip
  end.

(** Steps 2 and 3 of [VisualizePopularity.main]: [all_parks_data] is what
    [load_park_data] returned, [None] or a list. *)
Definition popularity_run (TARGET_YEAR : string)
    (all_parks_data : option (list (Raw.park F)))
  : run (list (Popularity.park F * color)) :=
  match all_parks_data with
  | None | Some [] => Stopped
  | Some all_parks =>
      match filter_loop (popularity_turn TARGET_YEAR) all_parks with
      | inl e => Failed e
      | inr [] => Stopped
      | inr parks_for_analysis =>
          match Popularity.assign_colors parks_for_analysis with
          | Ok cs => Finished cs
          | Raise e => Failed (Arith e)
          end
      end
  end.

(** Steps 2 and 3 of [VisualizeDensity.main]. *)
Definition density_run (TARGET_YEAR : string)
    (all_parks_data : option (list (Raw.park F)))
  : run (list (Density.park F * color)) :=
  match all_parks_data with
  | None | Some [] => Stopped
  | Some all_parks =>
      match filter_loop (density_turn TARGET_YEAR) all_parks with
      | inl e => Failed e
      | inr [] => Stopped
      | inr parks_for_analysis =>
          match Density.assign_colors parks_for_analysis with
          | Ok cs => Finished cs
          | Raise e => Failed (Arith e)
          end
      end
  end.

(** Steps 2, 4 and 5 of [VisualizeChange.main]: the colours of the
    absolute map and, unless it is skipped, of the percent map. *)
Definition change_run (YEAR_A YEAR_B : string)
    (all_parks_data : option (list (Raw.park F)))
  : run (list (Change.park F * color) * option (list (Change.park F * color))) :=
  match all_parks_data with
  | None | Some [] => Stopped
  | Some all_parks =>
      match filter_loop (change_turn YEAR_A YEAR_B) all_parks with
      | inl e => Failed e
      | inr [] => Stopped
      | inr parks_for_analysis =>
          match Change.absolute_colors parks_for_analysis with
          | Raise e => Failed (Arith e)
          | Ok parks_abs_colors =>
              match Change.percent_colors parks_for_analysis with
              | Raise e => Failed (Arith e)
              | Ok pct => Finished (parks_abs_colors, pct)
              end
          end
      end
  end.
End DataStage.

(** ** Sorting by a string key *)

(** [l.sort(key=...)] with string keys.  Python compares strings by code
    point, which on UTF-8 bytes is the bytewise order of [String.ltb];
    the sort is stable: an element goes behind those already there whose
    key is not larger. *)
Fixpoint insert_by {A : Type} (key : A → string) (x : A) (l : list A) : list A :=
  match l with
  | [] => [x]
  | y :: l' =>
      if String.ltb (key x) (key y) then x :: y :: l'
      else y :: insert_by key x l'
  end.

Definition sort_by {A : Type} (key : A → string) (l : list A) : list A :=
  foldl (fun acc x => insert_by key x acc) [] l.

(** Sorted upwards by key. *)
Definition ascending_by {A : Type} (key : A → string) (l : list A) : Prop :=
  StronglySorted (fun a b => String.le (key a) (key b)) l.

(** ** Fetching the park data from Wikidata *)

Definition REQUEST_DELAY_SECONDS : nat := 10.
Definition MAX_RETRIES : nat := 99.
Definition RETRY_DELAY_SECONDS : nat := 10.

(** What the run has done to the outside so far: the number of requests
    sent and the seconds slept. *)
Record net : Type := { sent : nat; slept : nat }.

Definition sleep (seconds : nat) (w : net) : net :=
  {| sent := sent w; slept := slept w + seconds |}.

(** An entry of [USNP_Park_URLs.json]. *)
Record park_info : Type := { info_name : string; info_id : string; info_url : string }.

(** The counters and the list kept by the main loop. *)
Record tally (F : Type) : Type := {
  processed_parks : list (Raw.park F);
  success_count : nat;
  failure_count : nat;
  unconverted_units : gset string
}.
Arguments processed_parks {F} t.
Arguments success_count {F} t.
Arguments failure_count {F} t.
Arguments unconverted_units {F} t.

Section Wikidata.
Context {F D : Type}.

(** The service.  [request n entity_id] is what the [n]-th request of the
    run comes to when it asks for [entity_id]: [Some d] is a response
    whose JSON is [d], [None] a [RequestException] (no connection, a
    timeout, an HTTP error status, a body that is not JSON). *)
Variable request : nat → string → option D.

(** [requests.get(...)], [raise_for_status()] and [json()] of one
    attempt. *)
Definition attempt_get (entity_id : string) (w : net) : option D * net :=
  (request (sent w) entity_id, {| sent := S (sent w); slept := slept w |}).

(** The loop of [get_wikidata_entity] over the attempts still to make. *)
Fixpoint attempts (range : list nat) (entity_id : string) (w : net)
  : option D * net :=
  match range with
  | [] => (None, w)
  | attempt :: range' =>
      match attempt_get entity_id w with
      | (Some d, w) => (Some d, w)
      | (None, w) =>
          let w :=
            if decide (attempt < MAX_RETRIES - 1)
            then sleep RETRY_DELAY_SECONDS w else w in
          attempts range' entity_id w
      end
  end.

Definition get_wikidata_entity (entity_id : string) (w : net)
  : option D * net :=
  attempts (seq 0 MAX_RETRIES) entity_id w.

(** Lines 75 to 131 of [process_park] without the sort of line 93: from
    the entity's JSON to the visitor history in the order of the
    Wikidata statements, the coordinates, the area and its unit;
    [inr None] at the early returns, [inl e] for an exception the
    function does not catch.  Looking up the unit's label sends requests
    of its own. *)
Variable extract :
  park_info → D → net →
  (py_exn + option (list (Raw.entry F) * option (F * F) * option F * option string))
  * net.

Definition process_park (park : park_info) (w : net)
  : (py_exn + option (Raw.park F)) * net :=
  let park_id := info_id park in
  let '(data, w) := get_wikidata_entity park_id w in
  match data with
  | None => (inr None, w)
  | Some d =>
      match extract park d w with
      | (inl e, w) => (inl e, w)
      | (inr None, w) => (inr None, w)
      | (inr (Some (visitor_history, coordinates, area, area_unit)), w) =>
          (inr (Some {| Raw.name := info_name park; Raw.id := park_id;
                        Raw.visitor_history := sort_by Raw.year visitor_history;
                        Raw.coordinates := coordinates;
                        Raw.area := area; Raw.area_unit := area_unit |}), w)
      end
  end.

(** [result.get('area_unit') and result['area_unit'] not in
    ["acre", "unknown", None]] *)
Definition unconverted (result : Raw.park F) : option string :=
  match Raw.area_unit result with
  | Some u =>
      if decide (u = EmptyString) then None
      else if decide (u = "acre" ∨ u = "unknown") then None else Some u
  | None => None
  end.

(** The main loop over [enumerate(parks_to_process)]. *)
Fixpoint main_loop (total_parks : nat) (todo : list (nat * park_info))
    (t : tally F) (w : net) : (py_exn + tally F) * net :=
  match todo with
  | [] => (inr t, w)
  | (i, park) :: todo' =>
      match process_park park w with
      | (inl e, w) => (inl e, w)
      | (inr result, w) =>
          let t :=
            match result with
            | Some result =>
                {| processed_parks := processed_parks t ++ [result];
                   success_count := success_count t + 1;
                   failure_count := failure_count t;
                   unconverted_units :=
                     match unconverted result with
                     | Some u => {[ u ]} ∪ unconverted_units t
                     | None => unconverted_units t
                     end |}
            | None =>
                {| processed_parks := processed_parks t;
                   success_count := success_count t;
                   failure_count := failure_count t + 1;
                   unconverted_units := unconverted_units t |}
            end in
          let w :=
            if decide (i < total_parks - 1)
            then sleep REQUEST_DELAY_SECONDS w else w in
          main_loop total_parks todo' t w
      end
  end.

Definition get_data_main (parks_to_process : list park_info) (w : net)
  : (py_exn + tally F) * net :=
  let total_parks := length parks_to_process in
  main_loop total_parks (imap (fun i park => (i, park)) parks_to_process)
    {| processed_parks := []; success_count := 0; failure_count := 0;
       unconverted_units := ∅ |} w.
End Wikidata.

(** ** Listing the parks: [GetParkURLs] *)

(** What follows the last ["/"] of [s], if there is one. *)
Fixpoint after_last_slash (s : string) : option string :=
  match s with
  | EmptyString => None
  | String c s' =>
      match after_last_slash s' with
      | Some r => Some r
      | None => if decide (String c EmptyString = "/") then Some s' else None
      end
  end.

(** [s.split('/')[-1]] *)
Definition last_segment (s : string) : string :=
  default s (after_last_slash s).

(** A row of the SPARQL answer: [item['park']['value']] and
    [item['parkLabel']['value']]. *)
Record binding : Type := { park_value : string; parkLabel_value : string }.

(** The entry appended for a row. *)
Definition park_of_binding (item : binding) : park_info :=
  {| info_name := parkLabel_value item;
     info_id := last_segment (park_value item);
     info_url := ("https://www.wikidata.org/wiki/"
                  ++ last_segment (park_value item))%string |}.

Section GetParkURLs.
(** [park_name.lower().replace('national', '').replace('park', '').strip()] *)
Variable simple_name : string → string.

(** The loop over [results]; [seen_names] is a dict used as a set. *)
Fixpoint extract_parks (results : list binding) (parks : list park_info)
    (seen_names : gset string) : list park_info :=
  match results with
  | [] => parks
  | item :: results' =>
      let park_id := last_segment (park_value item) in
      let park_name := parkLabel_value item in
      let park_url := ("https://www.wikidata.org/wiki/" ++ park_id)%string in
      let simple := simple_name park_name in
      if decide (simple ∈ seen_names) then
        extract_parks results' parks seen_names
      else
        extract_parks results'
          (parks ++ [{| info_name := park_name; info_id := park_id;
                        info_url := park_url |}])
          ({[ simple ]} ∪ seen_names)
  end.

(** The value written to [USNP_Park_URLs.json]: the parks sorted by name
    and their number. *)
Definition get_park_urls (results : list binding) : list park_info * nat :=
  let parks := extract_parks results [] ∅ in
  let parks := sort_by info_name parks in
  (parks, length parks).
End GetParkURLs.

(** ** The data behind the plots: [USNP_Plot_Covid_Impact.main] *)

Definition TARGET_YEARS : list string := ["2010"; "2018"; "2019"; "2020"].
Definition PRIMARY_FILTER_YEAR : string := "2018".

(** A row of [long_form_data]. *)
Record row (F : Type) : Type := { Park : string; Year : string; Visitors : F }.
Arguments Park {F} r.
Arguments Year {F} r.
Arguments Visitors {F} r.

Section CovidImpact.
Context {F : Type}.

(** [{vh['year'] for vh in p['visitor_history']}] *)
Definition year_set (p : Raw.park F) : gset string := list_to_set (Raw.years p).

Definition parks_to_exclude (parks_data : list (Raw.park F)) : gset string :=
  list_to_set
    (map Raw.name
       (filter (fun p => PRIMARY_FILTER_YEAR ∉ year_set p) parks_data)).

Definition filtered_parks (parks_data : list (Raw.park F)) : list (Raw.park F) :=
  filter (fun p => Raw.name p ∉ parks_to_exclude parks_data) parks_data.

(** The inner loop over [TARGET_YEARS]; [park_visitor_map[year]] raises
    [KeyError] for a year the park has no entry for. *)
Fixpoint park_rows (park : Raw.park F) (park_visitor_map : gmap string F)
    (years : list string) : py_exn + list (row F) :=
  match years with
  | [] => inr []
  | year :: years' =>
      match park_visitor_map !! year with
      | Some v =>
          match park_rows park park_visitor_map years' with
          | inr rows =>
              inr ({| Park := Raw.name park; Year := year; Visitors := v |} :: rows)
          | inl e => inl e
          end
      | None => inl KeyError
      end
  end.

(** The outer loop: the rows of the parks, one park after the other. *)
Fixpoint long_form_data (parks : list (Raw.park F)) : py_exn + list (row F) :=
  match parks with
  | [] => inr []
  | park :: parks' =>
      match park_rows park (Raw.history park) TARGET_YEARS with
      | inr rows =>
          match long_form_data parks' with
          | inr rows' => inr (rows ++ rows')
          | inl e => inl e
          end
      | inl e => inl e
      end
  end.

(** [main] up to the rows handed to pandas; [parks_data] is what
    [load_park_data] returned. *)
Definition covid_main (parks_data : option (list (Raw.park F)))
  : run (list (row F)) :=
  match parks_data with
  | None | Some [] => Stopped
  | Some parks_data =>
      let filtered_parks := filtered_parks parks_data in
      if decide (Exists (fun p => ¬ (list_to_set TARGET_YEARS ⊆ year_set p))
                   filtered_parks)
      then Stopped
      else
        match long_form_data filtered_parks with
        | inr rows => Finished rows
        | inl e => Failed e
        end
  end.
End CovidImpact.

(** ** Further notions used in the statements *)

(** [max(0.0, min(1.0, normalized_value))] of [get_density_color]. *)
Definition clamp01 (t : R) : R := max2 0%R (min2 1%R t).

(** What a turn appends, if anything. *)
Definition appended {B : Type} (t : turn B) : option B :=
  match t with Append b => Some b | _ => None end.

(** A park the density driver keeps: it has the target year and a
    positive area. *)
Definition density_eligible (TARGET_YEAR : string) (raw : Raw.park R) : bool :=
  bool_decide (TARGET_YEAR ∈ Raw.years raw) &&
  match Raw.area raw with Some a => Rltb 0 a | None => false end.

(** ** Sample inputs *)

(** Sample inputs for the drivers, on binary64 numbers and on reals. *)
Definition sample_visitors {F : Type} `{PyFloat F} : list (Popularity.park F) :=
  [ {| Popularity.name := "A"; Popularity.lat := of_int 44;
       Popularity.lon := of_int (-110); Popularity.visitors := of_int 1000 |};
    {| Popularity.name := "B"; Popularity.lat := of_int 36;
       Popularity.lon := of_int (-112); Popularity.visitors := of_int 4000 |};
    {| Popularity.name := "C"; Popularity.lat := of_int 37;
       Popularity.lon := of_int (-119); Popularity.visitors := of_int 2500 |} ].

Definition sample_densities {F : Type} `{PyFloat F} : list (Density.park F) :=
  [ {| Density.name := "A"; Density.lat := of_int 44;
       Density.lon := of_int (-110); Density.density := of_int 1 |};
    {| Density.name := "B"; Density.lat := of_int 36;
       Density.lon := of_int (-112); Density.density := of_int 3 |};
    {| Density.name := "C"; Density.lat := of_int 37;
       Density.lon := of_int (-119); Density.density := of_int 2 |} ].

Definition sample_changes {F : Type} `{PyFloat F} : list (Change.park F) :=
  [ {| Change.name := "A"; Change.lat := of_int 44; Change.lon := of_int (-110);
       Change.visitors_a := of_int 1000; Change.visitors_b := of_int 400 |};
    {| Change.name := "B"; Change.lat := of_int 36; Change.lon := of_int (-112);
       Change.visitors_a := of_int 0; Change.visitors_b := of_int 300 |};
    {| Change.name := "C"; Change.lat := of_int 37; Change.lon := of_int (-119);
       Change.visitors_a := of_int 500; Change.visitors_b := of_int 500 |} ].

(** A sample data file: park B has no entry for 2010 and no area, park C
    has two entries for 2020. *)
Definition sample_file {F : Type} `{PyFloat F} : list (Raw.park F) :=
  [ {| Raw.name := "A"; Raw.id := "Q1";
       Raw.visitor_history :=
         [ {| Raw.year := "2010"; Raw.visitors := of_int 1000 |};
           {| Raw.year := "2019"; Raw.visitors := of_int 900 |};
           {| Raw.year := "2020"; Raw.visitors := of_int 400 |} ];
       Raw.coordinates := Some (of_int 44, of_int (-110));
       Raw.area := Some (of_int 2000); Raw.area_unit := Some "acre" |};
    {| Raw.name := "B"; Raw.id := "Q2";
       Raw.visitor_history :=
         [ {| Raw.year := "2019"; Raw.visitors := of_int 0 |};
           {| Raw.year := "2020"; Raw.visitors := of_int 300 |} ];
       Raw.coordinates := Some (of_int 36, of_int (-112));
       Raw.area := None; Raw.area_unit := None |};
    {| Raw.name := "C"; Raw.id := "Q3";
       Raw.visitor_history :=
         [ {| Raw.year := "2010"; Raw.visitors := of_int 2500 |};
           {| Raw.year := "2019"; Raw.visitors := of_int 500 |};
           {| Raw.year := "2020"; Raw.visitors := of_int 500 |};
           {| Raw.year := "2020"; Raw.visitors := of_int 700 |} ];
       Raw.coordinates := Some (of_int 37, of_int (-119));
       Raw.area := Some (of_int 100); Raw.area_unit := Some "acre" |} ].

(** A park that Wikidata gives no coordinates for. *)
Definition sample_lost {F : Type} `{PyFloat F} : Raw.park F :=
  {| Raw.name := "D"; Raw.id := "Q4";
     Raw.visitor_history :=
       [ {| Raw.year := "2010"; Raw.visitors := of_int 10 |};
         {| Raw.year := "2019"; Raw.visitors := of_int 20 |};
         {| Raw.year := "2020"; Raw.visitors := of_int 30 |} ];
     Raw.coordinates := None;
     Raw.area := Some (of_int 5); Raw.area_unit := Some "acre" |}.

(** A service that fails twice and answers from the third request on, and
    an entity with three visitor statements, two of them for 2020. *)
Definition sample_request (n : nat) (entity_id : string) : option unit :=
  if decide (n < 2) then None else Some tt.

Definition sample_extract (park : park_info) (d : unit) (w : net)
  : (py_exn + option (list (Raw.entry Z) * option (Z * Z) * option Z * option string))
    * net :=
  (inr (Some ([ {| Raw.year := "2020"; Raw.visitors := 500%Z |};
                {| Raw.year := "2010"; Raw.visitors := 2500%Z |};
                {| Raw.year := "2020"; Raw.visitors := 700%Z |} ],
              Some (37, -119)%Z, Some 100%Z, Some "acre")), w).

Definition sample_info : park_info :=
  {| info_name := "C"; info_id := "Q3";
     info_url := "https://www.wikidata.org/wiki/Q3" |}.

(** An 11 by 11 canvas with no margin, whose grid has the samples
    -1, -0.8, ..., 1; a camera that looks along the x axis of the
    world, and a world whose land lies at negative longitudes, with
    stand-ins for the functions of numpy. *)
Definition sample_raster : Raster.config float := {|
  Raster.IMAGE_SIZE_PX := 11;
  Raster.SUPER_SAMPLING_FACTOR := 1;
  Raster.MARGIN_FRACTION := 0%float;
  Raster.LAND_COLOR := (78, 97, 65)%Z;
  Raster.OCEAN_COLOR := (130, 160, 194)%Z;
  Raster.SPACE_COLOR := (10, 15, 20)%Z
|}.
Definition sample_library : Raster.library float := {|
  Raster.np_sqrt := PrimFloat.sqrt;
  Raster.inv_apply := fun '(x, y, z) => (z, x, y);
  Raster.np_arctan2 := fun y x => PrimFloat.div y x;
  Raster.np_arcsin := fun z => z;
  Raster.np_rad2deg := fun a => PrimFloat.mul a 57.295779513082323;
  Raster.on_land := fun lon lat => PrimFloat.ltb lon 0
|}.

(** * Proofs *)

Ltac ideal_simpl :=
  cbn [of_int fadd fsub fmul fdiv fabs feqb fltb fleb to_int ideal mbind mret
       result_bind result_ret] in *.
Ltac tuple_eq := repeat match goal with |- (_, _) = (_, _) => f_equal end.
Ltac destruct_vec v :=
  let x := fresh v "x" in let y := fresh v "y" in let z := fresh v "z" in
  destruct v as [[x y] z].
Ltac destruct_rot r :=
  let r1 := fresh r "1" in let r2 := fresh r "2" in let r3 := fresh r "3" in
  destruct r as [[r1 r2] r3]; destruct_vec r1; destruct_vec r2; destruct_vec r3.

(** ** Comparisons and truncation on the reals *)
Lemma Rleb_true (x y : R) : (x <= y)%R → Rleb x y = true.
Proof. intros. unfold Rleb. destruct (Rle_dec x y); [done | contradiction]. Qed.
Lemma Rleb_false (x y : R) : (y < x)%R → Rleb x y = false.
Proof. intros. unfold Rleb. destruct (Rle_dec x y); [lra | done]. Qed.
Lemma Rltb_true (x y : R) : (x < y)%R → Rltb x y = true.
Proof. intros. unfold Rltb. destruct (Rlt_dec x y); [done | contradiction]. Qed.
Lemma Rltb_false (x y : R) : (y <= x)%R → Rltb x y = false.
Proof. intros. unfold Rltb. destruct (Rlt_dec x y); [lra | done]. Qed.
Lemma Reqb_true (x y : R) : x = y → Reqb x y = true.
Proof. intros. unfold Reqb. destruct (Req_dec_T x y); [done | contradiction]. Qed.
Lemma Reqb_false (x y : R) : x ≠ y → Reqb x y = false.
Proof. intros. unfold Reqb. destruct (Req_dec_T x y); [contradiction | done]. Qed.

Lemma Rtrunc_bounds (a b : Z) (x : R) :
  (0 ≤ a)%Z → (IZR a <= x <= IZR b)%R → (a ≤ Rtrunc x ≤ b)%Z.
Proof.
  intros Ha [Hl Hu]. unfold Rtrunc.
  assert (0 <= x)%R by (apply IZR_le in Ha; lra).
  destruct (Rle_dec 0 x) as [_ | n]; [| contradiction].
  destruct (base_Int_part x) as [H1 H2]. split.
  - assert (IZR a < IZR (Int_part x + 1))%R as Hlt
      by (rewrite plus_IZR; lra).
    apply lt_IZR in Hlt. lia.
  - apply le_IZR. lra.
Qed.

Lemma Rtrunc_eq (z : Z) (x : R) :
  (0 ≤ z)%Z → (IZR z <= x < IZR z + 1)%R → Rtrunc x = z.
Proof.
  intros Hz [Hl Hu]. unfold Rtrunc.
  assert (0 <= x)%R by (apply IZR_le in Hz; lra).
  destruct (Rle_dec 0 x) as [_ | n]; [| contradiction].
  symmetry. apply Int_part_spec. lra.
Qed.

Lemma ideal_visitor_range (t : R) :
  (0 <= t <= 1)%R → ∃ c, get_visitor_color t = Ok c ∧ in_rgb_range c.
Proof.
  intros Ht. unfold get_visitor_color, pydiv, dec. ideal_simpl.
  rewrite !(Reqb_false _ 0) by lra.
  destruct (Rle_dec t (7 / 10)) as [Hle | Hgt].
  - rewrite Rleb_true by done. ideal_simpl. eexists. split; [done |]. cbn.
    repeat split; try lia;
      apply (Rtrunc_bounds 0 255); try lia; lra.
  - rewrite Rleb_false by lra. ideal_simpl. eexists. split; [done |]. cbn.
    repeat split; try lia; apply (Rtrunc_bounds 0 255); try lia; lra.
Qed.

Lemma ideal_density_range (t : R) :
  ∃ c, get_density_color t = Ok c ∧ in_rgb_range c.
Proof.
  unfold get_density_color, max2, min2. ideal_simpl.
  set (u := (if Rltb 0 (if Rltb t 1 then t else 1) then (if Rltb t 1 then t else 1) else 0)%R).
  assert (0 <= u <= 1)%R as Hu.
  { subst u. unfold Rltb. repeat destruct (Rlt_dec _ _); lra. }
  eexists. split; [done |]. cbn.
  repeat split; try lia; apply (Rtrunc_bounds 0 255); try lia; lra.
Qed.

Lemma ideal_density_clamp_low (t : R) :
  (t < 0)%R → get_density_color t = get_density_color 0%R.
Proof.
  intros Ht. unfold get_density_color, max2, min2. ideal_simpl.
  rewrite (Rltb_true t 1%R), (Rltb_false 0%R t), (Rltb_true 0%R 1%R), (Rltb_false 0%R 0%R) by lra.
  done.
Qed.

Lemma ideal_density_clamp_high (t : R) :
  (1 < t)%R → get_density_color t = get_density_color 1%R.
Proof.
  intros Ht. unfold get_density_color, max2, min2. ideal_simpl.
  rewrite (Rltb_false t 1%R), (Rltb_false 1%R 1%R), (Rltb_true 0%R 1%R) by lra.
  done.
Qed.

Lemma ideal_change_range (t : R) :
  (0 <= t <= 1)%R → ∃ c, get_change_color t = Ok c ∧ in_rgb_range c.
Proof.
  intros Ht. unfold get_change_color, dec. ideal_simpl.
  destruct (Rle_dec t (1 / 2)) as [Hle | Hgt].
  - rewrite Rleb_true by done. eexists. split; [done |]. cbn.
    repeat split; try lia; apply (Rtrunc_bounds 0 255); try lia; lra.
  - rewrite Rleb_false by lra. eexists. split; [done |]. cbn.
    repeat split; try lia; apply (Rtrunc_bounds 0 255); try lia; lra.
Qed.

(** ** Order of binary64 numbers around 0 and 1 *)

Lemma SF_zero : Prim2SF 0%float = S754_zero false. Proof. reflexivity. Qed.
Lemma SF_one :
  Prim2SF 1%float = S754_finite false 4503599627370496%positive (-52)%Z.
Proof. reflexivity. Qed.

Lemma float_below_zero (t : float) :
  (t <? 0)%float = true → (t <? 1)%float = true ∧ (0 <? t)%float = false.
Proof.
  rewrite !ltb_spec, SF_zero, SF_one.
  destruct (Prim2SF t) as [s | s | | s m e]; try destruct s; done.
Qed.

Lemma float_above_one (t : float) :
  (1 <? t)%float = true → (t <? 1)%float = false.
Proof.
  rewrite !ltb_spec, SF_one. generalize 4503599627370496%positive as one.
  intros one.
  destruct (Prim2SF t) as [s | s | | s m e]; try destruct s; try done.
  unfold SFltb, SFcompare.
  change (PosDef.Pos.compare_cont Eq one m) with (Pos.compare one m).
  change (PosDef.Pos.compare_cont Eq m one) with (Pos.compare m one).
  rewrite (Z.compare_antisym e (-52)), (Pos.compare_antisym m one).
  destruct (e ?= -52)%Z; cbn; try done.
  destruct (m ?= one)%positive; cbn; done.
Qed.

Lemma binary64_density_clamp_low (t : float) :
  (t <? 0)%float = true →
  get_density_color t = get_density_color (F:=float) (of_int 0).
Proof.
  intros Ht. destruct (float_below_zero t Ht) as [H1 H0].
  unfold get_density_color, max2, min2.
  cbn [of_int fadd fsub fmul fdiv fabs feqb fltb fleb to_int binary64].
  change (float_of_int 1) with 1%float. change (float_of_int 0) with 0%float.
  rewrite H1, H0. reflexivity.
Qed.

Lemma binary64_density_clamp_high (t : float) :
  (1 <? t)%float = true →
  get_density_color t = get_density_color (F:=float) (of_int 1).
Proof.
  intros Ht. pose proof (float_above_one t Ht) as H1.
  unfold get_density_color, max2, min2.
  cbn [of_int fadd fsub fmul fdiv fabs feqb fltb fleb to_int binary64].
  change (float_of_int 1) with 1%float. change (float_of_int 0) with 0%float.
  rewrite H1. reflexivity.
Qed.

(** ** Loops, minimum and maximum *)

Lemma for_each_ok {A B : Type} (P : A → B → Prop) (body : A → result B) (l : list A) :
  (∀ a, a ∈ l → ∃ b, body a = Ok b ∧ P a b) →
  ∃ bs, for_each body l = Ok bs ∧ Forall2 P l bs.
Proof.
  induction l as [| a l IH]; intros Hall.
  - exists []. split; [done | constructor].
  - destruct (Hall a) as (b & Hb & HP); [left |].
    destruct IH as (bs & Hbs & HF).
    { intros a' Ha'. apply Hall. by right. }
    exists (b :: bs). cbn. rewrite Hb. cbn. rewrite Hbs. cbn.
    split; [done | by constructor].
Qed.

Section IdealOrder.
Local Open Scope R_scope.

Lemma fold_min2_spec (l : list R) (x : R) :
  let m := fold_left (min2 (F:=R)) l x in
  (m = x ∨ m ∈ l) ∧ m <= x ∧ ∀ y, y ∈ l → m <= y.
Proof.
  revert x. induction l as [| a l IH]; intros x; cbn.
  - split; [by left |]. split; [lra |]. intros y Hy. by apply elem_of_nil in Hy.
  - destruct (IH (min2 x a)) as (Hin & Hle & Hall).
    assert (min2 x a <= x ∧ min2 x a <= a ∧ (min2 x a = x ∨ min2 x a = a)) as (H1 & H2 & H3).
    { unfold min2. cbn. unfold Rltb. destruct (Rlt_dec a x); lra. }
    split; [| split].
    + destruct Hin as [-> | Hin]; [| right; by right].
      destruct H3 as [-> | ->]; [by left | right; left].
    + lra.
    + intros y Hy. apply elem_of_cons in Hy as [-> | Hy]; [lra | by apply Hall].
Qed.

Lemma fold_max2_spec (l : list R) (x : R) :
  let m := fold_left (max2 (F:=R)) l x in
  (m = x ∨ m ∈ l) ∧ x <= m ∧ ∀ y, y ∈ l → y <= m.
Proof.
  revert x. induction l as [| a l IH]; intros x; cbn.
  - split; [by left |]. split; [lra |]. intros y Hy. by apply elem_of_nil in Hy.
  - destruct (IH (max2 x a)) as (Hin & Hle & Hall).
    assert (x <= max2 x a ∧ a <= max2 x a ∧ (max2 x a = x ∨ max2 x a = a)) as (H1 & H2 & H3).
    { unfold max2. cbn. unfold Rltb. destruct (Rlt_dec x a); lra. }
    split; [| split].
    + destruct Hin as [-> | Hin]; [| right; by right].
      destruct H3 as [-> | ->]; [by left | right; left].
    + lra.
    + intros y Hy. apply elem_of_cons in Hy as [-> | Hy]; [lra | by apply Hall].
Qed.

Lemma py_min_spec (l : list R) :
  l ≠ [] → ∃ m, py_min l = Ok m ∧ m ∈ l ∧ ∀ y, y ∈ l → m <= y.
Proof.
  destruct l as [| x l]; [done | intros _].
  destruct (fold_min2_spec l x) as (Hin & Hle & Hall).
  eexists. split; [done |]. split.
  - destruct Hin as [-> | Hin]; [left | by right].
  - intros y Hy. apply elem_of_cons in Hy as [-> | Hy]; [done | by apply Hall].
Qed.

Lemma py_max_spec (l : list R) :
  l ≠ [] → ∃ m, py_max l = Ok m ∧ m ∈ l ∧ ∀ y, y ∈ l → y <= m.
Proof.
  destruct l as [| x l]; [done | intros _].
  destruct (fold_max2_spec l x) as (Hin & Hle & Hall).
  eexists. split; [done |]. split.
  - destruct Hin as [-> | Hin]; [left | by right].
  - intros y Hy. apply elem_of_cons in Hy as [-> | Hy]; [done | by apply Hall].
Qed.

Lemma guard_zero_pos (r : R) : 0 <= r → 0 < guard_zero r ∧ (r = 0 ∨ guard_zero r = r).
Proof.
  intros Hr. unfold guard_zero. ideal_simpl. unfold Reqb.
  destruct (Req_dec_T r 0); [split; [lra | by left] | split; [lra | by right]].
Qed.

Lemma pydiv_ok (x y : R) : y ≠ 0 → pydiv x y = Ok (x / y).
Proof. intros. unfold pydiv. ideal_simpl. by rewrite Reqb_false. Qed.

Lemma div_unit (x y : R) : 0 <= x <= y → 0 < y → 0 <= x / y <= 1.
Proof.
  intros [H0 Hxy] Hy. split.
  - apply Rmult_le_pos; [done | left; by apply Rinv_0_lt_compat].
  - apply (Rmult_le_reg_r y); [done |]. unfold Rdiv.
    rewrite Rmult_assoc, Rinv_l by lra. lra.
Qed.

Lemma popularity_normalized (parks : list (Popularity.park R)) :
  parks ≠ [] →
  ∃ mn rg, Popularity.visitor_stats parks = Ok (mn, rg) ∧
    ∀ p, p ∈ parks →
      ∃ t, Popularity.normalized_visitors mn rg p = Ok t ∧
           unit_and_colored get_visitor_color t.
Proof.
  intros Hne. unfold Popularity.visitor_stats.
  assert (map Popularity.visitors parks ≠ []) as Hne' by (by destruct parks).
  destruct (py_min_spec _ Hne') as (mn & -> & Hmin_in & Hmin).
  destruct (py_max_spec _ Hne') as (mx & -> & Hmax_in & Hmax).
  ideal_simpl. eexists _, _. split; [done |].
  intros p Hp.
  assert (Popularity.visitors p ∈ map Popularity.visitors parks) as Hv
    by (apply list_elem_of_fmap; eauto).
  pose proof (Hmin _ Hv). pose proof (Hmax _ Hv).
  destruct (guard_zero_pos (mx - mn)) as [Hpos Hg]; [lra |].
  unfold Popularity.normalized_visitors. ideal_simpl.
  rewrite pydiv_ok by lra. eexists. split; [done |].
  assert (0 <= (Popularity.visitors p - mn) / guard_zero (mx - mn) <= 1) as Hunit.
  { apply div_unit; [| done]. destruct Hg as [Hg | ->]; lra. }
  split; [done |]. by apply ideal_visitor_range.
Qed.
End IdealOrder.

(** ** The change driver keeps its values in the unit interval *)

Section IdealChange.
Local Open Scope R_scope.

Lemma remap_unit (v m : R) :
  0 < m → Rabs v <= m →
  ∃ t, Change.remap v m = Ok t ∧ unit_and_colored get_change_color t.
Proof.
  intros Hm Hv. unfold Change.remap. rewrite pydiv_ok by lra. ideal_simpl.
  eexists. split; [done |].
  assert (-1 <= v / m <= 1) as Hq.
  { assert (- m <= v <= m) as [Hl Hu]
      by (revert Hv; unfold Rabs; destruct (Rcase_abs v); lra).
    assert (0 < / m) as Hi by (by apply Rinv_0_lt_compat).
    assert (m * / m = 1) as Hone by (apply Rinv_r; lra).
    unfold Rdiv. split; nra. }
  assert (0 <= v / m * dec 1 2 + dec 1 2 <= 1) as Hunit
    by (unfold dec; ideal_simpl; lra).
  split; [done |]. by apply ideal_change_range.
Qed.

Lemma guarded_max_abs {A : Type} (f : A → R) (l : list A) :
  l ≠ [] →
  ∃ m, py_max (map (fun a => fabs (f a)) l) = Ok m ∧
       0 < guard_zero m ∧ ∀ a, a ∈ l → Rabs (f a) <= guard_zero m.
Proof.
  intros Hne.
  assert (map (fun a => fabs (f a)) l ≠ []) as Hne' by (by destruct l).
  destruct (py_max_spec _ Hne') as (m & -> & Hin & Hmax).
  exists m. split; [done |].
  apply list_elem_of_fmap in Hin as (a0 & -> & _). ideal_simpl.
  destruct (guard_zero_pos (Rabs (f a0))) as [Hpos Hg]; [apply Rabs_pos |].
  split; [done |]. intros a Ha.
  assert (Rabs (f a) <= Rabs (f a0)) as Hle.
  { apply Hmax. apply list_elem_of_fmap. by exists a. }
  destruct Hg as [Hg | ->]; lra.
Qed.

Lemma absolute_normalized (parks : list (Change.park R)) :
  parks ≠ [] →
  ∃ m, Change.max_abs_delta parks = Ok m ∧
    ∀ p, p ∈ parks →
      ∃ t, Change.remap (Change.delta p) m = Ok t ∧
           unit_and_colored get_change_color t.
Proof.
  intros Hne. unfold Change.max_abs_delta.
  destruct (guarded_max_abs Change.delta parks Hne) as (m & -> & Hpos & Hall).
  ideal_simpl. eexists. split; [done |]. intros p Hp.
  apply remap_unit; [done | by apply Hall].
Qed.

Lemma with_valid_percent_ok (parks : list (Change.park R)) :
  ∃ valid, Change.with_valid_percent parks = Ok valid.
Proof.
  unfold Change.with_valid_percent.
  destruct (for_each_ok (fun _ _ => True)
    (fun p : Change.park R =>
       percent_change ← ((Change.visitors_b p - Change.visitors_a p)
                         / Change.visitors_a p)%py;
       mret (p, percent_change))
    (filter (fun p => (of_int 0 < Change.visitors_a p)%py = true) parks))
    as (bs & Hbs & _); [| by exists bs].
  intros p Hp. apply list_elem_of_filter in Hp as [Hpos _].
  ideal_simpl. unfold Rltb in Hpos.
  destruct (Rlt_dec 0 (Change.visitors_a p)); [| done].
  rewrite pydiv_ok by lra. ideal_simpl. eauto.
Qed.

Lemma percent_normalized (valid : list (Change.park R * R)) :
  valid ≠ [] →
  ∃ m, Change.max_abs_percent valid = Ok m ∧
    ∀ pc, pc ∈ valid →
      ∃ t, Change.remap (snd pc) m = Ok t ∧
           unit_and_colored get_change_color t.
Proof.
  intros Hne. unfold Change.max_abs_percent.
  destruct (guarded_max_abs snd valid Hne) as (m & -> & Hpos & Hall).
  ideal_simpl. eexists. split; [done |]. intros p Hp.
  apply remap_unit; [done | by apply Hall].
Qed.
End IdealChange.

(** ** Sorting downwards and the second largest density *)

Lemma density_singleton_raises {F : Type} `{PyFloat F} (p : Density.park F) :
  Density.assign_colors [p] = Raise IndexError.
Proof. reflexivity. Qed.

Section IdealDensity.
Local Open Scope R_scope.

Lemma insert_desc_perm (x : R) (l : list R) : insert_desc x l ≡ₚ x :: l.
Proof.
  induction l as [| y l IH]; cbn; [done |].
  unfold Rltb. destruct (Rlt_dec y x); [done |].
  rewrite IH. apply Permutation_swap.
Qed.

Lemma insert_desc_sorted (x : R) (l : list R) :
  descending l → descending (insert_desc x l).
Proof.
  unfold descending. induction 1 as [| y l Hs IH Hy]; cbn.
  - repeat constructor.
  - unfold Rltb. destruct (Rlt_dec y x) as [Hlt | Hge].
    + constructor; [by constructor |].
      constructor; [lra |]. eapply Forall_impl; [exact Hy |]. cbn. intros; lra.
    + constructor; [done |].
      rewrite insert_desc_perm. constructor; [lra | done].
Qed.

Lemma sorted_reverse_spec (l : list R) :
  sorted_reverse l ≡ₚ l ∧ descending (sorted_reverse l).
Proof.
  unfold sorted_reverse. rewrite <- (reverse_Permutation l) at 2.
  induction (reverse l) as [| x r [IHp IHs]]; cbn.
  - split; [done | constructor].
  - split; [by rewrite insert_desc_perm, IHp | by apply insert_desc_sorted].
Qed.

(** With a strict maximum at position [i], the second entry of the
    densities sorted downwards is the largest of the other entries. *)
Lemma second_largest (l : list R) (i : nat) (m : R) :
  l !! i = Some m →
  (∀ j y, l !! j = Some y → j ≠ i → y < m) →
  (2 ≤ length l)%nat →
  ∃ s, index (sorted_reverse l) 1 = Ok s ∧
       s ∈ delete i l ∧ ∀ y, y ∈ delete i l → y <= s.
Proof.
  intros Hi Huniq Hlen.
  destruct (sorted_reverse_spec l) as [Hperm Hsort].
  assert (l ≡ₚ m :: delete i l) as Hdel by (by apply delete_Permutation).
  assert (∀ y, y ∈ l → y <= m) as Hmax.
  { intros y Hy. apply list_elem_of_lookup in Hy as [j Hj].
    destruct (decide (j = i)) as [-> | Hne]; [| left; by eapply Huniq].
    rewrite Hi in Hj. injection Hj as ->. lra. }
  pose proof (Permutation_length Hperm) as Hl.
  destruct (sorted_reverse l) as [| h [| s rest]] eqn:Hsr; cbn in Hl; try lia.
  apply StronglySorted_inv in Hsort as [Hsort' Hh].
  assert (h = m) as ->.
  { assert (h ∈ l) as Hhl by (rewrite <- Hperm; left).
    assert (m ∈ h :: s :: rest) as Hm
      by (rewrite Hperm; apply list_elem_of_lookup; eauto).
    apply elem_of_cons in Hm as [-> | Hm]; [done |].
    rewrite Forall_forall in Hh. pose proof (Hh _ Hm). pose proof (Hmax _ Hhl). lra. }
  assert (s :: rest ≡ₚ delete i l) as Hrest.
  { apply (Permutation_cons_inv (a:=m)). by rewrite Hperm. }
  exists s. split; [done |]. split.
  - rewrite <- Hrest. left.
  - intros y Hy. rewrite <- Hrest in Hy.
    apply StronglySorted_inv in Hsort' as [_ Hs].
    apply elem_of_cons in Hy as [-> | Hy]; [lra |].
    rewrite Forall_forall in Hs. by apply Hs.
Qed.
End IdealDensity.

(** ** The density rule for two parks or more *)

Section IdealDensity2.
Local Open Scope R_scope.

Lemma ideal_density_not_black (t : R) (c : color) :
  get_density_color t = Ok c → c ≠ Density.black.
Proof.
  unfold get_density_color, max2, min2. ideal_simpl.
  set (u := (if Rltb 0 (if Rltb t 1 then t else 1) then (if Rltb t 1 then t else 1) else 0)%R).
  assert (0 <= u <= 1)%R as Hu.
  { subst u. unfold Rltb. repeat destruct (Rlt_dec _ _); lra. }
  intros [= <-]. unfold Density.black. intros [= _ _ Hb].
  pose proof (Rtrunc_bounds 84 255 (255 - 171 * u)) as Hr.
  rewrite Hb in Hr. lapply Hr; [| lia]. intros Hr'. lapply Hr'; [lia | lra].
Qed.

Lemma for_each_lookup {A B : Type} (body : A → result B)
    (l : list A) (bs : list B) :
  for_each body l = Ok bs →
  ∀ j a, l !! j = Some a → ∃ b, bs !! j = Some b ∧ body a = Ok b.
Proof.
  revert bs. induction l as [| a l IH]; intros bs Hbs j x Hj; [done |].
  cbn in Hbs. destruct (body a) as [b |] eqn:Hb; [| done]. cbn in Hbs.
  destruct (for_each body l) as [bs' |] eqn:Hbs'; [| done]. cbn in Hbs.
  injection Hbs as <-. destruct j as [| j]; cbn in *.
  - injection Hj as <-. eauto.
  - by eapply IH.
Qed.

Lemma density_rule (parks : list (Density.park R)) (i : nat) (top : Density.park R) :
  parks !! i = Some top →
  (∀ j p, parks !! j = Some p → j ≠ i → Density.density p < Density.density top) →
  (2 ≤ length parks)%nat →
  ∃ mn second cs,
    py_min (map Density.density parks) = Ok mn ∧
    second ∈ delete i (map Density.density parks) ∧
    (∀ y, y ∈ delete i (map Density.density parks) → y <= second) ∧
    Density.assign_colors parks = Ok cs ∧
    ∀ j p, parks !! j = Some p →
      ∃ c, cs !! j = Some (p, c) ∧
        (j = i → c = Density.black) ∧
        (j ≠ i → c ≠ Density.black ∧
           get_density_color
             ((Density.density p - mn) / guard_zero (second - mn)) = Ok c).
Proof.
  intros Hi Huniq Hlen.
  set (ds := map Density.density parks).
  assert (ds !! i = Some (Density.density top)) as Hdi
    by (subst ds; by rewrite list_lookup_fmap, Hi).
  assert (∀ j y, ds !! j = Some y → j ≠ i → y < Density.density top) as Hdu.
  { subst ds. intros j y Hj Hne. rewrite list_lookup_fmap in Hj.
    destruct (parks !! j) as [p |] eqn:Hp; [| done]. injection Hj as <-.
    by eapply Huniq. }
  assert (2 ≤ length ds)%nat as Hdl by (subst ds; by rewrite length_map).
  assert (ds ≠ []) as Hne by (intros E; rewrite E in Hdl; cbn in Hdl; lia).
  destruct (py_min_spec ds Hne) as (mn & Hmn & Hmn_in & Hmin).
  destruct (py_max_spec ds Hne) as (mx & Hmx & Hmx_in & Hmax).
  destruct (second_largest ds i _ Hdi Hdu Hdl) as (s & Hs & Hs_in & Hs_max).
  assert (mx = Density.density top) as ->.
  { assert (Density.density top <= mx) by (apply Hmax, list_elem_of_lookup; eauto).
    apply list_elem_of_lookup in Hmx_in as [j Hj].
    destruct (decide (j = i)) as [-> | Hji]; [congruence |].
    pose proof (Hdu _ _ Hj Hji). lra. }
  assert (s ∈ ds) as Hs_ds.
  { rewrite (delete_Permutation ds i _ Hdi). by right. }
  destruct (guard_zero_pos (s - mn)) as [Hpos _]; [pose proof (Hmin _ Hs_ds); lra |].
  assert (∃ cs, for_each (fun p =>
      c ← Density.park_color mn (guard_zero (s - mn)) (Density.density top) p;
      mret (p, c)) parks = Ok cs) as [cs Hcs].
  { destruct (for_each_ok (fun _ _ => True) (fun p =>
      c ← Density.park_color mn (guard_zero (s - mn)) (Density.density top) p;
      mret (p, c)) parks) as (cs & Hcs & _); [| eauto].
    intros p _. unfold Density.park_color. ideal_simpl.
    destruct (Reqb _ _); [cbn; eauto |].
    rewrite pydiv_ok by lra. ideal_simpl.
    destruct (ideal_density_range
      ((Density.density p - mn) / guard_zero (s - mn))) as (c & -> & _).
    cbn. eauto. }
  exists mn, s, cs. repeat split; try done.
  - unfold Density.assign_colors, Density.density_stats. fold ds.
    rewrite Hmn, Hmx, Hs. ideal_simpl. exact Hcs.
  - intros j p Hj.
    destruct (for_each_lookup _ _ _ Hcs j p Hj) as (b & Hb & Hbody).
    unfold Density.park_color in Hbody. ideal_simpl.
    destruct (decide (j = i)) as [-> | Hji].
    + assert (p = top) as -> by congruence.
      rewrite Reqb_true in Hbody by done. cbn in Hbody. injection Hbody as <-.
      exists Density.black. by split.
    + pose proof (Huniq _ _ Hj Hji) as Hlt.
      rewrite Reqb_false in Hbody by lra.
      rewrite pydiv_ok in Hbody by lra. ideal_simpl.
      destruct (get_density_color _) as [c |] eqn:Hc; [| done].
      cbn in Hbody. injection Hbody as <-. exists c.
      split; [done |]. split; [done |]. intros _.
      split; [by eapply ideal_density_not_black | done].
Qed.
End IdealDensity2.

(** ** Rotations *)

Section RotationLemmas.
Local Open Scope R_scope.
Import Rotation.

Lemma apply_mul (p q : t) (v : vec) : apply (mul p q) v = apply p (apply q v).
Proof.
  destruct_rot p. destruct_rot q. destruct_vec v. cbn.
  tuple_eq; ring.
Qed.

Lemma inv_mul (p q : t) : inv (mul p q) = mul (inv q) (inv p).
Proof.
  destruct_rot p. destruct_rot q. cbn. tuple_eq; ring.
Qed.

Lemma apply_inv (r : t) (v : vec) :
  orthogonal r → apply (inv r) (apply r v) = v.
Proof.
  unfold orthogonal, identity. destruct_rot r. destruct_vec v. cbn.
  intros [= H11 H12 H13 H21 H22 H23 H31 H32 H33].
  tuple_eq.
  - pose proof (f_equal (Rmult vx) H11). pose proof (f_equal (Rmult vy) H12).
    pose proof (f_equal (Rmult vz) H13). lra.
  - pose proof (f_equal (Rmult vx) H21). pose proof (f_equal (Rmult vy) H22).
    pose proof (f_equal (Rmult vz) H23). lra.
  - pose proof (f_equal (Rmult vx) H31). pose proof (f_equal (Rmult vy) H32).
    pose proof (f_equal (Rmult vz) H33). lra.
Qed.

Lemma apply_neg (r : t) (v : vec) : apply r (neg_vec v) = neg_vec (apply r v).
Proof. destruct_rot r. destruct_vec v. cbn. tuple_eq; ring. Qed.

Lemma from_euler_z_orthogonal (a : R) : orthogonal (from_euler_z a).
Proof.
  unfold orthogonal, from_euler_z, identity. cbn.
  pose proof (sin2_cos2 (deg2rad a)) as Hsc. unfold Rsqr in Hsc.
  tuple_eq; lra.
Qed.

Lemma from_euler_z_axis (a : R) : apply (from_euler_z a) z_axis = z_axis.
Proof. unfold from_euler_z, z_axis. cbn. tuple_eq; ring. Qed.

Lemma latlon_unit (lat lon : R) : norm_sq (latlon_to_vec lat lon) = 1.
Proof.
  unfold norm_sq, latlon_to_vec. cbn.
  pose proof (sin2_cos2 (deg2rad lat)) as H1. pose proof (sin2_cos2 (deg2rad lon)) as H2.
  unfold Rsqr in *. nsatz.
Qed.

Lemma shortest_arc_spec (b : vec) :
  norm_sq b = 1 → snd b ≠ -1 →
  orthogonal (shortest_arc_to_z b) ∧ apply (shortest_arc_to_z b) b = z_axis.
Proof.
  destruct_vec b. unfold norm_sq, orthogonal, z_axis, identity. cbn. intros Hn Hz.
  assert (1 + bz ≠ 0) as Hk by lra.
  split; tuple_eq; field_simplify_eq; try done; cbn [pow]; nsatz.
Qed.
End RotationLemmas.

(** ** Camera, antipode and the loop over the parks *)

Section CameraLemmas.
Local Open Scope R_scope.
Variable align_vectors : vec → vec → Rotation.t.
Variable cfg : config.
Hypothesis Haim : aims_at_target align_vectors cfg.

Lemma rotation_target :
  Rotation.apply (rotation align_vectors cfg) (target_vec cfg) = z_axis.
Proof.
  unfold rotation. rewrite apply_mul. destruct Haim as [_ ->].
  apply from_euler_z_axis.
Qed.

Lemma rotation_inverse (v : vec) :
  Rotation.apply (Rotation.inv (rotation align_vectors cfg))
    (Rotation.apply (rotation align_vectors cfg) v) = v.
Proof.
  unfold rotation. rewrite inv_mul, !apply_mul.
  rewrite (apply_inv (r_roll cfg)) by apply from_euler_z_orthogonal.
  apply apply_inv. by destruct Haim.
Qed.
End CameraLemmas.

Section Antipode.
Local Open Scope R_scope.

Lemma deg2rad_shift (d : R) : deg2rad (d + 180) = deg2rad d + PI.
Proof. unfold deg2rad. field. Qed.
Lemma deg2rad_shift_back (d : R) : deg2rad (d - 180) + 2 * PI = deg2rad d + PI.
Proof. unfold deg2rad. field. Qed.
Lemma deg2rad_opp (d : R) : deg2rad (- d) = - deg2rad d.
Proof. unfold deg2rad. ring. Qed.

Lemma antipode_east (lat lon : R) :
  latlon_to_vec (- lat) (lon + 180) = neg_vec (latlon_to_vec lat lon).
Proof.
  unfold latlon_to_vec, neg_vec.
  rewrite deg2rad_opp, deg2rad_shift, cos_neg, sin_neg, neg_cos, neg_sin.
  tuple_eq; ring.
Qed.

Lemma antipode_west (lat lon : R) :
  latlon_to_vec (- lat) (lon - 180) = neg_vec (latlon_to_vec lat lon).
Proof.
  unfold latlon_to_vec, neg_vec.
  rewrite <- (cos_period (deg2rad (lon - 180)) 1), <- (sin_period (deg2rad (lon - 180)) 1).
  replace (deg2rad (lon - 180) + 2 * INR 1 * PI) with (deg2rad lon + PI)
    by (unfold deg2rad; cbn; field).
  rewrite deg2rad_opp, cos_neg, sin_neg, neg_cos, neg_sin.
  tuple_eq; ring.
Qed.
End Antipode.

Section OverlayLemmas.
Local Open Scope R_scope.
Variable align_vectors : vec → vec → Rotation.t.
Variable covers : R → R → R → R → nat → nat → bool.
Variable cfg : config.

Lemma draw_parks_from (parks : list marker) (img : image) (n : nat) :
  fold_left (draw_park align_vectors covers cfg) parks (img, n) =
  (fold_left (draw_disk align_vectors covers cfg)
     (filter (fun p => visible align_vectors cfg p = true) parks) img,
   (n + length (filter (fun p => visible align_vectors cfg p = true) parks))%nat).
Proof.
  revert img n. induction parks as [| p parks IH]; intros img n.
  - cbn. f_equal. lia.
  - rewrite filter_cons. cbn [fold_left]. unfold draw_park at 2.
    destruct (visible align_vectors cfg p) eqn:Hv.
    + rewrite decide_True by done. rewrite IH. cbn. f_equal. lia.
    + rewrite decide_False by done. apply IH.
Qed.

Lemma visible_iff (park : marker) :
  visible align_vectors cfg park = true ↔
  0 < snd (rotated_park_vec align_vectors cfg park).
Proof.
  unfold visible, Rltb. destruct (Rlt_dec _ _); split; intros; done.
Qed.

Hypothesis Haim : aims_at_target align_vectors cfg.

Lemma center_visible (park : marker) :
  latlon_to_vec (m_lat park) (m_lon park) = target_vec cfg →
  visible align_vectors cfg park = true.
Proof.
  intros Hc. apply visible_iff. unfold rotated_park_vec.
  rewrite Hc, rotation_target by done. cbn. lra.
Qed.

Lemma antipode_culled (park : marker) :
  latlon_to_vec (m_lat park) (m_lon park) = neg_vec (target_vec cfg) →
  visible align_vectors cfg park = false.
Proof.
  intros Hc. unfold visible, rotated_park_vec.
  rewrite Hc, apply_neg, rotation_target by done. cbn.
  apply Rltb_false. lra.
Qed.
End OverlayLemmas.

(** ** Masked selection and assignment *)

Section ArrayLemmas.
Context {A P T : Type}.

Lemma linspace_length (a b : R) (n : nat) : length (linspace a b n) = n.
Proof.
  unfold linspace. case_decide; rewrite ?length_insert, length_map, length_seq; done.
Qed.

Lemma select_app {B : Type} (a1 a2 : list B) (m1 m2 : list bool) :
  length a1 = length m1 →
  select (a1 ++ a2) (m1 ++ m2) = select a1 m1 ++ select a2 m2.
Proof.
  revert m1. induction a1 as [| x a1 IH]; intros [| b m1] Hl; cbn in *; try done.
  destruct b; cbn; rewrite IH by lia; done.
Qed.

(** One row of the grid: the points under the mask, left to right. *)
Lemma select_row (m : T → bool) (xs : list T) (yi : T) :
  zip (select xs (map m xs)) (select (map (fun _ => yi) xs) (map m xs)) =
  map (fun xj => (xj, yi)) (filter (fun xj => m xj = true) xs).
Proof.
  induction xs as [| x xs IH]; [done |].
  rewrite filter_cons. cbn -[filter]. destruct (m x) eqn:Hm; cbn -[filter].
  - rewrite decide_True by done. cbn -[filter]. by rewrite IH.
  - rewrite decide_False by done. done.
Qed.

Lemma select_length_row (m : T → bool) (xs : list T) (ys : list T) :
  length ys = length xs →
  length (select ys (map m xs)) = length (filter (fun xj => m xj = true) xs).
Proof.
  revert ys. induction xs as [| x xs IH]; intros [| y ys] Hl; try done.
  rewrite filter_cons. cbn -[filter] in *. destruct (m x) eqn:Hm; cbn -[filter].
  - rewrite decide_True by done. cbn -[filter]. rewrite IH by lia. done.
  - rewrite decide_False by done. apply IH. lia.
Qed.

Lemma assign_row_grid (f : T → A) (m : T → bool) (c : A) (xs : list T) (rest : list A) :
  assign_row (map (fun _ => c) xs) (map m xs)
    (map f (filter (fun xj => m xj = true) xs) ++ rest) =
  (map (fun xj => if m xj then f xj else c) xs, rest).
Proof.
  induction xs as [| x xs IH]; [done |].
  rewrite filter_cons. cbn -[filter]. destruct (m x) eqn:Hm; cbn -[filter].
  - rewrite decide_True by done. cbn -[filter]. by rewrite IH.
  - rewrite decide_False by done. by rewrite IH.
Qed.

Lemma assign_rows_grid (f : T → T → A) (m : T → T → bool) (c : A)
    (xs ys : list T) :
  assign_rows (map (fun _ => map (fun _ => c) xs) ys)
    (map (fun yi => map (fun xj => m xj yi) xs) ys)
    (concat (map (fun yi =>
       map (fun xj => f xj yi) (filter (fun xj => m xj yi = true) xs)) ys)) =
  map (fun yi => map (fun xj => if m xj yi then f xj yi else c) xs) ys.
Proof.
  induction ys as [| y ys IH]; cbn; [done |].
  rewrite (assign_row_grid (fun xj => f xj y) (fun xj => m xj y)).
  by rewrite IH.
Qed.
End ArrayLemmas.

(** ** Closed form of the base map *)

Section GridLemmas.
Local Open Scope R_scope.

Lemma map_const_replicate {A B : Type} (c : B) (l : list A) :
  map (fun _ => c) l = replicate (length l) c.
Proof. induction l; cbn; congruence. Qed.

Lemma map2_grid {T C : Type} (f : T → T → C) (xs ys : list T) :
  map2 f (map (fun _ => xs) ys) (map (fun yi => map (fun _ => yi) xs) ys) =
  map (fun yi => map (fun xj => f xj yi) xs) ys.
Proof.
  unfold map2. induction ys as [| y ys IH]; cbn; [done |].
  rewrite IH. f_equal. clear. induction xs as [| x xs IH]; cbn; congruence.
Qed.

Lemma visible_points_grid {T : Type} (m : T → T → bool) (xs ys : list T) :
  let mask := map (fun yi => map (fun xj => m xj yi) xs) ys in
  zip (select (concat (map (fun _ => xs) ys)) (concat mask))
      (select (concat (map (fun yi => map (fun _ => yi) xs) ys)) (concat mask)) =
  concat (map (fun yi =>
    map (fun xj => (xj, yi)) (filter (fun xj => m xj yi = true) xs)) ys).
Proof.
  induction ys as [| y ys IH]; cbn -[filter]; [done |].
  rewrite !select_app by (by rewrite !length_map).
  rewrite zip_with_app.
  - rewrite (select_row (fun xj => m xj y)). f_equal. exact IH.
  - rewrite (select_length_row (fun xj => m xj y) xs xs) by done.
    rewrite (select_length_row (fun xj => m xj y) xs) by (by rewrite length_map).
    done.
Qed.

Lemma count_true_row {T : Type} (g : T → bool) (xs : list T) :
  length (filter (fun b => b = true) (map g xs)) =
  length (filter (fun x => g x = true) xs).
Proof.
  induction xs as [| x xs IH]; [done |].
  cbn -[filter]. rewrite !filter_cons. destruct (g x); cbn -[filter].
  - rewrite !decide_True by done. cbn -[filter]. by rewrite IH.
  - rewrite !decide_False by done. exact IH.
Qed.

Lemma count_true_grid {T : Type} (m : T → T → bool) (xs ys : list T) :
  count_true (map (fun yi => map (fun xj => m xj yi) xs) ys) =
  length (concat (map (fun yi => filter (fun xj => m xj yi = true) xs) ys)).
Proof.
  unfold count_true. induction ys as [| y ys IH]; cbn -[filter]; [done |].
  rewrite filter_app, !length_app, IH.
  by rewrite (count_true_row (fun xj => m xj y)).
Qed.

Variable align_vectors : vec → vec → Rotation.t.
Variable arctan2 : R → R → R.
Variable on_land : R → R → bool.
Variable cfg : config.

Lemma grid_x_length : length (grid_x cfg) = SUPER_SAMPLED_SIZE cfg.
Proof. apply linspace_length. Qed.
Lemma grid_y_length : length (grid_y cfg) = SUPER_SAMPLED_SIZE cfg.
Proof. apply linspace_length. Qed.

Lemma base_map_closed_form :
  base_map align_vectors arctan2 on_land cfg =
  Ok (map (fun y => map (fun x =>
        if Rleb (x * x + y * y) 1
        then point_color align_vectors arctan2 on_land cfg (x, y)
        else SPACE_COLOR cfg) (grid_x cfg)) (grid_y cfg)).
Proof.
  unfold base_map, on_globe_mask, pixel_grid, meshgrid.
  rewrite map2_grid, map_map.
  erewrite (map_ext _ (fun yi =>
      map (fun xj => Rleb (xj * xj + yi * yi) 1) (grid_x cfg)))
    by (intros; by rewrite map_map).
  rewrite (visible_points_grid (fun xj yi => Rleb (xj * xj + yi * yi) 1)).
  unfold assign. rewrite count_true_grid.
  rewrite decide_True.
  - f_equal. unfold full.
    rewrite <- grid_x_length at 2. rewrite <- grid_y_length at 1.
    rewrite <- !map_const_replicate.
    rewrite <- (assign_rows_grid
      (fun x y => point_color align_vectors arctan2 on_land cfg (x, y))
      (fun x y => Rleb (x * x + y * y) 1) (SPACE_COLOR cfg)
      (grid_x cfg) (grid_y cfg)).
    f_equal. generalize (grid_y cfg) as ys.
    induction ys as [| y ys IH]; cbn -[filter]; [done |].
    rewrite map_app, IH, map_map. done.
  - rewrite length_map. generalize (grid_y cfg) as ys.
    induction ys as [| y ys IH]; cbn -[filter]; [done |].
    rewrite !length_app, IH, length_map. done.
Qed.
End GridLemmas.

(** ** A camera above the pole *)

Section Rim.
Local Open Scope R_scope.

Lemma linspace_lookup (a b : R) (n j : nat) :
  (j < n - 1)%nat →
  linspace a b n !! j = Some (INR j * ((b - a) / INR (n - 1)) + a).
Proof.
  intros Hj. unfold linspace.
  rewrite decide_True by lia. rewrite decide_True by lia.
  rewrite list_lookup_insert_ne by lia.
  rewrite list_lookup_fmap, lookup_seq_lt by lia. done.
Qed.

Lemma deg2rad_rad2deg (a : R) : deg2rad (rad2deg a) = a.
Proof. unfold deg2rad, rad2deg. field. apply PI_neq0. Qed.

Lemma polar_target : target_vec polar_config = z_axis.
Proof.
  unfold target_vec, latlon_to_vec, z_axis. cbn.
  replace (deg2rad 90) with (PI / 2) by (unfold deg2rad; field).
  rewrite cos_PI2, sin_PI2. tuple_eq; ring.
Qed.

Lemma polar_aim : r_aim align_shortest polar_config = Rotation.identity.
Proof.
  unfold r_aim, align_shortest. rewrite polar_target.
  unfold Rotation.identity, z_axis. cbn. tuple_eq; field.
Qed.

Lemma polar_roll : r_roll polar_config = Rotation.identity.
Proof.
  unfold r_roll, Rotation.from_euler_z, Rotation.identity. cbn.
  replace (deg2rad (- 0)) with 0 by (unfold deg2rad; ring).
  rewrite cos_0, sin_0. tuple_eq; ring.
Qed.

Lemma polar_aims : aims_at_target align_shortest polar_config.
Proof.
  unfold aims_at_target. rewrite polar_aim, polar_target. split.
  - unfold Rotation.orthogonal, Rotation.identity. cbn. tuple_eq; ring.
  - unfold z_axis. cbn. tuple_eq; ring.
Qed.

Lemma rim_park_vec :
  rotated_park_vec align_shortest polar_config rim_park = (144 / 145, 0, 17 / 145).
Proof.
  unfold rotated_park_vec, rotation. rewrite polar_aim, polar_roll.
  unfold latlon_to_vec, rim_park. cbn [m_lat m_lon].
  rewrite deg2rad_rad2deg.
  replace (deg2rad 0) with 0 by (unfold deg2rad; ring).
  rewrite cos_0, sin_0, sin_asin, cos_asin by lra.
  replace (1 - (17 / 145)²) with ((144 / 145) * (144 / 145)) by (unfold Rsqr; field).
  rewrite sqrt_square by lra.
  cbn. tuple_eq; field.
Qed.

Lemma edge_park_vec :
  rotated_park_vec align_shortest polar_config edge_park
  = (9999 / 10001, 0, 200 / 10001).
Proof.
  unfold rotated_park_vec, rotation. rewrite polar_aim, polar_roll.
  unfold latlon_to_vec, edge_park. cbn [m_lat m_lon].
  rewrite deg2rad_rad2deg.
  replace (deg2rad 0) with 0 by (unfold deg2rad; ring).
  rewrite cos_0, sin_0, sin_asin, cos_asin by lra.
  replace (1 - (200 / 10001)²) with ((9999 / 10001) * (9999 / 10001))
    by (unfold Rsqr; field).
  rewrite sqrt_square by lra.
  cbn. tuple_eq; field.
Qed.
End Rim.

(** ** Pixels of the base map and of a painted ellipse *)

Section Pixels.
Local Open Scope R_scope.

Lemma ellipse_pixel (covers : R → R → R → R → nat → nat → bool) (img : image)
    (x0 y0 x1 y1 : R) (fill : color) (i j : nat) :
  pixel (ellipse covers img x0 y0 x1 y1 fill) i j =
  (fun c => if covers x0 y0 x1 y1 j i then fill else c) <$> pixel img i j.
Proof.
  unfold pixel, ellipse. rewrite list_lookup_imap.
  destruct (img !! i) as [row |]; [apply list_lookup_imap | done].
Qed.

Lemma base_pixel (align_vectors : vec → vec → Rotation.t) (arctan2 : R → R → R)
    (on_land : R → R → bool) (cfg : config) (base : image) (i j : nat) (x y : R) :
  base_map align_vectors arctan2 on_land cfg = Ok base →
  grid_x cfg !! j = Some x → grid_y cfg !! i = Some y →
  pixel base i j =
  Some (if Rleb (x * x + y * y) 1
        then point_color align_vectors arctan2 on_land cfg (x, y)
        else SPACE_COLOR cfg).
Proof.
  rewrite base_map_closed_form. intros [= <-] Hx Hy.
  unfold pixel. rewrite list_lookup_fmap, Hy. cbn.
  by rewrite list_lookup_fmap, Hx.
Qed.

Lemma polar_view_scale : view_scale polar_config = 20 / 19.
Proof. unfold view_scale. cbn. field. Qed.

Lemma polar_size : INR (SUPER_SAMPLED_SIZE polar_config) = 4096.
Proof. rewrite INR_IZR_INZ. reflexivity. Qed.

Lemma rim_pixel_x :
  grid_x polar_config !! 3993%nat = Some (3993 * ((20 / 19 - - (20 / 19)) / 4095) + - (20 / 19)).
Proof.
  unfold grid_x. rewrite linspace_lookup by (cbn; lia).
  rewrite polar_view_scale. do 3 f_equal.
  - rewrite INR_IZR_INZ. reflexivity.
  - f_equal. rewrite INR_IZR_INZ. reflexivity.
Qed.

Lemma rim_pixel_y :
  grid_y polar_config !! 2048%nat = Some (2048 * ((- (20 / 19) - 20 / 19) / 4095) + 20 / 19).
Proof.
  unfold grid_y. rewrite linspace_lookup by (cbn; lia).
  rewrite polar_view_scale. do 3 f_equal.
  - rewrite INR_IZR_INZ. reflexivity.
  - f_equal. rewrite INR_IZR_INZ. reflexivity.
Qed.

Lemma polar_radius : park_pixel_radius polar_config = 50 / 6371 * (4096 / 2 / (20 / 19)).
Proof.
  unfold park_pixel_radius, globe_pixel_radius, EARTH_RADIUS_KM.
  by rewrite polar_size, polar_view_scale.
Qed.

Lemma edge_pixel_painted (covers : R → R → R → R → nat → nat → bool) :
  paints_centre covers →
  ∃ base x y,
    base_map align_shortest (fun _ _ => 0) (fun _ _ => false) polar_config = Ok base ∧
    grid_x polar_config !! 3993%nat = Some x ∧
    grid_y polar_config !! 2048%nat = Some y ∧
    1 < x * x + y * y ∧
    pixel base 2048 3993 = Some (SPACE_COLOR polar_config) ∧
    pixel (fst (draw_parks align_shortest covers polar_config [edge_park] base))
      2048 3993 = Some (255, 255, 0)%Z.
Proof.
  intros Hcentre.
  eexists _, _, _. split; [apply base_map_closed_form |].
  split; [apply rim_pixel_x |]. split; [apply rim_pixel_y |].
  assert (1 < (3993 * ((20 / 19 - - (20 / 19)) / 4095) + - (20 / 19)) *
              (3993 * ((20 / 19 - - (20 / 19)) / 4095) + - (20 / 19)) +
              (2048 * ((- (20 / 19) - 20 / 19) / 4095) + 20 / 19) *
              (2048 * ((- (20 / 19) - 20 / 19) / 4095) + 20 / 19)) as Hout by lra.
  split; [exact Hout |].
  assert (pixel (map (fun y => map (fun x =>
        if Rleb (x * x + y * y) 1
        then point_color align_shortest (fun _ _ => 0) (fun _ _ => false) polar_config (x, y)
        else SPACE_COLOR polar_config) (grid_x polar_config)) (grid_y polar_config))
      2048 3993 = Some (SPACE_COLOR polar_config)) as Hbase.
  { erewrite base_pixel;
      [| apply base_map_closed_form | apply rim_pixel_x | apply rim_pixel_y].
    by rewrite Rleb_false. }
  split; [exact Hbase |].
  unfold draw_parks. cbn [fold_left]. unfold draw_park.
  assert (visible align_shortest polar_config edge_park = true) as ->.
  { unfold visible. rewrite edge_park_vec. cbn. apply Rltb_true. lra. }
  cbn [fst]. unfold draw_disk, park_px. rewrite edge_park_vec.
  rewrite ellipse_pixel, Hbase. cbn [fmap option_fmap option_map m_color edge_park].
  rewrite Hcentre; [done | | | |].
  all: rewrite polar_radius, polar_size, polar_view_scale.
  all: try replace (INR 3993) with 3993 by (rewrite INR_IZR_INZ; reflexivity).
  all: try replace (INR 2048) with 2048 by (rewrite INR_IZR_INZ; reflexivity).
  all: try (unfold Rabs; destruct (Rcase_abs _)); lra.
Qed.

End Pixels.

(** ** What the overlay can change *)

Section OverlayFrame.
Local Open Scope R_scope.
Variable align_vectors : vec → vec → Rotation.t.
Variable covers : R → R → R → R → nat → nat → bool.
Variable cfg : config.

Lemma apply_norm (r : Rotation.t) (v : vec) :
  Rotation.orthogonal r → norm_sq (Rotation.apply r v) = norm_sq v.
Proof.
  unfold Rotation.orthogonal, Rotation.identity, norm_sq.
  destruct_rot r. destruct_vec v. cbn.
  intros [= H11 H12 H13 H21 H22 H23 H31 H32 H33].
  pose proof (f_equal (Rmult (vx * vx)) H11).
  pose proof (f_equal (Rmult (vx * vy)) H12).
  pose proof (f_equal (Rmult (vx * vz)) H13).
  pose proof (f_equal (Rmult (vy * vy)) H22).
  pose proof (f_equal (Rmult (vy * vz)) H23).
  pose proof (f_equal (Rmult (vz * vz)) H33).
  lra.
Qed.

Lemma draw_disk_pixel (img : image) (park : marker) (i j : nat) :
  pixel (draw_disk align_vectors covers cfg img park) i j =
  (fun c => if covers_park align_vectors covers cfg park i j then m_color park else c)
    <$> pixel img i j.
Proof.
  unfold draw_disk, covers_park, park_box.
  destruct (park_px align_vectors cfg park) as [px py].
  apply ellipse_pixel.
Qed.

Lemma fold_draw_disk_frame (parks : list marker) (img : image) (i j : nat) :
  pixel (fold_left (draw_disk align_vectors covers cfg) parks img) i j ≠ pixel img i j →
  ∃ park, park ∈ parks ∧ covers_park align_vectors covers cfg park i j = true.
Proof.
  revert img. induction parks as [| p parks IH]; intros img Hne; [done |].
  cbn [fold_left] in Hne.
  destruct (covers_park align_vectors covers cfg p i j) eqn:Hin.
  - exists p. split; [left | done].
  - destruct (IH (draw_disk align_vectors covers cfg img p)) as (q & Hq & Hqin).
    + intros Heq. apply Hne. rewrite Heq, draw_disk_pixel, Hin.
      by destruct (pixel img i j).
    + exists q. split; [by right | done].
Qed.

Lemma draw_parks_frame (parks : list marker) (img : image) (i j : nat) :
  pixel (fst (draw_parks align_vectors covers cfg parks img)) i j ≠ pixel img i j →
  ∃ park, park ∈ parks ∧ visible align_vectors cfg park = true ∧
          covers_park align_vectors covers cfg park i j = true.
Proof.
  unfold draw_parks. rewrite draw_parks_from. cbn [fst]. intros Hne.
  destruct (fold_draw_disk_frame _ _ _ _ Hne) as (p & Hp & Hin).
  apply list_elem_of_filter in Hp as [Hv Hp]. eauto.
Qed.

Hypothesis Haim : aims_at_target align_vectors cfg.

Lemma rotation_norm (v : vec) :
  norm_sq (Rotation.apply (rotation align_vectors cfg) v) = norm_sq v.
Proof.
  unfold rotation. rewrite apply_mul.
  rewrite apply_norm by apply from_euler_z_orthogonal.
  apply apply_norm. by destruct Haim.
Qed.

Lemma visible_center_on_disk (park : marker) :
  visible align_vectors cfg park = true →
  let '(x, y, _) := rotated_park_vec align_vectors cfg park in x * x + y * y < 1.
Proof.
  intros Hv. apply visible_iff in Hv.
  pose proof (rotation_norm (latlon_to_vec (m_lat park) (m_lon park))) as Hn.
  rewrite latlon_unit in Hn. fold (rotated_park_vec align_vectors cfg park) in Hn.
  destruct (rotated_park_vec align_vectors cfg park) as [[x y] z].
  unfold norm_sq in Hn. cbn in *. nra.
Qed.
End OverlayFrame.

(** ** The ellipse of the drawing board, and pixels at the centre *)

Lemma Rtrunc_le_nat (x : R) (n : nat) : (x <= INR n)%R → (Rtrunc x ≤ Z.of_nat n)%Z.
Proof.
  intros Hx. unfold Rtrunc. destruct (Rle_dec 0 x) as [H0 | H0].
  - destruct (base_Int_part x) as [Hip _].
    apply le_IZR. rewrite <- INR_IZR_INZ. lra.
  - assert (0 <= - x)%R as Hneg by lra.
    destruct (base_Int_part (- x)) as [_ Hip].
    assert (-1 < IZR (Int_part (- x)))%R as Hlt by lra.
    apply lt_IZR in Hlt. lia.
Qed.

Lemma Rtrunc_ge_nat (x : R) (n : nat) : (INR n <= x)%R → (Z.of_nat n ≤ Rtrunc x)%Z.
Proof.
  intros Hx. pose proof (pos_INR n) as Hn. unfold Rtrunc.
  destruct (Rle_dec 0 x) as [H0 | H0]; [| lra].
  destruct (base_Int_part x) as [_ Hip].
  assert (IZR (Z.of_nat n) < IZR (Int_part x + 1))%R as Hlt
    by (rewrite plus_IZR, <- INR_IZR_INZ; lra).
  apply lt_IZR in Hlt. lia.
Qed.

Lemma exact_ellipse_within_box : paints_within_box exact_ellipse.
Proof.
  intros x0 y0 x1 y1 col row Hx Hy. unfold exact_ellipse, Rleb.
  destruct (Rle_dec _ _) as [Hin | Hout]; [intros _ | done].
  set (dx := (INR col - (x0 + x1) / 2)%R) in *.
  set (dy := (INR row - (y0 + y1) / 2)%R) in *.
  set (rx := ((x1 - x0) / 2)%R) in *. set (ry := ((y1 - y0) / 2)%R) in *.
  assert (0 < rx)%R by (subst rx; lra). assert (0 < ry)%R by (subst ry; lra).
  assert (dx * dx <= rx * rx)%R as Hdx.
  { apply (Rmult_le_reg_r (ry * ry)); [nra |]. nra. }
  assert (dy * dy <= ry * ry)%R as Hdy.
  { apply (Rmult_le_reg_r (rx * rx)); [nra |]. nra. }
  assert (- rx <= dx <= rx)%R by (split; nra).
  assert (- ry <= dy <= ry)%R by (split; nra).
  subst dx dy rx ry.
  repeat split; first [apply Rtrunc_le_nat | apply Rtrunc_ge_nat]; lra.
Qed.

Lemma exact_ellipse_centre : paints_centre exact_ellipse.
Proof.
  intros x0 y0 x1 y1 col row Hx Hy Hc Hr. unfold exact_ellipse.
  apply Rleb_true.
  set (dx := (INR col - (x0 + x1) / 2)%R) in *.
  set (dy := (INR row - (y0 + y1) / 2)%R) in *.
  set (rx := ((x1 - x0) / 2)%R) in *. set (ry := ((y1 - y0) / 2)%R) in *.
  assert (4 <= rx)%R by (subst rx; lra). assert (4 <= ry)%R by (subst ry; lra).
  assert (dx * dx <= 1 / 4)%R
    by (revert Hc; unfold Rabs; destruct (Rcase_abs dx); intros; nra).
  assert (dy * dy <= 1 / 4)%R
    by (revert Hr; unfold Rabs; destruct (Rcase_abs dy); intros; nra).
  assert (0 <= dx * dx)%R by nra. assert (0 <= dy * dy)%R by nra.
  assert (16 <= rx * rx)%R by nra. assert (16 <= ry * ry)%R by nra.
  nra.
Qed.

Lemma half_nat_close (n : nat) :
  (Rabs (INR (n / 2) - INR n / 2) <= 1 / 2)%R.
Proof.
  pose proof (Nat.div_mod_eq n 2) as Hdiv.
  pose proof (Nat.mod_upper_bound n 2) as Hmod.
  assert (INR n = 2 * INR (n / 2) + INR (n mod 2))%R as Hn.
  { rewrite Hdiv at 1. rewrite plus_INR, mult_INR. cbn. lra. }
  assert (0 <= INR (n mod 2) <= 1)%R as Hm.
  { split; [apply pos_INR |]. replace 1%R with (INR 1) by done.
    apply le_INR. lia. }
  unfold Rabs. destruct (Rcase_abs _); lra.
Qed.

Lemma full_pixel (n i j : nat) (c : color) :
  i < n → j < n → pixel (full n c) i j = Some c.
Proof.
  intros Hi Hj. unfold pixel, full.
  rewrite lookup_replicate_2 by done. cbn. by apply lookup_replicate_2.
Qed.

Lemma default_radius : (4 <= park_pixel_radius default_config)%R.
Proof.
  unfold park_pixel_radius, globe_pixel_radius, EARTH_RADIUS_KM, view_scale.
  replace (INR (SUPER_SAMPLED_SIZE default_config)) with 4096%R
    by (unfold SUPER_SAMPLED_SIZE; cbn [IMAGE_SIZE_PX SUPER_SAMPLING_FACTOR default_config];
        rewrite INR_IZR_INZ; reflexivity).
  cbn [PARK_CIRCLE_RADIUS_KM MARGIN_FRACTION default_config].
  lra.
Qed.

Lemma fold_left_pointwise {A B : Type} (f g : A → B → A) (l : list B) (a : A) :
  (∀ x y, f x y = g x y) → fold_left f l a = fold_left g l a.
Proof.
  intros Hfg. revert a. induction l as [| b l IH]; intros a; [done |].
  cbn. by rewrite Hfg, IH.
Qed.

(** ** Image objects *)

(** The picture a driver saves for an overlay drawn on [base]. *)

Section HeapLemmas.
Variable align_vectors : vec → vec → Rotation.t.
Variable covers : R → R → R → R → nat → nat → bool.
Variable arctan2 : R → R → R.
Variable on_land : R → R → bool.
Variable resize : image → nat → image.
Variable cfg : config.

Lemma new_image_fresh (im : image) (w : world) :
  let '(l, w') := new_image im w in
  heap w !! l = None ∧ heap w' = <[l := im]> (heap w) ∧ files w' = files w.
Proof.
  unfold new_image. split; [| done].
  apply not_elem_of_dom, is_fresh.
Qed.

Lemma draw_into_fold (img : nat) (parks : list marker) (w : world) (n : nat) :
  let '(w', _) := fold_left (draw_into align_vectors covers cfg img) parks (w, n) in
  files w' = files w ∧
  (∀ l, l ≠ img → heap w' !! l = heap w !! l) ∧
  heap w' !! img =
    (fun im => fold_left (draw_disk align_vectors covers cfg)
       (filter (fun p => visible align_vectors cfg p = true) parks) im)
    <$> heap w !! img.
Proof.
  revert w n. induction parks as [| p parks IH]; intros w n.
  - cbn. repeat split; try done. by destruct (heap w !! img).
  - rewrite filter_cons. cbn [fold_left]. unfold draw_into at 2.
    destruct (visible align_vectors cfg p) eqn:Hv.
    + rewrite decide_True by done.
      match goal with |- context [fold_left _ parks (?w1, ?n1)] =>
        specialize (IH w1 n1); destruct (fold_left _ parks (w1, n1)) as [w' n']
      end.
      destruct IH as (Hf & Hother & Himg). cbn in *.
      split; [done |]. split.
      * intros l Hl. rewrite Hother by done. by rewrite lookup_alter_ne.
      * rewrite Himg, lookup_alter_eq. by destruct (heap w !! img).
    + rewrite decide_False by done. apply IH.
Qed.

Lemma generate_map_spec (parks : list marker) (path : string) (base : nat)
    (w : world) (im : image) :
  heap w !! base = Some im →
  let w' := generate_map align_vectors covers resize cfg parks path base w in
  heap w' !! base = Some im ∧
  (∀ l, is_Some (heap w !! l) → heap w' !! l = heap w !! l) ∧
  files w' = <[path := rendered align_vectors covers resize cfg parks im]> (files w).
Proof.
  intros Hbase. unfold generate_map.
  rewrite (lookup_total_correct _ _ _ Hbase).
  pose proof (new_image_fresh im w) as Hnew.
  destruct (new_image im w) as [img w1]. destruct Hnew as (Hfresh & Hh1 & Hf1).
  pose proof (draw_into_fold img parks w1 0) as Hdraw.
  destruct (fold_left _ parks (w1, 0%nat)) as [w2 n2].
  destruct Hdraw as (Hf2 & Hother & Himg).
  rewrite Hh1, lookup_insert_eq in Himg. cbn in Himg.
  assert (∀ l, is_Some (heap w !! l) → heap w2 !! l = heap w !! l) as Hold.
  { intros l Hl. assert (l ≠ img) by (intros ->; rewrite Hfresh in Hl; by destruct Hl).
    rewrite Hother, Hh1, lookup_insert_ne by done. done. }
  assert (fold_left (draw_disk align_vectors covers cfg)
            (filter (fun p => visible align_vectors cfg p = true) parks) im
          = fst (draw_parks align_vectors covers cfg parks im)) as Hpure
    by (unfold draw_parks; by rewrite draw_parks_from).
  unfold rendered. case_decide.
  - rewrite (lookup_total_correct _ _ _ Himg).
    pose proof (new_image_fresh (resize (fold_left (draw_disk align_vectors covers cfg)
      (filter (fun p => visible align_vectors cfg p = true) parks) im)
      (IMAGE_SIZE_PX cfg)) w2) as Hnew3.
    destruct (new_image _ w2) as [img3 w3]. destruct Hnew3 as (Hfresh3 & Hh3 & Hf3).
    cbn. 
    assert (∀ l, is_Some (heap w !! l) → heap w3 !! l = heap w !! l) as Hold3.
    { intros l Hl. rewrite Hh3. rewrite lookup_insert_ne; [by apply Hold |].
      intros ->. rewrite <- (Hold l Hl) in Hl. rewrite Hfresh3 in Hl. by destruct Hl. }
    split; [rewrite Hold3; eauto |]. split; [done |].
    rewrite Hh3, lookup_total_insert_eq, Hf3, Hf2, Hf1, Hpure. done.
  - cbn. split; [rewrite Hold; eauto |]. split; [done |].
    rewrite (lookup_total_correct _ _ _ Himg), Hf2, Hf1, Hpure. done.
Qed.
End HeapLemmas.

(** ** Colours assigned by the drivers *)

Section ColorsAssigned.
Local Open Scope R_scope.

Lemma Forall2_snd_range {A B : Type} (l : list A) (cs : list (B * color)) :
  Forall2 (fun _ pc => in_rgb_range (snd pc)) l cs →
  Forall (fun pc => in_rgb_range (snd pc)) cs.
Proof. induction 1; constructor; done. Qed.

Lemma popularity_colors_ok (parks : list (Popularity.park R)) :
  parks ≠ [] →
  ∃ cs, Popularity.assign_colors parks = Ok cs ∧
        Forall (fun pc => in_rgb_range (snd pc)) cs.
Proof.
  intros Hne. destruct (popularity_normalized parks Hne) as (mn & rg & Hst & Hall).
  unfold Popularity.assign_colors. rewrite Hst. cbn.
  destruct (for_each_ok (fun _ pc => in_rgb_range (snd pc)) (fun p =>
      t ← Popularity.normalized_visitors mn rg p;
      c ← get_visitor_color t; mret (p, c)) parks) as (cs & Hcs & HF).
  - intros p Hp. destruct (Hall p Hp) as (t & -> & _ & c & Hc & Hr).
    cbn. rewrite Hc. cbn. eauto.
  - exists cs. split; [done | by eapply Forall2_snd_range].
Qed.

Lemma absolute_colors_ok (parks : list (Change.park R)) :
  parks ≠ [] →
  ∃ cs, Change.absolute_colors parks = Ok cs ∧
        Forall (fun pc => in_rgb_range (snd pc)) cs.
Proof.
  intros Hne. destruct (absolute_normalized parks Hne) as (m & Hm & Hall).
  unfold Change.absolute_colors. rewrite Hm. cbn.
  destruct (for_each_ok (fun _ pc => in_rgb_range (snd pc)) (fun p =>
      t ← Change.remap (Change.delta p) m;
      c ← get_change_color t; mret (p, c)) parks) as (cs & Hcs & HF).
  - intros p Hp. destruct (Hall p Hp) as (t & -> & _ & c & Hc & Hr).
    cbn. rewrite Hc. cbn. eauto.
  - exists cs. split; [done | by eapply Forall2_snd_range].
Qed.

Lemma percent_colors_ok (parks : list (Change.park R)) :
  ∃ r, Change.percent_colors parks = Ok r ∧
       ∀ cs, r = Some cs → Forall (fun pc => in_rgb_range (snd pc)) cs.
Proof.
  unfold Change.percent_colors.
  destruct (with_valid_percent_ok parks) as (valid & ->). cbn [mbind result_bind].
  destruct valid as [| v valid]; [exists None; by split |].
  destruct (percent_normalized (v :: valid)) as (m & Hm & Hall); [done |].
  rewrite Hm. cbn [mbind result_bind].
  destruct (for_each_ok (fun _ pc => in_rgb_range (snd pc)) (fun pc =>
      t ← Change.remap (snd pc) m;
      c ← get_change_color t; mret (fst pc, c)) (v :: valid)) as (cs & Hcs & HF).
  - intros p Hp. destruct (Hall p Hp) as (t & -> & _ & c & Hc & Hr).
    cbn. rewrite Hc. cbn. eauto.
  - rewrite Hcs. cbn [mbind result_bind]. exists (Some cs). split; [done |].
    intros ? [= <-]. eapply Forall2_snd_range. exact HF.
Qed.
End ColorsAssigned.

Section ChangeMain.
Variable align_vectors : vec → vec → Rotation.t.
Variable covers : R → R → R → R → nat → nat → bool.
Variable arctan2 : R → R → R.
Variable on_land : R → R → bool.
Variable resize : image → nat → image.
Variable cfg : config.

Lemma change_main_spec (parks : list (Change.park R))
    (absolute_path percent_path : string) (w : world) :
  parks ≠ [] →
  ∃ base abs_cs pct w' b,
    base_map align_vectors arctan2 on_land cfg = Ok base ∧
    Change.absolute_colors parks = Ok abs_cs ∧
    Change.percent_colors parks = Ok pct ∧
    change_main align_vectors covers arctan2 on_land resize cfg parks
      absolute_path percent_path w = Ok w' ∧
    heap w' !! b = Some base ∧
    (∀ pct_cs, pct = Some pct_cs →
       files w' !! percent_path =
       Some (rendered align_vectors covers resize cfg (map change_marker pct_cs) base)) ∧
    (absolute_path ≠ percent_path →
       files w' !! absolute_path =
       Some (rendered align_vectors covers resize cfg (map change_marker abs_cs) base)).
Proof.
  intros Hne.
  destruct (absolute_colors_ok parks Hne) as (abs_cs & Habs & _).
  destruct (percent_colors_ok parks) as (pct & Hpct & _).
  unfold change_main. destruct parks as [| p0 parks0]; [done |].
  set (parks := p0 :: parks0) in *.
  rewrite base_map_closed_form. cbn [mbind result_bind].
  match goal with |- context [new_image ?im w] =>
    set (base := im); pose proof (new_image_fresh base w) as Hnew;
    destruct (new_image base w) as [b w1] end.
  destruct Hnew as (Hfresh & Hh1 & Hf1).
  rewrite Habs. cbn [mbind result_bind]. rewrite Hpct. cbn [mbind result_bind].
  assert (heap w1 !! b = Some base) as Hb1 by (by rewrite Hh1, lookup_insert_eq).
  pose proof (generate_map_spec align_vectors covers resize cfg
    (map change_marker abs_cs) absolute_path b w1 base Hb1) as (Hb2 & _ & Hf2).
  set (w2 := generate_map align_vectors covers resize cfg (map change_marker abs_cs)
               absolute_path b w1) in *.
  exists base, abs_cs, pct.
  destruct pct as [pct_cs |].
  - pose proof (generate_map_spec align_vectors covers resize cfg
      (map change_marker pct_cs) percent_path b w2 base Hb2) as (Hb3 & _ & Hf3).
    eexists _, b. repeat split; try done.
    + intros ? [= <-]. by rewrite Hf3, lookup_insert_eq.
    + intros Hpaths. by rewrite Hf3, lookup_insert_ne, Hf2, lookup_insert_eq.
  - eexists _, b. repeat split; try done.
    intros _. by rewrite Hf2, lookup_insert_eq.
Qed.
End ChangeMain.

(** ** Degenerate normalisation *)

Section Uniform.
Local Open Scope R_scope.

Lemma for_each_map {A B : Type} (body : A → result B) (g : A → B) (l : list A) :
  (∀ a, a ∈ l → body a = Ok (g a)) → for_each body l = Ok (map g l).
Proof.
  induction l as [| a l IH]; intros Hall; [done |].
  cbn. rewrite (Hall a) by left. cbn. rewrite IH; [done |].
  intros a' Ha'. apply Hall. by right.
Qed.

Lemma ideal_visitor_zero : get_visitor_color 0 = Ok (255, 255, 0)%Z.
Proof.
  unfold get_visitor_color, pydiv, dec. ideal_simpl.
  rewrite Rleb_true, Reqb_false by lra. ideal_simpl.
  rewrite (Rtrunc_eq 255) by (try lia; lra). done.
Qed.

Lemma popularity_uniform (parks : list (Popularity.park R)) (v : R) :
  parks ≠ [] → (∀ p, p ∈ parks → Popularity.visitors p = v) →
  Popularity.assign_colors parks
  = Ok (map (fun p => (p, (255, 255, 0)%Z)) parks).
Proof.
  intros Hne Hv.
  assert (∀ y, y ∈ map Popularity.visitors parks → y = v) as Hall.
  { intros y Hy. apply list_elem_of_fmap in Hy as (p & -> & Hp). by apply Hv. }
  assert (map Popularity.visitors parks ≠ []) as Hne' by (by destruct parks).
  destruct (py_min_spec _ Hne') as (mn & Hmn & Hmn_in & _).
  destruct (py_max_spec _ Hne') as (mx & Hmx & Hmx_in & _).
  apply Hall in Hmn_in as ->. apply Hall in Hmx_in as ->.
  unfold Popularity.assign_colors, Popularity.visitor_stats.
  rewrite Hmn, Hmx. ideal_simpl.
  apply for_each_map. intros p Hp.
  unfold Popularity.normalized_visitors, guard_zero. ideal_simpl.
  rewrite (Hv p Hp), (Reqb_true (v - v) 0) by lra.
  rewrite pydiv_ok by lra. ideal_simpl.
  replace ((v - v) / 1) with 0 by lra. by rewrite ideal_visitor_zero.
Qed.

Lemma density_uniform (parks : list (Density.park R)) (v : R) :
  (2 ≤ length parks)%nat → (∀ p, p ∈ parks → Density.density p = v) →
  Density.assign_colors parks = Ok (map (fun p => (p, Density.black)) parks).
Proof.
  intros Hlen Hv.
  set (ds := map Density.density parks).
  assert (∀ y, y ∈ ds → y = v) as Hall.
  { intros y Hy. apply list_elem_of_fmap in Hy as (p & -> & Hp). by apply Hv. }
  assert (ds ≠ []) as Hne by (subst ds; destruct parks; [cbn in Hlen; lia | done]).
  destruct (py_min_spec _ Hne) as (mn & Hmn & Hmn_in & _).
  destruct (py_max_spec _ Hne) as (mx & Hmx & Hmx_in & _).
  apply Hall in Hmn_in as ->. apply Hall in Hmx_in as ->.
  destruct (sorted_reverse_spec ds) as [Hperm _].
  assert (∃ s, index (sorted_reverse ds) 1 = Ok s) as [s Hs].
  { pose proof (Permutation_length Hperm) as Hl. subst ds.
    rewrite length_map in Hl.
    destruct (sorted_reverse _) as [| a [| b l]]; cbn in Hl; try lia.
    by exists b. }
  unfold Density.assign_colors, Density.density_stats. fold ds.
  rewrite Hmn, Hs, Hmx. ideal_simpl.
  apply for_each_map. intros p Hp. unfold Density.park_color. ideal_simpl.
  by rewrite (Hv p Hp), Reqb_true.
Qed.

Lemma absolute_uniform (parks : list (Change.park R)) (d : R) :
  parks ≠ [] → (∀ p, p ∈ parks → Change.delta p = d) →
  ∃ c, Change.absolute_colors parks = Ok (map (fun p => (p, c)) parks).
Proof.
  intros Hne Hd. destruct (absolute_normalized parks Hne) as (m & Hm & Hall).
  destruct parks as [| p0 parks0]; [done |].
  destruct (Hall p0) as (t & Ht & _ & c & Hc & _); [left |].
  rewrite (Hd p0) in Ht by left.
  exists c. unfold Change.absolute_colors. rewrite Hm. ideal_simpl.
  apply for_each_map. intros p Hp. rewrite (Hd p Hp), Ht. cbn. by rewrite Hc.
Qed.
End Uniform.

(** ** The default camera *)

Section Default.
Local Open Scope R_scope.

Lemma default_aims : aims_at_target align_shortest default_config.
Proof.
  unfold aims_at_target, r_aim, align_shortest.
  apply shortest_arc_spec; [apply latlon_unit |].
  unfold target_vec, latlon_to_vec. cbn.
  assert (0 < sin (deg2rad 45)) as Hs; [| lra].
  apply sin_gt_0; unfold deg2rad; pose proof PI_RGT_0; lra.
Qed.
End Default.

(** ** The base map on the numbers of the program *)

Section Positions.

Lemma true_columns_elem (row : list bool) (j j' : nat) :
  j' ∈ true_columns j row ↔ ∃ k, j' = (j + k)%nat ∧ row !! k = Some true.
Proof.
  revert j. induction row as [| b row IH]; intros j; cbn.
  - split; [by intros ?%elem_of_nil | by intros (k & _ & ?)].
  - assert (j' ∈ true_columns (S j) row ↔
            ∃ k, j' = (j + S k)%nat ∧ row !! k = Some true) as IH'.
    { rewrite IH. split; intros (k & -> & Hk); exists k; split; [lia | done | lia | done]. }
    destruct b.
    + rewrite elem_of_cons, IH'. split.
      * intros [-> | (k & -> & Hk)]; [exists 0%nat | exists (S k)]; split; [lia | done | done | done].
      * intros ([| k] & -> & Hk); [left; lia | right; by exists k].
    + rewrite IH'. split.
      * intros (k & -> & Hk). by exists (S k).
      * intros ([| k] & -> & Hk); [done | by exists k].
Qed.

Lemma true_columns_NoDup (row : list bool) (j : nat) : NoDup (true_columns j row).
Proof.
  revert j. induction row as [| b row IH]; intros j; cbn; [constructor |].
  destruct b; [| apply IH]. constructor; [| apply IH].
  rewrite true_columns_elem. intros (k & Hk & _). lia.
Qed.

Lemma true_columns_length (row : list bool) (j : nat) :
  length (true_columns j row) = length (filter (fun b => b = true) row).
Proof.
  revert j. induction row as [| b row IH]; intros j; [done |].
  rewrite filter_cons. destruct b; cbn [true_columns].
  - rewrite decide_True by done. cbn. by rewrite IH.
  - rewrite decide_False by done. apply IH.
Qed.

Lemma true_positions_elem (mask : list (list bool)) (i i' j' : nat) :
  (i', j') ∈ true_positions i mask ↔
  ∃ k row, i' = (i + k)%nat ∧ mask !! k = Some row ∧ row !! j' = Some true.
Proof.
  revert i. induction mask as [| r mask IH]; intros i; cbn.
  - split; [by intros ?%elem_of_nil | by intros (k & row & _ & ? & _)].
  - rewrite elem_of_app, list_elem_of_fmap, IH. split.
    + intros [(j & [= -> ->] & Hj) | (k & row & -> & Hk & Hj)].
      * apply true_columns_elem in Hj as (k & -> & Hk).
        exists 0%nat, r. split; [lia | done].
      * exists (S k), row. split; [lia | done].
    + intros ([| k] & row & -> & Hk & Hj).
      * injection Hk as ->. left. exists j'. split; [f_equal; lia |].
        apply true_columns_elem. by exists j'.
      * right. exists k, row. split; [lia | done].
Qed.

Lemma true_positions_NoDup (mask : list (list bool)) (i : nat) :
  NoDup (true_positions i mask).
Proof.
  revert i. induction mask as [| r mask IH]; intros i; cbn; [constructor |].
  apply NoDup_app. split; [| split; [| apply IH]].
  - apply NoDup_fmap_2; [| apply true_columns_NoDup]. by intros ?? [= ->].
  - intros [i' j'] (j & [= -> ->] & _)%list_elem_of_fmap.
    rewrite true_positions_elem. intros (k & _ & Hk & _). lia.
Qed.

Lemma true_positions_length (mask : list (list bool)) (i : nat) :
  length (true_positions i mask) = count_true mask.
Proof.
  unfold count_true. revert i. induction mask as [| r mask IH]; intros i; [done |].
  cbn [true_positions concat]. rewrite filter_app, !length_app, length_map.
  by rewrite true_columns_length, IH.
Qed.

Context {T : Type}.

(** The k-th point of a row under the mask lands on the k-th column
    under the mask. *)
Lemma assigned_row (f : T → color) (m : T → bool) (c : color) (xs : list T) (j0 : nat) :
  Forall2 (fun j v =>
      (j0 ≤ j)%nat ∧
      map (fun xj => if m xj then f xj else c) xs !! (j - j0)%nat = Some v)
    (true_columns j0 (map m xs))
    (map f (filter (fun xj => m xj = true) xs)).
Proof.
  set (g := fun xj => if m xj then f xj else c).
  revert j0. induction xs as [| x xs IH]; intros j0; [constructor |].
  assert (Forall2 (fun j v =>
      (j0 ≤ j)%nat ∧ map g (x :: xs) !! (j - j0)%nat = Some v)
    (true_columns (S j0) (map m xs))
    (map f (filter (fun xj => m xj = true) xs))) as Htail.
  { eapply Forall2_impl; [apply (IH (S j0)) |].
    intros j v [Hj Hv]. split; [lia |].
    replace (j - j0)%nat with (S (j - S j0)) by lia. exact Hv. }
  assert (m x = true → g x = f x) as Hg by (intros Hm; unfold g; by rewrite Hm).
  rewrite filter_cons. cbn [map true_columns] in *. destruct (m x) eqn:Hm.
  - rewrite decide_True by done. constructor; [| exact Htail].
    split; [lia |]. rewrite Nat.sub_diag. cbn. by rewrite Hg.
  - rewrite decide_False by done. exact Htail.
Qed.

(** The same for the whole grid, in row-major order. *)
Lemma assigned_grid (f : T → T → color) (m : T → T → bool) (c : color)
    (xs ys : list T) (i0 : nat) :
  Forall2 (fun p v =>
      (i0 ≤ fst p)%nat ∧
      pixel (map (fun yi => map (fun xj => if m xj yi then f xj yi else c) xs) ys)
        (fst p - i0)%nat (snd p) = Some v)
    (true_positions i0 (map (fun yi => map (fun xj => m xj yi) xs) ys))
    (concat (map (fun yi =>
       map (fun xj => f xj yi) (filter (fun xj => m xj yi = true) xs)) ys)).
Proof.
  revert i0. induction ys as [| y ys IH]; intros i0; [constructor |].
  cbn [map true_positions concat]. apply Forall2_app.
  - apply Forall2_fmap_l.
    eapply Forall2_impl;
      [apply (assigned_row (fun xj => f xj y) (fun xj => m xj y) c xs 0) |].
    intros j v [_ Hv]. unfold compose. cbn [fst snd]. split; [lia |].
    unfold pixel. rewrite Nat.sub_diag. cbn.
    by rewrite Nat.sub_0_r in Hv.
  - eapply Forall2_impl; [apply (IH (S i0)) |].
    intros [i j] v [Hi Hv]. cbn [fst snd] in *. split; [lia |].
    replace (i - i0)%nat with (S (i - S i0)) by lia. exact Hv.
Qed.
End Positions.

Section RasterLemmas.
Context {F : Type} `{PyFloat F}.
Variable lib : Raster.library F.
Variable cfg : Raster.config F.

Lemma raster_linspace_length (a b : F) (n : nat) :
  length (Raster.linspace a b n) = n.
Proof.
  unfold Raster.linspace, Raster.arange.
  repeat case_decide; repeat case_match;
    rewrite ?length_insert, !length_map, length_seq; done.
Qed.

Lemma raster_mask_grid (x y : list F) :
  Raster.on_globe_mask x y =
  map (fun yi => map (fun xj => fleb (fadd (fmul xj xj) (fmul yi yi)) (of_int 1)) x) y.
Proof.
  unfold Raster.on_globe_mask, meshgrid. rewrite map2_grid, map_map.
  apply map_ext. intros yi. by rewrite map_map.
Qed.

Lemma raster_point_colors_grid (x y : list F) :
  Raster.point_colors lib cfg x y =
  concat (map (fun yi =>
    map (fun xj => Raster.point_color lib cfg (xj, yi))
      (filter (fun xj => fleb (fadd (fmul xj xj) (fmul yi yi)) (of_int 1) = true) x)) y).
Proof.
  unfold Raster.point_colors, meshgrid. rewrite raster_mask_grid.
  rewrite (visible_points_grid
    (fun xj yi => fleb (fadd (fmul xj xj) (fmul yi yi)) (of_int 1))).
  induction y as [| yi y IH]; cbn -[filter]; [done |].
  by rewrite map_app, IH, map_map.
Qed.

Lemma raster_point_colors_length (x y : list F) :
  length (Raster.point_colors lib cfg x y)
  = count_true (Raster.on_globe_mask x y).
Proof.
  rewrite raster_point_colors_grid, raster_mask_grid, count_true_grid.
  induction y as [| yi y IH]; cbn -[filter]; [done |].
  by rewrite !length_app, IH, length_map.
Qed.

Lemma raster_assign (x y : list F) (size : nat) :
  length x = size → length y = size →
  assign (full size (Raster.SPACE_COLOR cfg)) (Raster.on_globe_mask x y)
    (Raster.point_colors lib cfg x y) =
  Ok (map (fun yi => map (fun xj =>
        if fleb (fadd (fmul xj xj) (fmul yi yi)) (of_int 1)
        then Raster.point_color lib cfg (xj, yi)
        else Raster.SPACE_COLOR cfg) x) y).
Proof.
  intros Hx Hy. unfold assign.
  rewrite decide_True by apply raster_point_colors_length.
  f_equal. rewrite raster_point_colors_grid, raster_mask_grid.
  unfold full. rewrite <- Hx at 2. rewrite <- Hy.
  rewrite <- !map_const_replicate.
  apply (assign_rows_grid
    (fun xj yi => Raster.point_color lib cfg (xj, yi))
    (fun xj yi => fleb (fadd (fmul xj xj) (fmul yi yi)) (of_int 1))).
Qed.
End RasterLemmas.

(** * The claims *)

(** The literals of the scripts, read as binary64 numbers. *)
Lemma binary64_literals :
  (dec 7 10 = 0.7 ∧ dec 3 10 = 0.3 ∧ dec 1 2 = 0.5 ∧
   of_int 0 = 0 ∧ of_int 1 = 1 ∧ of_int 255 = 255)%float.
Proof. repeat split; vm_compute; reflexivity. Qed.

(** C1.  Run on binary64 numbers, the three colour scales return the
    listed triples at the listed inputs: the visitor scale gives
    (255,255,0) at 0, (255,0,0) at 0.7 and (139,0,0) at 1.0; the density
    scale gives (0,102,255) at 0 and (46,8,84) at 1; the change scale
    gives (232,232,232) at 0.5, (204,0,0) at 0 and (107,44,145) at 1. *)
Theorem color_scale_boundary_values :
  get_visitor_color (F:=float) (of_int 0) = Ok (255, 255, 0)%Z ∧
  get_visitor_color (F:=float) (dec 7 10) = Ok (255, 0, 0)%Z ∧
  get_visitor_color (F:=float) (of_int 1) = Ok (139, 0, 0)%Z ∧
  get_density_color (F:=float) (of_int 0) = Ok (0, 102, 255)%Z ∧
  get_density_color (F:=float) (of_int 1) = Ok (46, 8, 84)%Z ∧
  get_change_color (F:=float) (dec 1 2) = Ok (232, 232, 232)%Z ∧
  get_change_color (F:=float) (of_int 0) = Ok (204, 0, 0)%Z ∧
  get_change_color (F:=float) (of_int 1) = Ok (107, 44, 145)%Z.
Proof. repeat split; vm_compute; reflexivity. Qed.

(** C2, as stated, fails: neither [get_visitor_color] nor
    [get_change_color] clamps.  On binary64 numbers the visitor scale
    returns (255, 619, 0) at -1.0 and (-247, 0, 0) at 2.0, the change
    scale (148, -464, -464) at -1.0 and (-143, -332, -29) at 2.0: none
    of them is the triple of the nearest end of the domain, and none is
    a byte triple. *)
Lemma not_all_clamp_binary64 :
  ¬ clamps_gracefully (get_visitor_color (F:=float)) ∧
  ¬ clamps_gracefully (get_change_color (F:=float)) ∧
  ¬ (clamps_gracefully (get_visitor_color (F:=float)) ∧
     clamps_gracefully (get_density_color (F:=float)) ∧
     clamps_gracefully (get_change_color (F:=float))).
Proof.
  assert (¬ clamps_gracefully (get_visitor_color (F:=float))) as Hv.
  { intros Hv. destruct (Hv (-1)%float) as [Hlow _].
    specialize (Hlow eq_refl). vm_compute in Hlow. discriminate Hlow. }
  assert (¬ clamps_gracefully (get_change_color (F:=float))) as Hc.
  { intros Hc. destruct (Hc (-1)%float) as [Hlow _].
    specialize (Hlow eq_refl). vm_compute in Hlow. discriminate Hlow. }
  split; [exact Hv |]. split; [exact Hc |]. intros [Hv' _]. by apply Hv.
Qed.

(** C2, amended.  Only [get_density_color] clamps its input: on
    binary64 numbers and on the reals an input below 0 gives the triple
    of 0 and an input above 1 gives the triple of 1, and on the reals
    its components always lie in [0, 255].  [get_visitor_color] and
    [get_change_color] do not clamp: on binary64 numbers, below 0 and
    above 1 each of them returns a triple that is not the one of the
    nearest end of the domain and has a component outside [0, 255].
    For an input in [0, 1] their components lie in [0, 255] (on the
    reals). *)
Theorem density_clamps_and_scales_bounded_on_domain :
  (∀ t : float,
     (fltb t (of_int 0) = true → get_density_color t = Ok (0, 102, 255)%Z) ∧
     (fltb (of_int 1) t = true → get_density_color t = Ok (46, 8, 84)%Z)) ∧
  (∀ t : R,
     ((t < 0)%R → get_density_color t = get_density_color 0%R) ∧
     ((1 < t)%R → get_density_color t = get_density_color 1%R) ∧
     (∃ c, get_density_color t = Ok c ∧ in_rgb_range c)) ∧
  (get_visitor_color (F:=float) (-1)%float = Ok (255, 619, 0)%Z ∧
   get_visitor_color (F:=float) (of_int 0) = Ok (255, 255, 0)%Z ∧
   get_visitor_color (F:=float) 2%float = Ok (-247, 0, 0)%Z ∧
   get_visitor_color (F:=float) (of_int 1) = Ok (139, 0, 0)%Z ∧
   get_change_color (F:=float) (-1)%float = Ok (148, -464, -464)%Z ∧
   get_change_color (F:=float) (of_int 0) = Ok (204, 0, 0)%Z ∧
   get_change_color (F:=float) 2%float = Ok (-143, -332, -29)%Z ∧
   get_change_color (F:=float) (of_int 1) = Ok (107, 44, 145)%Z) ∧
  (¬ clamps_gracefully (get_visitor_color (F:=float)) ∧
   ¬ clamps_gracefully (get_change_color (F:=float))) ∧
  (∀ t : R, (0 <= t <= 1)%R →
     (∃ c, get_visitor_color t = Ok c ∧ in_rgb_range c) ∧
     (∃ c, get_change_color t = Ok c ∧ in_rgb_range c)).
Proof.
  split; [| split; [| split; [| split]]].
  - intros t. split; intros Ht.
    + by rewrite (binary64_density_clamp_low t Ht).
    + by rewrite (binary64_density_clamp_high t Ht).
  - intros t. split; [apply ideal_density_clamp_low |].
    split; [apply ideal_density_clamp_high | apply ideal_density_range].
  - repeat split; vm_compute; reflexivity.
  - split.
    + intros Hv. destruct (Hv 2%float) as (_ & Hhigh & _).
      specialize (Hhigh eq_refl). vm_compute in Hhigh. discriminate Hhigh.
    + intros Hc. destruct (Hc 2%float) as (_ & Hhigh & _).
      specialize (Hhigh eq_refl). vm_compute in Hhigh. discriminate Hhigh.
  - intros t Ht. split; [by apply ideal_visitor_range | by apply ideal_change_range].
Qed.

(** The amended C2 at the inputs -1.0 and 0.5. *)
Lemma density_clamps_and_scales_bounded_witness :
  get_density_color (F:=float) (-1)%float = Ok (0, 102, 255)%Z ∧
  get_density_color (-1)%R = get_density_color 0%R ∧
  (∃ c, get_visitor_color (1 / 2)%R = Ok c ∧ in_rgb_range c) ∧
  (∃ c, get_change_color (1 / 2)%R = Ok c ∧ in_rgb_range c).
Proof.
  destruct density_clamps_and_scales_bounded_on_domain as (Hf & Hi & _ & _ & Hd).
  split; [| split; [| split]].
  - apply (Hf (-1)%float). reflexivity.
  - apply (Hi (-1)%R). lra.
  - apply (Hd (1 / 2)%R). lra.
  - apply (Hd (1 / 2)%R). lra.
Defined.

(** C3 at a feature set of one park, whose density is trivially the
    unique maximum: [sorted(densities, reverse=True)[1]] does not exist,
    the driver raises [IndexError] and the park gets no colour at all,
    instead of pure black.  (For two parks or more the rule of C3 holds:
    [density_rule].) *)
Theorem density_single_feature_gets_no_color {F : Type} `{PyFloat F}
    (p : Density.park F) :
  index (sorted_reverse (map Density.density [p])) 1 = Raise IndexError ∧
  Density.assign_colors [p] = Raise IndexError.
Proof. split; reflexivity. Qed.

(** C4 at a single park: in the density variant the degenerate
    normalisation is fatal ([IndexError]), whereas the popularity
    variant colours the same single park (255,255,0) through its
    divisor guard.  (With two parks or more sharing one value every
    variant gives one colour: [popularity_uniform], [density_uniform],
    [absolute_uniform].) *)
Theorem single_feature_is_fatal_in_density_variant :
  Density.assign_colors (F:=float)
    [{| Density.name := "Solo"; Density.lat := 44.6%float; Density.lon := (-110.5)%float;
        Density.density := 1.5%float |}] = Raise IndexError ∧
  Popularity.assign_colors (F:=float)
    [{| Popularity.name := "Solo"; Popularity.lat := 44.6%float;
        Popularity.lon := (-110.5)%float; Popularity.visitors := 3640185%float |}]
  = Ok [({| Popularity.name := "Solo"; Popularity.lat := 44.6%float;
            Popularity.lon := (-110.5)%float; Popularity.visitors := 3640185%float |},
         (255, 255, 0)%Z)].
Proof. split; vm_compute; reflexivity. Qed.

(** C5.  On the numbers of the program, binary64 included.  When
    [1.0 - MARGIN_FRACTION] is zero the division raises and no base map
    is made.  Otherwise the array of the base map is produced and has
    one colour for each of the size times size pixels: with [x] and [y]
    the samples of the pixel's column and row, the pixel has the colour
    of its own point, which is LAND or OCEAN, when the rounded sum of
    the rounded squares [x*x + y*y] compares [<= 1.0], and SPACE when
    it does not.
    The array is filled with SPACE first; the masked assignment then
    assigns the pixels under the mask, each of them once and no other
    pixel: the places it assigns are pairwise distinct, they are the
    pixels whose sum compares [<= 1.0], there are as many of them as
    colours computed, and the k-th place takes the k-th colour. *)
Theorem base_map_disk_membership {F : Type} `{PyFloat F}
    (lib : Raster.library F) (cfg : Raster.config F) :
  let size := Raster.SUPER_SAMPLED_SIZE cfg in
  if feqb (fsub (of_int 1) (Raster.MARGIN_FRACTION cfg)) (of_int 0)
  then Raster.base_map lib cfg = Raise ZeroDivisionError
  else
    let view_scale :=
      fdiv (of_int 1) (fsub (of_int 1) (Raster.MARGIN_FRACTION cfg)) in
    let x := Raster.grid_x view_scale size in
    let y := Raster.grid_y view_scale size in
    let mask := Raster.on_globe_mask x y in
    let point_colors := Raster.point_colors lib cfg x y in
    let on_globe := fun xj yi => fleb (fadd (fmul xj xj) (fmul yi yi)) (of_int 1) in
    length x = size ∧ length y = size ∧
    ∃ img,
      Raster.base_map lib cfg = Ok img ∧
      length img = size ∧
      (∀ i, (i < size)%nat → ∃ row, img !! i = Some row ∧ length row = size) ∧
      (∀ i j, (i < size)%nat → (j < size)%nat →
         ∃ xj yi c, x !! j = Some xj ∧ y !! i = Some yi ∧
           pixel img i j = Some c ∧
           c = (if on_globe xj yi then Raster.point_color lib cfg (xj, yi)
                else Raster.SPACE_COLOR cfg) ∧
           (on_globe xj yi = true →
              c = Raster.LAND_COLOR cfg ∨ c = Raster.OCEAN_COLOR cfg) ∧
           (on_globe xj yi = false → c = Raster.SPACE_COLOR cfg) ∧
           (Raster.SPACE_COLOR cfg ≠ Raster.LAND_COLOR cfg →
            Raster.SPACE_COLOR cfg ≠ Raster.OCEAN_COLOR cfg →
            (on_globe xj yi = true ↔ c ≠ Raster.SPACE_COLOR cfg))) ∧
      NoDup (true_positions 0 mask) ∧
      (∀ i j, (i, j) ∈ true_positions 0 mask ↔
         ∃ xj yi, x !! j = Some xj ∧ y !! i = Some yi ∧ on_globe xj yi = true) ∧
      length point_colors = length (true_positions 0 mask) ∧
      Forall2 (fun p c => pixel img (fst p) (snd p) = Some c)
        (true_positions 0 mask) point_colors.
Proof.
  intros size. unfold Raster.base_map, Raster.view_scale, pydiv.
  destruct (feqb _ _) eqn:Hz; [reflexivity |].
  cbn [mbind result_bind mret result_ret]. fold size.
  set (vs := fdiv (of_int 1) (fsub (of_int 1) (Raster.MARGIN_FRACTION cfg))).
  set (x := Raster.grid_x vs size). set (y := Raster.grid_y vs size).
  assert (length x = size) as Hx by apply raster_linspace_length.
  assert (length y = size) as Hy by apply raster_linspace_length.
  cbv zeta. split; [exact Hx |]. split; [exact Hy |].
  rewrite (raster_assign lib cfg x y size Hx Hy).
  eexists. split; [reflexivity |].
  split; [by rewrite length_map |].
  split.
  { intros i Hi. destruct (lookup_lt_is_Some_2 y i) as [yi Hyi]; [lia |].
    eexists. rewrite list_lookup_fmap, Hyi. split; [reflexivity |].
    by rewrite length_map. }
  assert (∀ xy, Raster.point_color lib cfg xy = Raster.LAND_COLOR cfg ∨
                Raster.point_color lib cfg xy = Raster.OCEAN_COLOR cfg) as Hpoint.
  { intros xy. unfold Raster.point_color.
    destruct (Raster.lon_lat_of lib (fst xy) (snd xy)) as [lon_deg lat_deg].
    destruct (Raster.on_land lib lon_deg lat_deg); [by left | by right]. }
  split.
  { intros i j Hi Hj.
    destruct (lookup_lt_is_Some_2 y i) as [yi Hyi]; [lia |].
    destruct (lookup_lt_is_Some_2 x j) as [xj Hxj]; [lia |].
    exists xj, yi. eexists. split; [exact Hxj |]. split; [exact Hyi |].
    split.
    { unfold pixel. rewrite list_lookup_fmap, Hyi. cbn.
      by rewrite list_lookup_fmap, Hxj. }
    split; [reflexivity |].
    destruct (fleb (fadd (fmul xj xj) (fmul yi yi)) (of_int 1)).
    - split; [intros _; apply Hpoint |]. split; [done |].
      intros Hl Ho. split; [| done]. intros _.
      destruct (Hpoint (xj, yi)) as [-> | ->]; congruence.
    - split; [done |]. split; [done |]. intros _ _. split; [done | done]. }
  split; [apply true_positions_NoDup |].
  split.
  { intros i j. rewrite true_positions_elem, raster_mask_grid. split.
    - intros (k & row & -> & Hk & Hj). cbn in *.
      rewrite list_lookup_fmap in Hk.
      destruct (y !! k) as [yi |] eqn:Hyi; [| done]. injection Hk as <-.
      rewrite list_lookup_fmap in Hj.
      destruct (x !! j) as [xj |] eqn:Hxj; [| done]. injection Hj as Hj.
      by exists xj, yi.
    - intros (xj & yi & Hxj & Hyi & Hon). eexists i, _.
      split; [done |]. rewrite list_lookup_fmap, Hyi. split; [reflexivity |].
      rewrite list_lookup_fmap, Hxj. cbn. by rewrite Hon. }
  split; [by rewrite raster_point_colors_length, true_positions_length |].
  rewrite raster_mask_grid, raster_point_colors_grid.
  eapply Forall2_impl;
    [apply (assigned_grid
       (fun xj yi => Raster.point_color lib cfg (xj, yi))
       (fun xj yi => fleb (fadd (fmul xj xj) (fmul yi yi)) (of_int 1))
       (Raster.SPACE_COLOR cfg) x y 0) |].
  intros p c [_ Hv]. by rewrite Nat.sub_0_r in Hv.
Qed.

(** C5 on binary64 for an 11 by 11 canvas with no margin and a world
    whose land lies at negative longitudes.  Row 1 has [y = 0.8] and column 8 has
    [x = 0.6000000000000001]: the sum of the squares rounds to
    1.0000000000000002 and the pixel is SPACE.  Column 2 of that row has
    [x = -0.6] and is LAND, the pixel in row 5 and column 7 is OCEAN,
    the corner is SPACE. *)
Lemma base_map_disk_membership_witness :
  ∃ img,
    Raster.base_map sample_library sample_raster = Ok img ∧
    Raster.grid_x 1%float 11 !! 8%nat = Some 0.60000000000000009%float ∧
    Raster.grid_y 1%float 11 !! 1%nat = Some 0.80000000000000004%float ∧
    pixel img 1 8 = Some (10, 15, 20)%Z ∧
    pixel img 1 2 = Some (78, 97, 65)%Z ∧
    pixel img 5 7 = Some (130, 160, 194)%Z ∧
    pixel img 0 0 = Some (10, 15, 20)%Z.
Proof.
  pose proof (base_map_disk_membership sample_library sample_raster) as Hthm.
  cbv zeta in Hthm.
  assert (feqb (fsub (of_int 1) (Raster.MARGIN_FRACTION sample_raster)) (of_int 0)
          = false) as Hz by (vm_compute; reflexivity).
  rewrite Hz in Hthm.
  destruct Hthm as (_ & _ & img & Himg & _ & _ & Hpix & _).
  exists img. split; [exact Himg |].
  split; [vm_compute; reflexivity |]. split; [vm_compute; reflexivity |].
  repeat split.
  - destruct (Hpix 1%nat 8%nat) as (xj & yi & c & Hx & Hy & -> & -> & _);
      [cbn; lia | cbn; lia |].
    vm_compute in Hx, Hy. injection Hx as <-. injection Hy as <-.
    vm_compute. reflexivity.
  - destruct (Hpix 1%nat 2%nat) as (xj & yi & c & Hx & Hy & -> & -> & _);
      [cbn; lia | cbn; lia |].
    vm_compute in Hx, Hy. injection Hx as <-. injection Hy as <-.
    vm_compute. reflexivity.
  - destruct (Hpix 5%nat 7%nat) as (xj & yi & c & Hx & Hy & -> & -> & _);
      [cbn; lia | cbn; lia |].
    vm_compute in Hx, Hy. injection Hx as <-. injection Hy as <-.
    vm_compute. reflexivity.
  - destruct (Hpix 0%nat 0%nat) as (xj & yi & c & Hx & Hy & -> & -> & _);
      [cbn; lia | cbn; lia |].
    vm_compute in Hx, Hy. injection Hx as <-. injection Hy as <-.
    vm_compute. reflexivity.
Defined.

(** C6, as stated, fails, whatever the rasteriser, as long as it sets
    the pixel at the centre of its box: with the camera above the pole
    and the default sizes, the centre of a park 1.1 degrees north of the
    equator falls on the pixel in row 2048 and column 3993, which lies
    outside the globe disk and was SPACE. *)
Lemma overlay_paints_outside_the_globe :
  ¬ ∃ covers, paints_centre covers ∧ overlay_stays_on_globe covers.
Proof.
  intros (covers & Hcentre & Hclaim).
  destruct (edge_pixel_painted covers Hcentre)
    as (base & x & y & Hb & Hx & Hy & Hout & Hspace & Hpaint).
  pose proof (Hclaim align_shortest (fun _ _ => 0%R) (fun _ _ => false) polar_config
                [edge_park] base 2048%nat 3993%nat x y polar_aims Hb Hx Hy Hout) as Heq.
  rewrite Hpaint, Hspace in Heq. discriminate Heq.
Qed.

(** C6, amended.  Take any rasteriser that, like Pillow, sets no pixel
    outside the box of whole pixels it is given.  Then the overlay
    changes a pixel only if it lies in the box, corners cast to [int],
    of the disk of radius [park_pixel_radius] around a park whose
    view-space z is positive, and the centre of every such disk
    projects strictly inside the globe disk; the disk itself is cut by
    the canvas only, not by the globe disk. *)
Theorem overlay_paints_only_inside_park_boxes
    (align_vectors : vec → vec → Rotation.t)
    (covers : R → R → R → R → nat → nat → bool) (cfg : config)
    (parks : list marker) (img : image) :
  aims_at_target align_vectors cfg →
  paints_within_box covers →
  (0 < park_pixel_radius cfg)%R →
  (∀ i j,
     pixel (fst (draw_parks align_vectors covers cfg parks img)) i j
       ≠ pixel img i j →
     ∃ park, park ∈ parks ∧
       (0 < snd (rotated_park_vec align_vectors cfg park))%R ∧
       let '(x0, y0, x1, y1) := park_box align_vectors cfg park in
       (Rtrunc x0 ≤ Z.of_nat j ≤ Rtrunc x1)%Z ∧
       (Rtrunc y0 ≤ Z.of_nat i ≤ Rtrunc y1)%Z) ∧
  (∀ park, park ∈ parks →
     (0 < snd (rotated_park_vec align_vectors cfg park))%R →
     let '(x, y, _) := rotated_park_vec align_vectors cfg park in
     (x * x + y * y < 1)%R).
Proof.
  intros Haim Hbox Hr. split.
  - intros i j Hne.
    destruct (draw_parks_frame _ _ _ _ _ _ _ Hne) as (park & Hp & Hvis & Hcov).
    exists park. split; [done |]. split; [by apply visible_iff |].
    unfold covers_park, park_box in *.
    destruct (park_px align_vectors cfg park) as [px py].
    apply (Hbox _ _ _ _ j i); [lra | lra | exact Hcov].
  - intros park _ Hz. apply visible_center_on_disk; [done |].
    by apply visible_iff.
Qed.

(** The amended C6 for the park at the rim and the ellipse of the
    drawing board: the pixel in row 2048 and column 3993, which the
    overlay turns from SPACE to the park's colour, lies in the park's
    box. *)
Lemma overlay_paints_only_inside_park_boxes_witness :
  let '(x0, y0, x1, y1) := park_box align_shortest polar_config edge_park in
  (Rtrunc x0 ≤ 3993 ≤ Rtrunc x1)%Z ∧ (Rtrunc y0 ≤ 2048 ≤ Rtrunc y1)%Z.
Proof.
  destruct (edge_pixel_painted exact_ellipse exact_ellipse_centre)
    as (base & x & y & _ & _ & _ & _ & Hspace & Hpaint).
  assert (0 < park_pixel_radius polar_config)%R as Hr
    by (rewrite polar_radius; lra).
  destruct (overlay_paints_only_inside_park_boxes align_shortest exact_ellipse
              polar_config [edge_park] base polar_aims exact_ellipse_within_box Hr)
    as [Hframe _].
  destruct (Hframe 2048%nat 3993%nat) as (park & Hp & _ & Hin).
  - rewrite Hpaint, Hspace. discriminate.
  - apply list_elem_of_singleton in Hp as ->. exact Hin.
Defined.

(** C7.  Whatever pixels the rasteriser sets: a turn of the loop calls
    [ellipse], with the box around the park's pixel position and the
    park's colour, and counts the park exactly when the park's
    view-space z is strictly positive; otherwise, z = 0 included, the
    canvas and the counter stay as they are.  So the loop makes these
    calls for the parks with z > 0, in input order.  A park at the
    antipode of the camera centre has view-space position (0, 0, -1)
    and its turn changes nothing; a park at the camera centre has
    position (0, 0, 1), whatever the roll and the margin, and its turn
    calls [ellipse] with the box around the centre of the canvas, so
    that, when the rasteriser sets the pixels at the centre of a box as
    Pillow does and the radius is four pixels or more, the pixel at the
    centre of the canvas takes the park's colour. *)
Theorem park_drawn_iff_front_facing
    (align_vectors : vec → vec → Rotation.t)
    (covers : R → R → R → R → nat → nat → bool) (cfg : config) :
  aims_at_target align_vectors cfg →
  (∀ park img n,
     let '(px, py) := park_px align_vectors cfg park in
     let r := park_pixel_radius cfg in
     ((0 < snd (rotated_park_vec align_vectors cfg park))%R →
        draw_park align_vectors covers cfg (img, n) park
        = (ellipse covers img (px - r) (py - r) (px + r) (py + r)
             (m_color park), S n)) ∧
     ((snd (rotated_park_vec align_vectors cfg park) <= 0)%R →
        draw_park align_vectors covers cfg (img, n) park = (img, n))) ∧
  (∀ parks img,
     draw_parks align_vectors covers cfg parks img =
     (fold_left (fun im park =>
          let '(x0, y0, x1, y1) := park_box align_vectors cfg park in
          ellipse covers im x0 y0 x1 y1 (m_color park))
        (filter (fun p => Rltb 0 (snd (rotated_park_vec align_vectors cfg p)) = true)
           parks) img,
      length (filter
        (fun p => Rltb 0 (snd (rotated_park_vec align_vectors cfg p)) = true)
        parks))) ∧
  (∀ park, m_lat park = (- PROJECTION_CENTER_LAT cfg)%R →
     (m_lon park = (PROJECTION_CENTER_LON cfg + 180)%R ∨
      m_lon park = (PROJECTION_CENTER_LON cfg - 180)%R) →
     rotated_park_vec align_vectors cfg park = (0, 0, -1)%R ∧
     ∀ st, draw_park align_vectors covers cfg st park = st) ∧
  (∀ park, m_lat park = PROJECTION_CENTER_LAT cfg →
     m_lon park = PROJECTION_CENTER_LON cfg →
     let c := (INR (SUPER_SAMPLED_SIZE cfg) / 2)%R in
     let r := park_pixel_radius cfg in
     let k := (SUPER_SAMPLED_SIZE cfg / 2)%nat in
     rotated_park_vec align_vectors cfg park = (0, 0, 1)%R ∧
     (∀ img n,
        draw_park align_vectors covers cfg (img, n) park
        = (ellipse covers img (c - r) (c - r) (c + r) (c + r)
             (m_color park), S n)) ∧
     (paints_centre covers → (4 <= r)%R →
      ∀ img n c0, pixel img k k = Some c0 →
        pixel (fst (draw_park align_vectors covers cfg (img, n) park)) k k
        = Some (m_color park))).
Proof.
  intros Haim.
  assert (∀ park img n,
    draw_park align_vectors covers cfg (img, n) park
    = if Rltb 0 (snd (rotated_park_vec align_vectors cfg park))
      then (let '(px, py) := park_px align_vectors cfg park in
            ellipse covers img (px - park_pixel_radius cfg)
              (py - park_pixel_radius cfg) (px + park_pixel_radius cfg)
              (py + park_pixel_radius cfg) (m_color park), S n)
      else (img, n)) as Hturn.
  { intros park img n. unfold draw_park, visible, draw_disk.
    by destruct (park_px align_vectors cfg park). }
  split.
  { intros park img n. rewrite Hturn.
    destruct (park_px align_vectors cfg park) as [px py]. cbn zeta. split.
    - intros Hz. by rewrite Rltb_true.
    - intros Hz. by rewrite Rltb_false by lra. }
  split.
  { intros parks img. unfold draw_parks. rewrite draw_parks_from.
    unfold visible. f_equal. apply fold_left_pointwise. intros im park.
    unfold draw_disk, park_box.
    by destruct (park_px align_vectors cfg park). }
  split.
  - intros park Hlat Hlon.
    assert (latlon_to_vec (m_lat park) (m_lon park) = neg_vec (target_vec cfg)) as Hv.
    { rewrite Hlat. unfold target_vec.
      destruct Hlon as [-> | ->]; [apply antipode_east | apply antipode_west]. }
    assert (rotated_park_vec align_vectors cfg park = (0, 0, -1)%R) as Hrot.
    { unfold rotated_park_vec. rewrite Hv, apply_neg, rotation_target by done.
      unfold neg_vec, z_axis. tuple_eq; lra. }
    split; [exact Hrot |]. intros [img n]. rewrite Hturn, Hrot. cbn [snd].
    by rewrite Rltb_false by lra.
  - intros park Hlat Hlon. cbn zeta.
    assert (latlon_to_vec (m_lat park) (m_lon park) = target_vec cfg) as Hv
      by (by rewrite Hlat, Hlon).
    assert (rotated_park_vec align_vectors cfg park = (0, 0, 1)%R) as Hrot.
    { unfold rotated_park_vec. by rewrite Hv, rotation_target. }
    assert (park_px align_vectors cfg park
            = (INR (SUPER_SAMPLED_SIZE cfg) / 2, INR (SUPER_SAMPLED_SIZE cfg) / 2)%R)
      as Hpx.
    { unfold park_px. rewrite Hrot. tuple_eq; unfold Rdiv; ring. }
    assert (∀ img n,
      draw_park align_vectors covers cfg (img, n) park
      = (ellipse covers img
           (INR (SUPER_SAMPLED_SIZE cfg) / 2 - park_pixel_radius cfg)
           (INR (SUPER_SAMPLED_SIZE cfg) / 2 - park_pixel_radius cfg)
           (INR (SUPER_SAMPLED_SIZE cfg) / 2 + park_pixel_radius cfg)
           (INR (SUPER_SAMPLED_SIZE cfg) / 2 + park_pixel_radius cfg)
           (m_color park), S n)) as Hcall.
    { intros img n. rewrite Hturn, Hrot, Hpx. cbn [snd].
      by rewrite Rltb_true by lra. }
    split; [exact Hrot |]. split; [exact Hcall |].
    intros Hcentre Hr img n c0 Hc0. rewrite Hcall. cbn [fst].
    rewrite ellipse_pixel, Hc0. cbn [fmap option_fmap option_map].
    rewrite Hcentre; [done | lra | lra | |].
    all: replace ((INR (SUPER_SAMPLED_SIZE cfg) / 2 - park_pixel_radius cfg
                   + (INR (SUPER_SAMPLED_SIZE cfg) / 2 + park_pixel_radius cfg)) / 2)%R
           with (INR (SUPER_SAMPLED_SIZE cfg) / 2)%R by lra.
    all: apply half_nat_close.
Qed.

(** C7 for the default camera and the ellipse of the drawing board: a
    park at (45, -105) turns the centre of a canvas filled with the
    colour of space yellow; a park at (-45, 75) leaves the canvas as it
    is. *)
Lemma park_drawn_witness :
  pixel (fst (draw_park align_shortest exact_ellipse default_config
                (full 4096 (10, 15, 20)%Z, 0%nat)
                {| m_lat := 45; m_lon := -105; m_color := (255, 255, 0)%Z |}))
    2048 2048 = Some (255, 255, 0)%Z ∧
  draw_park align_shortest exact_ellipse default_config
    (full 4096 (10, 15, 20)%Z, 0%nat)
    {| m_lat := -45; m_lon := 75; m_color := (255, 255, 0)%Z |}
  = (full 4096 (10, 15, 20)%Z, 0%nat).
Proof.
  destruct (park_drawn_iff_front_facing align_shortest exact_ellipse default_config
              default_aims) as (_ & _ & Hanti & Hcentre).
  split.
  - destruct (Hcentre {| m_lat := 45; m_lon := -105; m_color := (255, 255, 0)%Z |})
      as (_ & _ & Hpix); [reflexivity | reflexivity |].
    apply (Hpix exact_ellipse_centre) with (c0 := (10, 15, 20)%Z).
    + apply default_radius.
    + apply (full_pixel 4096 2048 2048); lia.
  - apply Hanti; cbn; [lra | left; lra].
Defined.

(** C8.  Only that [align_vectors] returns a rotation is taken from
    scipy.  The camera rotation applies [r_aim] first and [r_roll]
    second; [r_roll] turns about (0, 0, 1) by the negated roll, so the
    rotation takes onto (0, 0, 1) exactly what [r_aim] takes there;
    applying the inverse after the rotation gives every vector back
    (exactly, in real arithmetic) and lengths are kept; and the two uses
    agree: the point a visible park is projected to, cast back as the
    base map does ([z = sqrt(1 - x*x - y*y)], inverse rotation), is the
    park's own position on the sphere.  For the shortest arc, which is
    what [align_vectors] returns for one pair of vectors, nothing is
    assumed: unless the camera is above the south pole, [r_aim] is a
    rotation and takes the target onto (0, 0, 1), so does the camera
    rotation, and the inverse after the rotation gives every vector
    back. *)
Theorem camera_rotation_composes_and_inverts :
  (∀ (align_vectors : vec → vec → Rotation.t) (cfg : config),
     Rotation.orthogonal (r_aim align_vectors cfg) →
     (∀ v, Rotation.apply (rotation align_vectors cfg) v
           = Rotation.apply (r_roll cfg)
               (Rotation.apply (r_aim align_vectors cfg) v)) ∧
     (∀ x y z,
        Rotation.apply (r_roll cfg) (x, y, z)
        = (x * cos (deg2rad (CAMERA_ROLL_DEG cfg))
           + y * sin (deg2rad (CAMERA_ROLL_DEG cfg)),
           y * cos (deg2rad (CAMERA_ROLL_DEG cfg))
           - x * sin (deg2rad (CAMERA_ROLL_DEG cfg)),
           z)%R) ∧
     (∀ v, Rotation.apply (rotation align_vectors cfg) v = z_axis ↔
           Rotation.apply (r_aim align_vectors cfg) v = z_axis) ∧
     (∀ v, Rotation.apply (Rotation.inv (rotation align_vectors cfg))
             (Rotation.apply (rotation align_vectors cfg) v) = v) ∧
     (∀ v, norm_sq (Rotation.apply (rotation align_vectors cfg) v) = norm_sq v) ∧
     (∀ park, visible align_vectors cfg park = true →
        let '(x, y, _) := rotated_park_vec align_vectors cfg park in
        Rotation.apply (Rotation.inv (rotation align_vectors cfg))
          (x, y, sqrt (1 - (x * x + y * y)))%R
        = latlon_to_vec (m_lat park) (m_lon park))) ∧
  (∀ cfg : config,
     snd (target_vec cfg) ≠ (-1)%R →
     Rotation.orthogonal (r_aim align_shortest cfg) ∧
     Rotation.apply (r_aim align_shortest cfg) (target_vec cfg) = z_axis ∧
     Rotation.apply (rotation align_shortest cfg) (target_vec cfg) = z_axis ∧
     (∀ v, Rotation.apply (Rotation.inv (rotation align_shortest cfg))
             (Rotation.apply (rotation align_shortest cfg) v) = v)).
Proof.
  assert (∀ (align_vectors : vec → vec → Rotation.t) (cfg : config),
    Rotation.orthogonal (r_aim align_vectors cfg) →
    ∀ v, Rotation.apply (Rotation.inv (rotation align_vectors cfg))
           (Rotation.apply (rotation align_vectors cfg) v) = v) as Hback_all.
  { intros align_vectors cfg Horth v. unfold rotation.
    rewrite inv_mul, !apply_mul.
    rewrite (apply_inv (r_roll cfg)) by apply from_euler_z_orthogonal.
    by apply apply_inv. }
  split.
  - intros align_vectors cfg Horth.
    assert (∀ v, Rotation.apply (Rotation.inv (rotation align_vectors cfg))
                   (Rotation.apply (rotation align_vectors cfg) v) = v) as Hinv
      by (by apply Hback_all).
    assert (∀ v, norm_sq (Rotation.apply (rotation align_vectors cfg) v) = norm_sq v)
      as Hnorm.
    { intros v. unfold rotation. rewrite apply_mul.
      rewrite (apply_norm (r_roll cfg)) by apply from_euler_z_orthogonal.
      by apply apply_norm. }
    split; [intros v; apply apply_mul |].
    split.
    { intros x y z. unfold r_roll, Rotation.from_euler_z, Rotation.apply, Rotation.dot.
      rewrite deg2rad_opp, cos_neg, sin_neg. tuple_eq; ring. }
    split.
    { intros v. unfold rotation. rewrite apply_mul. split.
      - intros Hz.
        rewrite <- (apply_inv (r_roll cfg) (Rotation.apply (r_aim align_vectors cfg) v))
          by apply from_euler_z_orthogonal.
        rewrite Hz. unfold r_roll, Rotation.from_euler_z, Rotation.inv,
          Rotation.transpose, Rotation.apply, Rotation.dot, z_axis.
        tuple_eq; ring.
      - intros ->. apply from_euler_z_axis. }
    split; [exact Hinv |]. split; [exact Hnorm |].
    intros park Hvis. apply visible_iff in Hvis.
    pose proof (Hnorm (latlon_to_vec (m_lat park) (m_lon park))) as Hn.
    rewrite latlon_unit in Hn. pose proof (Hinv (latlon_to_vec (m_lat park) (m_lon park))) as Hback.
    unfold rotated_park_vec in *.
    destruct (Rotation.apply (rotation align_vectors cfg)
                (latlon_to_vec (m_lat park) (m_lon park))) as [[x y] z].
    cbn [snd] in Hvis. unfold norm_sq, Rotation.dot in Hn.
    replace (1 - (x * x + y * y))%R with (z * z)%R by lra.
    rewrite sqrt_square by lra. exact Hback.
  - intros cfg Hpole.
    destruct (shortest_arc_spec (target_vec cfg)) as [Horth Haim];
      [apply latlon_unit | exact Hpole |].
    split; [exact Horth |]. split; [exact Haim |].
    split; [| by apply Hback_all].
    unfold rotation. rewrite apply_mul.
    unfold r_aim, align_shortest. rewrite Haim. apply from_euler_z_axis.
Qed.

(** C8 for the default camera: the vector (1, 0, 0) comes back, and the
    roll of -13 degrees turns (1, 0, 0) to (cos 13°, sin 13°, 0). *)
Lemma camera_rotation_witness :
  Rotation.apply (Rotation.inv (rotation align_shortest default_config))
    (Rotation.apply (rotation align_shortest default_config) (1, 0, 0)%R)
  = (1, 0, 0)%R ∧
  Rotation.apply (r_roll default_config) (1, 0, 0)%R
  = (1 * cos (deg2rad (-13)) + 0 * sin (deg2rad (-13)),
     0 * cos (deg2rad (-13)) - 1 * sin (deg2rad (-13)), 0)%R.
Proof.
  destruct camera_rotation_composes_and_inverts as [Hgen _].
  destruct (Hgen align_shortest default_config (proj1 default_aims))
    as (_ & Hroll & _ & Hinv & _).
  split; [apply Hinv | apply (Hroll 1 0 0)%R].
Defined.

(** C9.  [generate_map] works on a copy: the object passed as
    [base_map_image] holds the same pixels afterwards, as does every
    other object, and the file written is the overlay drawn on those
    pixels.  In the change driver both the absolute and the percent map
    are therefore drawn on the one base map, which is still in the
    store, unchanged, at the end. *)
Theorem generate_map_leaves_base_map_untouched
    (align_vectors : vec → vec → Rotation.t)
    (covers : R → R → R → R → nat → nat → bool) (arctan2 : R → R → R)
    (on_land : R → R → bool) (resize : image → nat → image) (cfg : config)
    (parks_with_colors : list marker) (output_path : string)
    (base_map_image : nat) (w : world) (im : image)
    (parks : list (Change.park R)) (absolute_path percent_path : string) :
  heap w !! base_map_image = Some im →
  parks ≠ [] →
  (let w' := generate_map align_vectors covers resize cfg parks_with_colors
               output_path base_map_image w in
   heap w' !! base_map_image = Some im ∧
   (∀ l, is_Some (heap w !! l) → heap w' !! l = heap w !! l) ∧
   files w' = <[output_path :=
                  rendered align_vectors covers resize cfg parks_with_colors im]>
                (files w)) ∧
  (∃ base abs_cs pct w' b,
     base_map align_vectors arctan2 on_land cfg = Ok base ∧
     Change.absolute_colors parks = Ok abs_cs ∧
     Change.percent_colors parks = Ok pct ∧
     change_main align_vectors covers arctan2 on_land resize cfg parks
       absolute_path percent_path w = Ok w' ∧
     heap w' !! b = Some base ∧
     (∀ pct_cs, pct = Some pct_cs →
        files w' !! percent_path =
        Some (rendered align_vectors covers resize cfg
                (map change_marker pct_cs) base)) ∧
     (absolute_path ≠ percent_path →
        files w' !! absolute_path =
        Some (rendered align_vectors covers resize cfg
                (map change_marker abs_cs) base))).
Proof.
  intros Hbase Hne. split.
  - by apply generate_map_spec.
  - by apply change_main_spec.
Qed.

(** C9 for a store holding a one-pixel base map. *)
Lemma generate_map_witness :
  heap (generate_map align_shortest exact_ellipse (fun im _ => im) default_config []
          "map_change_absolute_2019_vs_2020.png" 0
          {| heap := {[ 0 := [[(10, 15, 20)%Z]] ]}; files := ∅ |}) !! 0
  = Some [[(10, 15, 20)%Z]].
Proof.
  apply (generate_map_leaves_base_map_untouched align_shortest exact_ellipse
           (fun _ _ => 0%R) (fun _ _ => false) (fun im _ => im) default_config []
           "map_change_absolute_2019_vs_2020.png" 0
           {| heap := {[ 0 := [[(10, 15, 20)%Z]] ]}; files := ∅ |}
           [[(10, 15, 20)%Z]]
           [{| Change.name := "A"; Change.lat := 0%R; Change.lon := 0%R;
               Change.visitors_a := 10%R; Change.visitors_b := 4%R |}]
           "a.png" "b.png").
  - apply lookup_singleton_eq.
  - done.
Defined.

(** C10, as stated, fails on binary64 numbers for feature sets whose
    range overflows: for two parks with 1e308 and -1e308 visitors the
    range [max - min] is infinite, the normalised value of the first
    park is NaN, which lies in no interval, and [int(nan)] raises
    [ValueError]; one park that goes from 5e-324 to 1e308 visitors has
    an infinite percent change and the percent map raises likewise. *)
Lemma normalized_value_overflows_binary64 :
  let parks := [ {| Popularity.name := "A"; Popularity.lat := 0%float;
                    Popularity.lon := 0%float; Popularity.visitors := 1e308%float |};
                 {| Popularity.name := "B"; Popularity.lat := 0%float;
                    Popularity.lon := 0%float;
                    Popularity.visitors := (-1e308)%float |} ] in
  let cparks := [ {| Change.name := "A"; Change.lat := 0%float;
                     Change.lon := 0%float; Change.visitors_a := 5e-324%float;
                     Change.visitors_b := 1e308%float |} ] in
  Popularity.visitor_stats parks = Ok ((-1e308)%float, infinity) ∧
  Popularity.normalized_visitors (-1e308)%float infinity
    {| Popularity.name := "A"; Popularity.lat := 0%float;
       Popularity.lon := 0%float; Popularity.visitors := 1e308%float |} = Ok nan ∧
  fleb (of_int 0) nan = false ∧
  Popularity.assign_colors parks = Raise ValueError ∧
  Change.percent_colors cparks = Raise ValueError.
Proof. cbv zeta. repeat split; vm_compute; reflexivity. Qed.

(** C10, amended.  In exact arithmetic, that is on the reals, where no
    operation rounds or overflows, for a feature set that is not empty
    the value handed to [get_visitor_color] by the popularity driver and the
    values handed to [get_change_color] by the change driver (absolute
    and percent maps) lie in [0, 1], also when the divisor guard
    applies; no step raises, and every colour assigned is a byte
    triple. *)
Theorem normalized_values_lie_in_unit_interval
    (parks : list (Popularity.park R)) (cparks : list (Change.park R))
    (valid : list (Change.park R * R)) :
  parks ≠ [] → cparks ≠ [] → valid ≠ [] →
  (∃ mn rg cs,
     Popularity.visitor_stats parks = Ok (mn, rg) ∧
     (∀ p, p ∈ parks → ∃ t,
        Popularity.normalized_visitors mn rg p = Ok t ∧ (0 <= t <= 1)%R) ∧
     Popularity.assign_colors parks = Ok cs ∧
     Forall (fun pc => in_rgb_range (snd pc)) cs) ∧
  (∃ m cs,
     Change.max_abs_delta cparks = Ok m ∧
     (∀ p, p ∈ cparks → ∃ t,
        Change.remap (Change.delta p) m = Ok t ∧ (0 <= t <= 1)%R) ∧
     Change.absolute_colors cparks = Ok cs ∧
     Forall (fun pc => in_rgb_range (snd pc)) cs) ∧
  (∃ m,
     Change.max_abs_percent valid = Ok m ∧
     (∀ pc, pc ∈ valid → ∃ t,
        Change.remap (snd pc) m = Ok t ∧ (0 <= t <= 1)%R)) ∧
  (∃ r, Change.percent_colors cparks = Ok r ∧
        ∀ cs, r = Some cs → Forall (fun pc => in_rgb_range (snd pc)) cs).
Proof.
  intros Hp Hc Hv. split; [| split; [| split]].
  - destruct (popularity_normalized parks Hp) as (mn & rg & Hst & Hall).
    destruct (popularity_colors_ok parks Hp) as (cs & Hcs & Hr).
    exists mn, rg, cs. repeat split; try done.
    intros p Hin. destruct (Hall p Hin) as (t & Ht & Hu & _). eauto.
  - destruct (absolute_normalized cparks Hc) as (m & Hm & Hall).
    destruct (absolute_colors_ok cparks Hc) as (cs & Hcs & Hr).
    exists m, cs. repeat split; try done.
    intros p Hin. destruct (Hall p Hin) as (t & Ht & Hu & _). eauto.
  - destruct (percent_normalized valid Hv) as (m & Hm & Hall).
    exists m. split; [done |].
    intros p Hin. destruct (Hall p Hin) as (t & Ht & Hu & _). eauto.
  - apply percent_colors_ok.
Qed.

(** The amended C10 for two parks with 10 and 30 visitors. *)
Lemma normalized_values_witness :
  ∃ cs, Popularity.assign_colors (F:=R)
    [{| Popularity.name := "A"; Popularity.lat := 0%R; Popularity.lon := 0%R;
        Popularity.visitors := 10%R |};
     {| Popularity.name := "B"; Popularity.lat := 1%R; Popularity.lon := 1%R;
        Popularity.visitors := 30%R |}] = Ok cs ∧
    Forall (fun pc => in_rgb_range (snd pc)) cs.
Proof.
  destruct (normalized_values_lie_in_unit_interval
    [{| Popularity.name := "A"; Popularity.lat := 0%R; Popularity.lon := 0%R;
        Popularity.visitors := 10%R |};
     {| Popularity.name := "B"; Popularity.lat := 1%R; Popularity.lon := 1%R;
        Popularity.visitors := 30%R |}]
    [{| Change.name := "A"; Change.lat := 0%R; Change.lon := 0%R;
        Change.visitors_a := 10%R; Change.visitors_b := 4%R |}]
    [({| Change.name := "A"; Change.lat := 0%R; Change.lon := 0%R;
         Change.visitors_a := 10%R; Change.visitors_b := 4%R |}, (-3 / 5)%R)])
    as ((mn & rg & cs & _ & _ & Hcs & Hr) & _); [done | done | done |].
  exists cs. split; [exact Hcs | exact Hr].
Defined.

(** * Further properties of the drivers and of the data scripts *)

(** ** The sphere and the sampling grid *)

Section Sphere.
Local Open Scope R_scope.

(** X1.  [latlon_to_vec] maps every latitude and longitude to a point of
    the unit sphere; a turn of 360 degrees in longitude changes nothing,
    the antipode (latitude negated, longitude moved by 180 degrees either
    way) is the opposite vector, and the latitudes 90 and -90 are the
    poles (0, 0, 1) and (0, 0, -1) at every longitude. *)
Theorem latlon_to_vec_on_unit_sphere (lat lon : R) :
  norm_sq (latlon_to_vec lat lon) = 1 ∧
  latlon_to_vec lat (lon + 360) = latlon_to_vec lat lon ∧
  latlon_to_vec (- lat) (lon + 180) = neg_vec (latlon_to_vec lat lon) ∧
  latlon_to_vec (- lat) (lon - 180) = neg_vec (latlon_to_vec lat lon) ∧
  latlon_to_vec 90 lon = (0, 0, 1) ∧
  latlon_to_vec (-90) lon = (0, 0, -1).
Proof.
  split; [apply latlon_unit |]. split.
  { unfold latlon_to_vec.
    replace (deg2rad (lon + 360)) with (deg2rad lon + 2 * PI)
      by (unfold deg2rad; field).
    by rewrite cos_plus, sin_plus, cos_2PI, sin_2PI, !Rmult_0_r, !Rmult_1_r,
      Rminus_0_r, Rplus_0_r. }
  split; [apply antipode_east |]. split; [apply antipode_west |].
  unfold latlon_to_vec.
  replace (deg2rad 90) with (PI / 2) by (unfold deg2rad; field).
  replace (deg2rad (-90)) with (- (PI / 2)) by (unfold deg2rad; field).
  rewrite cos_neg, sin_neg, cos_PI2, sin_PI2.
  split; tuple_eq; ring.
Qed.
End Sphere.

(** ** The overlay on the canvas *)

Section OverlayMore.
Local Open Scope R_scope.
Variable align_vectors : vec → vec → Rotation.t.
Variable covers : R → R → R → R → nat → nat → bool.
Variable cfg : config.

Lemma ellipse_shape (img : image) (x0 y0 x1 y1 : R) (fill : color) :
  length (ellipse covers img x0 y0 x1 y1 fill) = length img ∧
  ∀ i row, img !! i = Some row →
    ∃ row', ellipse covers img x0 y0 x1 y1 fill !! i = Some row' ∧
            length row' = length row.
Proof.
  unfold ellipse. split; [apply length_imap |].
  intros i row Hrow. rewrite list_lookup_imap, Hrow. cbn.
  eexists. split; [done |]. apply length_imap.
Qed.

Lemma fold_draw_disk_shape (parks : list marker) (img : image) :
  length (fold_left (draw_disk align_vectors covers cfg) parks img) = length img ∧
  ∀ i row, img !! i = Some row →
    ∃ row', fold_left (draw_disk align_vectors covers cfg) parks img !! i = Some row' ∧
            length row' = length row.
Proof.
  revert img. induction parks as [| p parks IH]; intros img.
  - cbn. split; [done |]. eauto.
  - cbn [fold_left]. destruct (IH (draw_disk align_vectors covers cfg img p)) as [Hl Hr].
    unfold draw_disk in *. destruct (park_px align_vectors cfg p) as [px py].
    destruct (ellipse_shape img (px - park_pixel_radius cfg)
      (py - park_pixel_radius cfg) (px + park_pixel_radius cfg)
      (py + park_pixel_radius cfg) (m_color p)) as [Hel Her].
    split; [by rewrite Hl |].
    intros i row Hrow. destruct (Her i row Hrow) as (r1 & Hr1 & Hlen1).
    destruct (Hr i r1 Hr1) as (r2 & Hr2 & Hlen2).
    exists r2. split; [done | congruence].
Qed.

(** X3.  The overlay loop keeps the shape of the canvas, the number of
    rows and the length of every row, and counts no more visible parks
    than there are parks. *)
Theorem draw_parks_keeps_canvas_shape (parks : list marker) (img : image) :
  length (fst (draw_parks align_vectors covers cfg parks img)) = length img ∧
  (∀ i row, img !! i = Some row →
     ∃ row', fst (draw_parks align_vectors covers cfg parks img) !! i = Some row' ∧
             length row' = length row) ∧
  (snd (draw_parks align_vectors covers cfg parks img) ≤ length parks)%nat.
Proof.
  unfold draw_parks. rewrite draw_parks_from. cbn [fst snd].
  destruct (fold_draw_disk_shape
    (filter (fun p => visible align_vectors cfg p = true) parks) img) as [Hl Hr].
  split; [done |]. split; [done |]. cbn. apply length_filter.
Qed.

Lemma fold_draw_disk_last (parks : list marker) (img : image) (i j : nat) :
  pixel (fold_left (draw_disk align_vectors covers cfg) parks img) i j =
  (fun c => default c
     (m_color <$> last (filter
        (fun p => covers_park align_vectors covers cfg p i j = true) parks)))
  <$> pixel img i j.
Proof.
  induction parks as [| p parks IH] using rev_ind.
  - cbn. by destruct (pixel img i j).
  - rewrite fold_left_app. cbn [fold_left].
    rewrite draw_disk_pixel, IH, filter_app, filter_cons, filter_nil.
    destruct (pixel img i j) as [c |]; [| done]. cbn [fmap option_fmap option_map].
    f_equal. destruct (covers_park align_vectors covers cfg p i j) eqn:Hin.
    + rewrite decide_True by done. by rewrite last_snoc.
    + rewrite decide_False by done. by rewrite app_nil_r.
Qed.

(** X4.  Whatever pixels the rasteriser sets: after the overlay loop a
    pixel of the canvas shows the colour of the last park, in input
    order, that is visible and whose call to [ellipse] sets the pixel,
    and its colour of before when there is no such park: where the
    painted shapes overlap, the park later in the list is on top. *)
Theorem overlay_last_drawn_wins (parks : list marker) (img : image) (i j : nat) :
  pixel (fst (draw_parks align_vectors covers cfg parks img)) i j =
  (fun c => default c
     (m_color <$> last (filter
        (fun p => covers_park align_vectors covers cfg p i j = true)
        (filter (fun p => visible align_vectors cfg p = true) parks))))
  <$> pixel img i j.
Proof.
  unfold draw_parks. rewrite draw_parks_from. cbn [fst].
  apply fold_draw_disk_last.
Qed.

(** X5.  On the canvas the centre [(px, py)] of a park that is drawn lies
    strictly inside the circle of radius [globe_pixel_radius] around the
    centre of the canvas, when the margin fraction is not 1 and the
    canvas is not empty. *)
Theorem drawn_park_centre_on_globe (park : marker) :
  aims_at_target align_vectors cfg →
  MARGIN_FRACTION cfg ≠ 1 →
  (0 < SUPER_SAMPLED_SIZE cfg)%nat →
  visible align_vectors cfg park = true →
  let '(px, py) := park_px align_vectors cfg park in
  let c := INR (SUPER_SAMPLED_SIZE cfg) / 2 in
  (px - c) * (px - c) + (py - c) * (py - c)
  < globe_pixel_radius cfg * globe_pixel_radius cfg.
Proof.
  intros Haim Hm HS Hv.
  pose proof (visible_center_on_disk align_vectors cfg Haim park Hv) as Hc.
  unfold park_px, globe_pixel_radius.
  destruct (rotated_park_vec align_vectors cfg park) as [[x y] z].
  assert (view_scale cfg ≠ 0) as Hvs.
  { unfold view_scale. apply Rmult_integral_contrapositive_currified; [lra |].
    apply Rinv_neq_0_compat. lra. }
  assert (0 < INR (SUPER_SAMPLED_SIZE cfg)) as HR by (by apply lt_0_INR).
  set (s := INR (SUPER_SAMPLED_SIZE cfg)) in *.
  set (g := s / 2 / view_scale cfg).
  assert (0 < g * g) as Hg.
  { assert (g ≠ 0) as Hg0.
    { unfold g. unfold Rdiv. repeat apply Rmult_integral_contrapositive_currified;
        try lra. by apply Rinv_neq_0_compat. }
    nra. }
  replace ((x / view_scale cfg + 1) * (1 / 2) * s - s / 2) with (x * g)
    by (unfold g; field; exact Hvs).
  replace ((- y / view_scale cfg + 1) * (1 / 2) * s - s / 2) with (- y * g)
    by (unfold g; field; exact Hvs).
  nra.
Qed.

(** X6.  A park at the projection centre is visible and its disk is
    centred on the centre of the canvas, whatever the roll and the
    margin. *)
Theorem centre_park_at_canvas_centre (park : marker) :
  aims_at_target align_vectors cfg →
  m_lat park = PROJECTION_CENTER_LAT cfg →
  m_lon park = PROJECTION_CENTER_LON cfg →
  visible align_vectors cfg park = true ∧
  park_px align_vectors cfg park
  = (INR (SUPER_SAMPLED_SIZE cfg) / 2, INR (SUPER_SAMPLED_SIZE cfg) / 2).
Proof.
  intros Haim Hlat Hlon.
  assert (latlon_to_vec (m_lat park) (m_lon park) = target_vec cfg) as Hvec
    by (by rewrite Hlat, Hlon).
  split; [by apply center_visible |].
  unfold park_px, rotated_park_vec. rewrite Hvec, rotation_target by done.
  unfold z_axis. tuple_eq; unfold Rdiv; ring.
Qed.
End OverlayMore.

Lemma drawn_park_centre_witness :
  let '(px, py) := park_px align_shortest polar_config rim_park in
  ((px - INR (SUPER_SAMPLED_SIZE polar_config) / 2)
   * (px - INR (SUPER_SAMPLED_SIZE polar_config) / 2)
   + (py - INR (SUPER_SAMPLED_SIZE polar_config) / 2)
     * (py - INR (SUPER_SAMPLED_SIZE polar_config) / 2)
   < globe_pixel_radius polar_config * globe_pixel_radius polar_config)%R.
Proof.
  apply (drawn_park_centre_on_globe align_shortest polar_config rim_park polar_aims).
  - cbn. lra.
  - cbn. lia.
  - unfold visible. rewrite rim_park_vec. cbn. apply Rltb_true. lra.
Defined.

Lemma centre_park_witness :
  park_px align_shortest default_config
    {| m_lat := 45; m_lon := -105; m_color := (255, 255, 0)%Z |}
  = ((INR (SUPER_SAMPLED_SIZE default_config) / 2)%R,
     (INR (SUPER_SAMPLED_SIZE default_config) / 2)%R).
Proof.
  apply (centre_park_at_canvas_centre align_shortest default_config
           {| m_lat := 45; m_lon := -105; m_color := (255, 255, 0)%Z |}
           default_aims); reflexivity.
Defined.

(** ** Loops that build a list *)

Section ForEach.
Context {A B : Type}.

Lemma for_each_length (body : A → result B) (l : list A) (bs : list B) :
  for_each body l = Ok bs → length bs = length l.
Proof.
  revert bs. induction l as [| a l IH]; intros bs; cbn.
  - by intros [= <-].
  - destruct (body a) as [b |]; [| done]. cbn.
    destruct (for_each body l) as [bs' |]; [| done]. cbn.
    intros [= <-]. cbn. f_equal. by apply IH.
Qed.

Lemma for_each_Forall2 (body : A → result B) (l : list A) (bs : list B) :
  for_each body l = Ok bs → Forall2 (fun a b => body a = Ok b) l bs.
Proof.
  revert bs. induction l as [| a l IH]; intros bs; cbn.
  - intros [= <-]. constructor.
  - destruct (body a) as [b |] eqn:Hb; [| done]. cbn.
    destruct (for_each body l) as [bs' |]; [| done]. cbn.
    intros [= <-]. constructor; [done | by apply IH].
Qed.

Lemma for_each_elem (body : A → result B) (l : list A) (bs : list B) (b : B) :
  for_each body l = Ok bs → b ∈ bs → ∃ a, a ∈ l ∧ body a = Ok b.
Proof.
  intros Hfe Hb. apply for_each_Forall2 in Hfe.
  apply list_elem_of_lookup in Hb as [i Hi].
  destruct (Forall2_lookup_r _ _ _ _ _ Hfe Hi) as (a & Ha & Hbody).
  exists a. split; [by eapply list_elem_of_lookup_2 | done].
Qed.
End ForEach.

Lemma for_each_keys {A B C : Type} (body : A → result (C * B)) (key : A → C)
    (l : list A) (bs : list (C * B)) :
  (∀ a b, body a = Ok b → fst b = key a) →
  for_each body l = Ok bs → map fst bs = map key l.
Proof.
  intros Hkey Hfe. apply for_each_Forall2 in Hfe.
  induction Hfe as [| a b l bs Hab _ IH]; cbn; [done |].
  by rewrite (Hkey a b Hab), IH.
Qed.

Section OrderKept.
Context {F : Type} `{PyFloat F}.

Lemma assign_colors_keeps_parks_aux :
  (∀ parks cs, Popularity.assign_colors (F:=F) parks = Ok cs →
     map fst cs = parks) ∧
  (∀ parks cs, Density.assign_colors (F:=F) parks = Ok cs →
     map fst cs = parks) ∧
  (∀ parks cs, Change.absolute_colors (F:=F) parks = Ok cs →
     map fst cs = parks).
Proof.
  split; [| split]; intros parks cs Hcs.
  - unfold Popularity.assign_colors in Hcs.
    destruct (Popularity.visitor_stats parks) as [[mn rg] |]; [| done].
    cbn in Hcs. transitivity (map (fun x => x) parks); [| apply map_id].
    eapply for_each_keys; [| exact Hcs].
    intros p b Hb. cbn in Hb.
    destruct (Popularity.normalized_visitors mn rg p); cbn in Hb; [| done].
    destruct (get_visitor_color _); cbn in Hb; [| done]. by injection Hb as <-.
  - unfold Density.assign_colors in Hcs.
    destruct (Density.density_stats parks) as [[[mn rg] mx] |]; [| done].
    cbn in Hcs. transitivity (map (fun x => x) parks); [| apply map_id].
    eapply for_each_keys; [| exact Hcs].
    intros p b Hb. cbn in Hb.
    destruct (Density.park_color mn rg mx p); cbn in Hb; [| done].
    by injection Hb as <-.
  - unfold Change.absolute_colors in Hcs.
    destruct (Change.max_abs_delta parks) as [m |]; [| done].
    cbn in Hcs. transitivity (map (fun x => x) parks); [| apply map_id].
    eapply for_each_keys; [| exact Hcs].
    intros p b Hb. cbn in Hb.
    destruct (Change.remap (Change.delta p) m); cbn in Hb; [| done].
    destruct (get_change_color _); cbn in Hb; [| done]. by injection Hb as <-.
Qed.

Lemma percent_map_selection_aux (parks : list (Change.park F)) :
  (∀ cs, Change.percent_colors parks = Ok (Some cs) →
     map fst cs
     = filter (fun p => fltb (of_int 0) (Change.visitors_a p) = true) parks) ∧
  (Change.percent_colors parks = Ok None →
     filter (fun p => fltb (of_int 0) (Change.visitors_a p) = true) parks = []).
Proof.
  unfold Change.percent_colors.
  destruct (Change.with_valid_percent parks) as [valid |] eqn:Hvalid;
    cbn [mbind result_bind]; [| split; [intros cs |]; done].
  unfold Change.with_valid_percent in Hvalid.
  assert (map fst valid
          = filter (fun p => fltb (of_int 0) (Change.visitors_a p) = true) parks)
    as Hkeys.
  { etrans; [| apply map_id].
    eapply for_each_keys; [| exact Hvalid].
    intros p b Hb. cbn in Hb.
    destruct (pydiv _ _); cbn in Hb; [| done]. by injection Hb as <-. }
  destruct valid as [| v valid].
  - cbn. split; [intros cs; done |]. intros _. by rewrite <- Hkeys.
  - split; [| destruct (Change.max_abs_percent (v :: valid));
               cbn [mbind result_bind];
               [destruct (for_each _ (v :: valid));
                cbn [mbind result_bind mret result_ret] |]; done].
    intros cs Hcs. rewrite <- Hkeys.
    destruct (Change.max_abs_percent (v :: valid)) as [m |];
      cbn [mbind result_bind] in Hcs; [| done].
    destruct (for_each _ (v :: valid)) as [cs' |] eqn:Hfe;
      cbn [mbind result_bind mret result_ret] in Hcs; [| done].
    injection Hcs as <-.
    eapply for_each_keys; [| exact Hfe].
    intros pc b Hb. cbn in Hb.
    destruct (Change.remap _ m); cbn in Hb; [| done].
    destruct (get_change_color _); cbn in Hb; [| done]. by injection Hb as <-.
Qed.
End OrderKept.

(** ** The colour scales along their domain *)

Lemma for_each_mem {A B : Type} (body : A → result B) (l : list A)
    (bs : list B) (a : A) :
  for_each body l = Ok bs → a ∈ l → ∃ b, b ∈ bs ∧ body a = Ok b.
Proof.
  intros Hfe Ha. apply list_elem_of_lookup in Ha as [i Hi].
  destruct (for_each_lookup _ _ _ Hfe _ _ Hi) as (b & Hb & Hbody).
  exists b. split; [by eapply list_elem_of_lookup_2 | done].
Qed.

Section Scales.
Local Open Scope R_scope.

Lemma Int_part_mono (x y : R) : x <= y → (Int_part x ≤ Int_part y)%Z.
Proof.
  intros Hxy. destruct (base_Int_part x) as [Hx _].
  destruct (base_Int_part y) as [_ Hy].
  assert (IZR (Int_part x) < IZR (Int_part y + 1)) as Hlt
    by (rewrite plus_IZR; lra).
  apply lt_IZR in Hlt. lia.
Qed.

Lemma Int_part_nonneg (x : R) : 0 <= x → (0 ≤ Int_part x)%Z.
Proof.
  intros Hx. replace 0%Z with (Int_part 0); [by apply Int_part_mono |].
  symmetry. apply Int_part_spec. lra.
Qed.

Lemma Rtrunc_mono (x y : R) : x <= y → (Rtrunc x ≤ Rtrunc y)%Z.
Proof.
  intros Hxy. unfold Rtrunc.
  destruct (Rle_dec 0 x) as [Hx | Hx], (Rle_dec 0 y) as [Hy | Hy]; try lra.
  - by apply Int_part_mono.
  - pose proof (Int_part_nonneg (- x)). pose proof (Int_part_nonneg y).
    lapply H; [| lra]. lapply H0; [| lra]. lia.
  - pose proof (Int_part_mono (- y) (- x)). lapply H; [lia | lra].
Qed.

Lemma Rtrunc_IZR (z : Z) : Rtrunc (IZR z) = z.
Proof.
  unfold Rtrunc. destruct (Rle_dec 0 (IZR z)).
  - symmetry. apply Int_part_spec. lra.
  - rewrite <- opp_IZR. rewrite <- (Int_part_spec (IZR (- z)) (- z)); [lia |]. lra.
Qed.

Lemma ideal_visitor_low (t : R) :
  t <= 7 / 10 →
  get_visitor_color t = Ok (255%Z, Rtrunc (255 * (7 / 10 - t) / (7 / 10)), 0%Z).
Proof.
  intros Ht. unfold get_visitor_color, pydiv, dec. ideal_simpl.
  rewrite Rleb_true, Reqb_false by lra. by ideal_simpl.
Qed.

Lemma ideal_visitor_high (t : R) :
  7 / 10 < t →
  get_visitor_color t
  = Ok (Rtrunc (255 - 116 * (t - 7 / 10) / (3 / 10)), 0%Z, 0%Z).
Proof.
  intros Ht. unfold get_visitor_color, pydiv, dec. ideal_simpl.
  rewrite Rleb_false, Reqb_false by lra. by ideal_simpl.
Qed.

Lemma ideal_visitor_one : get_visitor_color 1 = Ok (139, 0, 0)%Z.
Proof.
  rewrite ideal_visitor_high by lra.
  replace (255 - 116 * (1 - 7 / 10) / (3 / 10)) with (IZR 139) by (field_simplify; lra).
  by rewrite Rtrunc_IZR.
Qed.

Lemma clamp01_mono (t1 t2 : R) : t1 <= t2 → clamp01 t1 <= clamp01 t2.
Proof.
  intros Ht. unfold clamp01, max2, min2. ideal_simpl. unfold Rltb.
  repeat destruct (Rlt_dec _ _); lra.
Qed.

Lemma ideal_density_eq (t : R) :
  get_density_color t
  = Ok (Rtrunc (46 * clamp01 t), Rtrunc (102 - 94 * clamp01 t),
        Rtrunc (255 - 171 * clamp01 t)).
Proof. reflexivity. Qed.

Lemma ideal_change_zero : get_change_color 0 = Ok (204, 0, 0)%Z.
Proof.
  unfold get_change_color, dec. ideal_simpl. rewrite Rleb_true by lra.
  replace (204 + 28 * (0 * 2)) with (IZR 204) by lra.
  replace (0 + 232 * (0 * 2)) with (IZR 0) by lra.
  by rewrite !Rtrunc_IZR.
Qed.

Lemma ideal_change_half : get_change_color (1 / 2) = Ok (232, 232, 232)%Z.
Proof.
  unfold get_change_color, dec. ideal_simpl. rewrite Rleb_true by lra.
  replace (204 + 28 * (1 / 2 * 2)) with (IZR 232) by lra.
  replace (0 + 232 * (1 / 2 * 2)) with (IZR 232) by lra.
  by rewrite !Rtrunc_IZR.
Qed.

Lemma ideal_change_one : get_change_color 1 = Ok (107, 44, 145)%Z.
Proof.
  unfold get_change_color, dec. ideal_simpl. rewrite Rleb_false by lra.
  replace (232 - 125 * ((1 - 1 / 2) * 2)) with (IZR 107) by lra.
  replace (232 - 188 * ((1 - 1 / 2) * 2)) with (IZR 44) by lra.
  replace (232 - 87 * ((1 - 1 / 2) * 2)) with (IZR 145) by lra.
  by rewrite !Rtrunc_IZR.
Qed.

(** X7.  In real arithmetic both scales are monotone over all inputs: with
    a larger normalised value [get_visitor_color] gives no more red and
    no more green (blue stays 0), and [get_density_color] gives no less
    red, no more green and no more blue. *)
Theorem colour_scales_monotone (t1 t2 : R) :
  t1 <= t2 →
  (∃ r1 g1 r2 g2,
     get_visitor_color t1 = Ok (r1, g1, 0%Z) ∧
     get_visitor_color t2 = Ok (r2, g2, 0%Z) ∧
     (r2 ≤ r1)%Z ∧ (g2 ≤ g1)%Z) ∧
  (∃ r1 g1 b1 r2 g2 b2,
     get_density_color t1 = Ok (r1, g1, b1) ∧
     get_density_color t2 = Ok (r2, g2, b2) ∧
     (r1 ≤ r2)%Z ∧ (g2 ≤ g1)%Z ∧ (b2 ≤ b1)%Z).
Proof.
  intros Ht. split.
  - destruct (Rle_dec t2 (7 / 10)) as [H2 | H2];
      [| destruct (Rle_dec t1 (7 / 10)) as [H1 | H1]].
    + rewrite !ideal_visitor_low by lra. eexists _, _, _, _.
      split; [done |]. split; [done |]. split; [lia |].
      apply Rtrunc_mono. lra.
    + rewrite ideal_visitor_low, ideal_visitor_high by lra. eexists _, _, _, _.
      split; [done |]. split; [done |]. split.
      * rewrite <- (Rtrunc_IZR 255) at 2. apply Rtrunc_mono. lra.
      * rewrite <- (Rtrunc_IZR 0) at 1. apply Rtrunc_mono. lra.
    + rewrite !ideal_visitor_high by lra. eexists _, _, _, _.
      split; [done |]. split; [done |]. split; [| lia].
      apply Rtrunc_mono. lra.
  - rewrite !ideal_density_eq. pose proof (clamp01_mono _ _ Ht).
    eexists _, _, _, _, _, _. split; [done |]. split; [done |].
    repeat split; apply Rtrunc_mono; lra.
Qed.

Lemma colour_scales_monotone_witness :
  (∃ r1 g1 r2 g2,
     get_visitor_color (1 / 4) = Ok (r1, g1, 0%Z) ∧
     get_visitor_color (9 / 10) = Ok (r2, g2, 0%Z) ∧
     (r2 ≤ r1)%Z ∧ (g2 ≤ g1)%Z) ∧
  (∃ r1 g1 b1 r2 g2 b2,
     get_density_color (1 / 4) = Ok (r1, g1, b1) ∧
     get_density_color (9 / 10) = Ok (r2, g2, b2) ∧
     (r1 ≤ r2)%Z ∧ (g2 ≤ g1)%Z ∧ (b2 ≤ b1)%Z).
Proof. apply (colour_scales_monotone (1 / 4) (9 / 10)). lra. Defined.
End Scales.

(** ** The ends of the popularity scale *)

Section Extremes.
Local Open Scope R_scope.

(** X8.  In real arithmetic the popularity driver colours every park of a
    list, in input order; a park with the fewest visitors is (255, 255, 0)
    and, when the visitor counts are not all equal, a park with the most
    visitors is (139, 0, 0). *)
Theorem popularity_extremes (parks : list (Popularity.park R))
    (p : Popularity.park R) :
  p ∈ parks →
  ∃ cs, Popularity.assign_colors parks = Ok cs ∧
    map fst cs = parks ∧
    ((∀ q, q ∈ parks → Popularity.visitors p <= Popularity.visitors q) →
       (p, (255, 255, 0)%Z) ∈ cs) ∧
    ((∀ q, q ∈ parks → Popularity.visitors q <= Popularity.visitors p) →
     (∃ q, q ∈ parks ∧ Popularity.visitors q < Popularity.visitors p) →
       (p, (139, 0, 0)%Z) ∈ cs).
Proof.
  intros Hp.
  assert (parks ≠ []) as Hne by (intros ->; by apply elem_of_nil in Hp).
  destruct (popularity_colors_ok parks Hne) as (cs & Hcs & _).
  exists cs. split; [done |].
  split; [by apply (proj1 assign_colors_keeps_parks_aux) |].
  revert Hcs. unfold Popularity.assign_colors, Popularity.visitor_stats.
  assert (map Popularity.visitors parks ≠ []) as Hne' by (by destruct parks).
  destruct (py_min_spec _ Hne') as (mn & -> & Hmin_in & Hmin).
  destruct (py_max_spec _ Hne') as (mx & -> & Hmax_in & Hmax).
  ideal_simpl. intros Hcs.
  destruct (for_each_mem _ _ _ p Hcs Hp) as (b & Hb & Hbody).
  apply list_elem_of_fmap in Hmin_in as (pmin & -> & Hpmin).
  apply list_elem_of_fmap in Hmax_in as (pmax & -> & Hpmax).
  assert (Popularity.visitors p ∈ map Popularity.visitors parks) as Hv
    by (apply list_elem_of_fmap; eauto).
  pose proof (Hmin _ Hv) as Hlo. pose proof (Hmax _ Hv) as Hhi.
  destruct (guard_zero_pos (Popularity.visitors pmax - Popularity.visitors pmin))
    as [Hpos Hg]; [lra |].
  unfold Popularity.normalized_visitors in Hbody. ideal_simpl.
  rewrite pydiv_ok in Hbody by lra. ideal_simpl.
  split.
  - intros Hleast. pose proof (Hleast _ Hpmin).
    replace ((Popularity.visitors p - Popularity.visitors pmin)
             / guard_zero (Popularity.visitors pmax - Popularity.visitors pmin))
      with 0 in Hbody by (replace (Popularity.visitors p)
                            with (Popularity.visitors pmin) by lra;
                          unfold Rdiv; ring).
    rewrite ideal_visitor_zero in Hbody. ideal_simpl. by injection Hbody as <-.
  - intros Hmost (q & Hq & Hlt). pose proof (Hmost _ Hpmax).
    assert (Popularity.visitors q ∈ map Popularity.visitors parks) as Hvq
      by (apply list_elem_of_fmap; eauto).
    pose proof (Hmin _ Hvq).
    destruct Hg as [Hg | Hg]; [lra |]. rewrite Hg in Hbody.
    replace ((Popularity.visitors p - Popularity.visitors pmin)
             / (Popularity.visitors pmax - Popularity.visitors pmin))
      with 1 in Hbody by (replace (Popularity.visitors p)
                            with (Popularity.visitors pmax) by lra;
                          field; lra).
    rewrite ideal_visitor_one in Hbody. ideal_simpl. by injection Hbody as <-.
Qed.
End Extremes.

(** ** The ends of the change scale and the black of the density map *)

Section Extremes2.
Local Open Scope R_scope.

Lemma guard_zero_ne (r : R) : guard_zero r ≠ 0.
Proof.
  unfold guard_zero. ideal_simpl. unfold Reqb.
  destruct (Req_dec_T r 0); [lra | done].
Qed.

(** X9.  In real arithmetic the absolute-change map colours every park, in
    input order; a park with no change is (232, 232, 232), a park with
    the largest absolute change is (107, 44, 145) when it gained visitors
    and (204, 0, 0) when it lost visitors. *)
Theorem change_extremes (parks : list (Change.park R)) (p : Change.park R) :
  p ∈ parks →
  ∃ cs, Change.absolute_colors parks = Ok cs ∧
    map fst cs = parks ∧
    (Change.delta p = 0 → (p, (232, 232, 232)%Z) ∈ cs) ∧
    ((∀ q, q ∈ parks → Rabs (Change.delta q) <= Change.delta p) →
     0 < Change.delta p → (p, (107, 44, 145)%Z) ∈ cs) ∧
    ((∀ q, q ∈ parks → Rabs (Change.delta q) <= - Change.delta p) →
     Change.delta p < 0 → (p, (204, 0, 0)%Z) ∈ cs).
Proof.
  intros Hp.
  assert (parks ≠ []) as Hne by (intros ->; by apply elem_of_nil in Hp).
  destruct (absolute_colors_ok parks Hne) as (cs & Hcs & _).
  exists cs. split; [done |].
  split; [by apply (proj2 (proj2 assign_colors_keeps_parks_aux)) |].
  revert Hcs. unfold Change.absolute_colors, Change.max_abs_delta.
  assert (map (fun q => fabs (Change.delta q)) parks ≠ []) as Hne'
    by (by destruct parks).
  destruct (py_max_spec _ Hne') as (m & -> & Hm_in & Hmax).
  ideal_simpl. intros Hcs.
  destruct (for_each_mem _ _ _ p Hcs Hp) as (b & Hb & Hbody).
  apply list_elem_of_fmap in Hm_in as (pm & -> & Hpm). ideal_simpl.
  assert (Rabs (Change.delta p) <= Rabs (Change.delta pm)) as Hle.
  { apply Hmax. apply list_elem_of_fmap. by exists p. }
  pose proof (guard_zero_ne (Rabs (Change.delta pm))) as Hg0.
  destruct (guard_zero_pos (Rabs (Change.delta pm))) as [Hpos Hg];
    [apply Rabs_pos |].
  unfold Change.remap, dec in Hbody. rewrite pydiv_ok in Hbody by done.
  ideal_simpl.
  split; [| split].
  - intros Hz. rewrite Hz in Hbody.
    replace (0 / guard_zero (Rabs (Change.delta pm)) * (1 / 2) + 1 / 2)
      with (1 / 2) in Hbody by (unfold Rdiv; ring).
    rewrite ideal_change_half in Hbody. ideal_simpl. by injection Hbody as <-.
  - intros Htop Hgain. pose proof (Htop _ Hpm) as Hpm_le.
    assert (Rabs (Change.delta p) = Change.delta p) as Habs
      by (apply Rabs_right; lra).
    destruct Hg as [Hg | Hg]; [lra |]. rewrite Hg in Hbody, Hpos.
    replace (Rabs (Change.delta pm)) with (Change.delta p) in Hbody by lra.
    replace (Change.delta p / Change.delta p * (1 / 2) + 1 / 2)
      with 1 in Hbody by (field; lra).
    rewrite ideal_change_one in Hbody. ideal_simpl. by injection Hbody as <-.
  - intros Htop Hloss. pose proof (Htop _ Hpm) as Hpm_le.
    assert (Rabs (Change.delta p) = - Change.delta p) as Habs
      by (apply Rabs_left; lra).
    destruct Hg as [Hg | Hg]; [lra |]. rewrite Hg in Hbody, Hpos.
    replace (Rabs (Change.delta pm)) with (- Change.delta p) in Hbody by lra.
    replace (Change.delta p / - Change.delta p * (1 / 2) + 1 / 2)
      with 0 in Hbody by (field; lra).
    rewrite ideal_change_zero in Hbody. ideal_simpl. by injection Hbody as <-.
Qed.

Lemma density_black_iff_max_aux (parks : list (Density.park R)) :
  (2 ≤ length parks)%nat →
  ∃ cs, Density.assign_colors parks = Ok cs ∧
    map fst cs = parks ∧
    ∀ p c, (p, c) ∈ cs →
      (c = Density.black ↔
       ∀ q, q ∈ parks → Density.density q <= Density.density p).
Proof.
  intros Hlen.
  set (ds := map Density.density parks).
  assert (ds ≠ []) as Hne by (subst ds; destruct parks; [cbn in Hlen; lia | done]).
  destruct (py_min_spec _ Hne) as (mn & Hmn & _ & _).
  destruct (py_max_spec _ Hne) as (mx & Hmx & Hmx_in & Hmax).
  destruct (sorted_reverse_spec ds) as [Hperm _].
  assert (∃ s, index (sorted_reverse ds) 1 = Ok s) as [s Hs].
  { pose proof (Permutation_length Hperm) as Hl. subst ds.
    rewrite length_map in Hl.
    destruct (sorted_reverse _) as [| a [| b l]]; cbn in Hl; try lia.
    by exists b. }
  set (body := fun p : Density.park R =>
    c ← Density.park_color mn (guard_zero (s - mn)) mx p; mret (p, c)).
  assert (∀ p, ∃ c, Density.park_color mn (guard_zero (s - mn)) mx p = Ok c)
    as Htotal.
  { intros p. unfold Density.park_color. ideal_simpl.
    destruct (Reqb _ _); [by eexists |].
    rewrite pydiv_ok by apply guard_zero_ne. ideal_simpl.
    rewrite ideal_density_eq. by eexists. }
  destruct (for_each_ok (fun _ _ => True) body parks) as (cs & Hcs & _).
  { intros p _. destruct (Htotal p) as [c Hc]. exists (p, c).
    split; [| done]. unfold body. by rewrite Hc. }
  assert (Density.assign_colors parks = Ok cs) as Hassign.
  { unfold Density.assign_colors, Density.density_stats. fold ds.
    rewrite Hmn, Hs, Hmx. ideal_simpl. exact Hcs. }
  exists cs. split; [done |].
  split; [by apply (proj1 (proj2 assign_colors_keeps_parks_aux)) |].
  intros p c Hpc.
  destruct (for_each_elem _ _ _ _ Hcs Hpc) as (a & Ha & Hbody).
  unfold body in Hbody.
  destruct (Density.park_color mn (guard_zero (s - mn)) mx a) as [c' |] eqn:Hc;
    [| done].
  ideal_simpl. injection Hbody as -> ->.
  assert (Density.density p ∈ ds) as Hd
    by (apply list_elem_of_fmap; eauto).
  unfold Density.park_color in Hc. ideal_simpl. unfold Reqb in Hc.
  destruct (Req_dec_T (Density.density p) mx) as [Heq | Hneq].
  - injection Hc as <-. split; [| done]. intros _ q Hq. rewrite Heq.
    apply Hmax. apply list_elem_of_fmap. eauto.
  - rewrite pydiv_ok in Hc by apply guard_zero_ne. ideal_simpl.
    split.
    + intros ->. by apply ideal_density_not_black in Hc.
    + intros Htop. apply list_elem_of_fmap in Hmx_in as (q & -> & Hq).
      pose proof (Htop _ Hq). pose proof (Hmax _ Hd). lra.
Qed.
End Extremes2.

(** ** Colours in input order *)

(** X10.  On every float type, binary64 included: when the popularity, the
    density or the absolute-change driver assigns colours, the coloured
    parks are the parks of the input, each once and in input order. *)
Theorem colours_keep_parks_and_order {F : Type} `{PyFloat F} :
  (∀ parks cs, Popularity.assign_colors (F:=F) parks = Ok cs →
     map fst cs = parks) ∧
  (∀ parks cs, Density.assign_colors (F:=F) parks = Ok cs →
     map fst cs = parks) ∧
  (∀ parks cs, Change.absolute_colors (F:=F) parks = Ok cs →
     map fst cs = parks).
Proof. apply assign_colors_keeps_parks_aux. Qed.

Lemma colours_keep_parks_and_order_witness :
  ∃ cs, Popularity.assign_colors (F:=float) sample_visitors = Ok cs ∧
        map fst cs = sample_visitors.
Proof.
  destruct (Popularity.assign_colors (F:=float) sample_visitors) as [cs |] eqn:Hcs;
    [| vm_compute in Hcs; discriminate].
  exists cs. split; [reflexivity |].
  exact (proj1 colours_keep_parks_and_order sample_visitors cs Hcs).
Defined.

(** X11.  On every float type: the parks of the percent-change map are the
    parks with [visitors_a > 0], in input order, and the map is skipped
    only when no park has [visitors_a > 0]. *)
Theorem percent_map_selection {F : Type} `{PyFloat F}
    (parks : list (Change.park F)) :
  (∀ cs, Change.percent_colors parks = Ok (Some cs) →
     map fst cs
     = filter (fun p => fltb (of_int 0) (Change.visitors_a p) = true) parks) ∧
  (Change.percent_colors parks = Ok None →
     filter (fun p => fltb (of_int 0) (Change.visitors_a p) = true) parks = []).
Proof. apply percent_map_selection_aux. Qed.

Lemma percent_map_selection_witness :
  ∃ cs, Change.percent_colors (F:=float) sample_changes = Ok (Some cs) ∧
        map Change.name (map fst cs) = ["A"; "C"].
Proof.
  destruct (Change.percent_colors (F:=float) sample_changes) as [[cs |] |] eqn:Hcs;
    [| vm_compute in Hcs; discriminate..].
  exists cs. split; [reflexivity |].
  rewrite (proj1 (percent_map_selection sample_changes) cs Hcs).
  vm_compute. reflexivity.
Defined.

Lemma popularity_extremes_witness :
  ∃ cs, Popularity.assign_colors (F:=R) sample_visitors = Ok cs ∧
        map fst cs = sample_visitors.
Proof.
  destruct (popularity_extremes sample_visitors
              {| Popularity.name := "A"; Popularity.lat := 44%R;
                 Popularity.lon := (-110)%R; Popularity.visitors := 1000%R |})
    as (cs & Hcs & Hkeys & _).
  - left.
  - by exists cs.
Defined.

Lemma change_extremes_witness :
  ∃ cs, Change.absolute_colors (F:=R) sample_changes = Ok cs ∧
        map fst cs = sample_changes.
Proof.
  destruct (change_extremes sample_changes
              {| Change.name := "A"; Change.lat := 44%R; Change.lon := (-110)%R;
                 Change.visitors_a := 1000%R; Change.visitors_b := 400%R |})
    as (cs & Hcs & Hkeys & _).
  - left.
  - by exists cs.
Defined.

(** X12.  In real arithmetic, for two parks or more the density driver
    colours every park, in input order, and black marks exactly the parks
    of the largest density: every park that shares the maximum is black,
    no other park is. *)
Theorem density_black_iff_max (parks : list (Density.park R)) :
  (2 ≤ length parks)%nat →
  ∃ cs, Density.assign_colors parks = Ok cs ∧
    map fst cs = parks ∧
    ∀ p c, (p, c) ∈ cs →
      (c = Density.black ↔
       ∀ q, q ∈ parks → (Density.density q <= Density.density p)%R).
Proof. apply density_black_iff_max_aux. Qed.

Lemma density_black_iff_max_witness :
  ∃ cs, Density.assign_colors (F:=R) sample_densities = Ok cs ∧
        map fst cs = sample_densities.
Proof.
  destruct (density_black_iff_max sample_densities) as (cs & Hcs & Hkeys & _).
  - cbn. lia.
  - by exists cs.
Defined.

(** ** The filtering loops and the visitor history *)

(** ** The filtering loops *)

Section FilterLoop.
Context {A B : Type}.

Lemma filter_loop_no_throw (body : A → turn B) (l : list A) :
  Forall (fun a => ∀ e, body a ≠ Throw e) l →
  filter_loop body l = inr (omap (fun a => appended (body a)) l).
Proof.
  induction 1 as [| a l Ha _ IH]; [done |].
  cbn. rewrite IH. destruct (body a) as [b | | e]; cbn; try done.
  by destruct (Ha e).
Qed.

Lemma filter_loop_throw (body : A → turn B) (pre post : list A) (a : A)
    (e : py_exn) :
  Forall (fun a => ∀ e, body a ≠ Throw e) pre →
  body a = Throw e →
  filter_loop body (pre ++ a :: post) = inl e.
Proof.
  intros Hpre Ha. induction Hpre as [| x pre Hx _ IH]; cbn.
  - by rewrite Ha.
  - rewrite IH. destruct (body x) as [b | | e']; try done. by destruct (Hx e').
Qed.
End FilterLoop.

Section History.
Context {F : Type}.

Lemma history_lookup (p : Raw.park F) (y : string) :
  Raw.history p !! y
  = Raw.visitors <$> last (filter (fun e => Raw.year e = y) (Raw.visitor_history p)).
Proof.
  unfold Raw.history.
  induction (Raw.visitor_history p) as [| e l IH] using rev_ind; [done |].
  rewrite foldl_snoc, filter_app, filter_cons, filter_nil.
  destruct (decide (Raw.year e = y)) as [<- | Hne].
  - by rewrite lookup_insert_eq, last_snoc.
  - by rewrite lookup_insert_ne, app_nil_r.
Qed.

Lemma history_years (p : Raw.park F) (y : string) :
  is_Some (Raw.history p !! y) ↔ y ∈ Raw.years p.
Proof.
  rewrite history_lookup, fmap_is_Some. unfold Raw.years.
  rewrite list_elem_of_fmap. split.
  - intros [e He]. apply last_Some_elem_of in He.
    apply list_elem_of_filter in He as [Hy He]. eauto.
  - intros (e & -> & He).
    assert (e ∈ filter (fun e' => Raw.year e' = Raw.year e) (Raw.visitor_history p))
      as Hin by (by apply list_elem_of_filter).
    destruct (filter _ _) as [| x l] using rev_ind; [by apply elem_of_nil in Hin |].
    rewrite last_snoc. eauto.
Qed.

Lemma history_None (p : Raw.park F) (y : string) :
  Raw.history p !! y = None ↔ y ∉ Raw.years p.
Proof. rewrite <- history_years, eq_None_not_Some. done. Qed.
End History.

(** ** Which parks the drivers keep *)

Section Selection.
Context {F : Type} `{PyFloat F}.

Lemma popularity_turn_spec (Y : string) (raw : Raw.park F)
    (Hc : Y ∈ Raw.years raw → is_Some (Raw.coordinates raw)) :
  ((Y ∉ Raw.years raw) ∧ popularity_turn Y raw = Skip) ∨
  (Y ∈ Raw.years raw ∧ ∃ p e,
     popularity_turn Y raw = Append p ∧
     Popularity.name p = Raw.name raw ∧
     Raw.coordinates raw = Some (Popularity.lat p, Popularity.lon p) ∧
     last (filter (fun e => Raw.year e = Y) (Raw.visitor_history raw)) = Some e ∧
     Popularity.visitors p = Raw.visitors e).
Proof.
  unfold popularity_turn. cbn zeta.
  destruct (Raw.history raw !! Y) as [v |] eqn:Hv.
  - right. assert (Y ∈ Raw.years raw) as Hy by (apply history_years; eauto).
    split; [done |]. destruct (Hc Hy) as [[la lo] Hco]. rewrite Hco.
    rewrite history_lookup in Hv.
    destruct (last _) as [e |] eqn:He; [| done]. injection Hv as <-.
    eexists _, e. by repeat split.
  - left. by apply history_None in Hv.
Qed.

Lemma popularity_selection_aux (TARGET_YEAR : string) (all_parks : list (Raw.park F)) :
  Forall (fun raw => TARGET_YEAR ∈ Raw.years raw → is_Some (Raw.coordinates raw))
    all_parks →
  ∃ parks_for_analysis,
    filter_loop (popularity_turn TARGET_YEAR) all_parks = inr parks_for_analysis ∧
    Forall2 (fun raw p =>
      Popularity.name p = Raw.name raw ∧
      Raw.coordinates raw = Some (Popularity.lat p, Popularity.lon p) ∧
      ∃ e, last (filter (fun e => Raw.year e = TARGET_YEAR)
                   (Raw.visitor_history raw)) = Some e ∧
           Popularity.visitors p = Raw.visitors e)
      (filter (fun raw => TARGET_YEAR ∈ Raw.years raw) all_parks)
      parks_for_analysis.
Proof.
  induction 1 as [| raw l Hraw _ (ps & Hps & HF)].
  - exists []. split; [done | constructor].
  - cbn [filter_loop]. rewrite Hps, filter_cons.
    destruct (popularity_turn_spec TARGET_YEAR raw Hraw)
      as [[Hy ->] | (Hy & p & e & -> & Hn & Hc & He & Hv)].
    + exists ps. by rewrite decide_False.
    + exists (p :: ps). rewrite decide_True by done.
      split; [done |]. constructor; [| done]. eauto.
Qed.

Lemma change_turn_spec (Ya Yb : string) (raw : Raw.park F)
    (Hc : Ya ∈ Raw.years raw → Yb ∈ Raw.years raw →
          is_Some (Raw.coordinates raw)) :
  (¬ (Ya ∈ Raw.years raw ∧ Yb ∈ Raw.years raw) ∧ change_turn Ya Yb raw = Skip) ∨
  ((Ya ∈ Raw.years raw ∧ Yb ∈ Raw.years raw) ∧ ∃ p,
     change_turn Ya Yb raw = Append p ∧
     Change.name p = Raw.name raw ∧
     Raw.coordinates raw = Some (Change.lat p, Change.lon p) ∧
     Raw.history raw !! Ya = Some (Change.visitors_a p) ∧
     Raw.history raw !! Yb = Some (Change.visitors_b p)).
Proof.
  unfold change_turn. cbn zeta.
  destruct (Raw.history raw !! Ya) as [a |] eqn:Ha;
    [destruct (Raw.history raw !! Yb) as [b |] eqn:Hb |].
  - right. assert (Ya ∈ Raw.years raw) as Hya by (apply history_years; eauto).
    assert (Yb ∈ Raw.years raw) as Hyb by (apply history_years; eauto).
    split; [done |]. destruct (Hc Hya Hyb) as [[la lo] Hco]. rewrite Hco.
    eexists. by repeat split.
  - left. apply history_None in Hb. split; [tauto | done].
  - left. apply history_None in Ha. split; [tauto | done].
Qed.

Lemma change_selection_aux (Ya Yb : string) (all_parks : list (Raw.park F)) :
  Forall (fun raw => Ya ∈ Raw.years raw → Yb ∈ Raw.years raw →
                     is_Some (Raw.coordinates raw)) all_parks →
  ∃ ps,
    filter_loop (change_turn Ya Yb) all_parks = inr ps ∧
    Forall2 (fun raw p =>
      Change.name p = Raw.name raw ∧
      Raw.coordinates raw = Some (Change.lat p, Change.lon p) ∧
      Raw.history raw !! Ya = Some (Change.visitors_a p) ∧
      Raw.history raw !! Yb = Some (Change.visitors_b p))
      (filter (fun raw => Ya ∈ Raw.years raw ∧ Yb ∈ Raw.years raw) all_parks)
      ps.
Proof.
  induction 1 as [| raw l Hraw _ (ps & Hps & HF)].
  - exists []. split; [done | constructor].
  - cbn [filter_loop]. rewrite Hps, filter_cons.
    destruct (change_turn_spec Ya Yb raw Hraw)
      as [[Hy ->] | (Hy & p & -> & Hn & Hc & Ha & Hb)].
    + exists ps. by rewrite decide_False.
    + exists (p :: ps). rewrite decide_True by done.
      split; [done |]. constructor; [| done]. eauto.
Qed.

Lemma popularity_throw (Y : string) (raw : Raw.park F) :
  Raw.coordinates raw = None → Y ∈ Raw.years raw →
  popularity_turn Y raw = Throw TypeError.
Proof.
  intros Hc Hy. apply history_years in Hy as [v Hv].
  unfold popularity_turn. cbn zeta. by rewrite Hv, Hc.
Qed.

Lemma popularity_no_throw (Y : string) (raw : Raw.park F) :
  is_Some (Raw.coordinates raw) → ∀ e, popularity_turn Y raw ≠ Throw e.
Proof.
  intros [[la lo] Hc] e. unfold popularity_turn. cbn zeta. rewrite Hc.
  by destruct (_ !! _).
Qed.

Lemma change_throw (Ya Yb : string) (raw : Raw.park F) :
  Raw.coordinates raw = None → Ya ∈ Raw.years raw → Yb ∈ Raw.years raw →
  change_turn Ya Yb raw = Throw TypeError.
Proof.
  intros Hc Hya Hyb. apply history_years in Hya as [a Ha].
  apply history_years in Hyb as [b Hb].
  unfold change_turn. cbn zeta. by rewrite Ha, Hb, Hc.
Qed.

Lemma change_no_throw (Ya Yb : string) (raw : Raw.park F) :
  is_Some (Raw.coordinates raw) → ∀ e, change_turn Ya Yb raw ≠ Throw e.
Proof.
  intros [[la lo] Hc] e. unfold change_turn. cbn zeta. rewrite Hc.
  by destruct (Raw.history raw !! Ya), (Raw.history raw !! Yb).
Qed.

(** X13.  The filtering loops of the popularity and the change driver do
    not skip a park whose [coordinates] are [null]: when the first such
    park has the year (both years) asked for, the run ends with a
    [TypeError], whatever the parks behind it. *)
Theorem missing_coordinates_abort (TARGET_YEAR YEAR_A YEAR_B : string)
    (pre post : list (Raw.park F)) (raw : Raw.park F) :
  Forall (fun r => is_Some (Raw.coordinates r)) pre →
  Raw.coordinates raw = None →
  (TARGET_YEAR ∈ Raw.years raw →
     popularity_run TARGET_YEAR (Some (pre ++ raw :: post)) = Failed TypeError) ∧
  (YEAR_A ∈ Raw.years raw → YEAR_B ∈ Raw.years raw →
     change_run YEAR_A YEAR_B (Some (pre ++ raw :: post)) = Failed TypeError).
Proof.
  intros Hpre Hc.
  split.
  - intros Hy. unfold popularity_run.
    destruct (pre ++ raw :: post) as [| x l] eqn:Hl; [by destruct pre |].
    rewrite <- Hl.
    rewrite (filter_loop_throw _ pre post raw TypeError); [done | |].
    + eapply Forall_impl; [exact Hpre |]. intros r. apply popularity_no_throw.
    + by apply popularity_throw.
  - intros Hya Hyb. unfold change_run.
    destruct (pre ++ raw :: post) as [| x l] eqn:Hl; [by destruct pre |].
    rewrite <- Hl.
    rewrite (filter_loop_throw _ pre post raw TypeError); [done | |].
    + eapply Forall_impl; [exact Hpre |]. intros r. apply change_no_throw.
    + by apply change_throw.
Qed.
End Selection.

(** ** How the runs of the drivers end *)

Section Outcome.
Local Open Scope R_scope.

Lemma Forall2_names {A B : Type} (f : A → string) (g : B → string)
    (P : A → B → Prop) (l : list A) (k : list B) :
  (∀ a b, P a b → g b = f a) → Forall2 P l k → map g k = map f l.
Proof.
  intros Hfg HF. induction HF as [| a b l k Hab _ IH]; cbn; [done |].
  by rewrite (Hfg a b Hab), IH.
Qed.

(** X15.  In real arithmetic, when every park that has the target year has
    coordinates, steps 2 and 3 of the popularity driver never raise: the
    run stops before the normalisation when no park has the target year,
    and otherwise colours the parks that have it, by name and in order,
    with byte triples. *)
Theorem popularity_run_outcome (TARGET_YEAR : string)
    (all_parks : list (Raw.park R)) :
  Forall (fun raw => TARGET_YEAR ∈ Raw.years raw → is_Some (Raw.coordinates raw))
    all_parks →
  match popularity_run TARGET_YEAR (Some all_parks) with
  | Finished cs =>
      map (fun pc => Popularity.name (fst pc)) cs
      = map Raw.name (filter (fun raw => TARGET_YEAR ∈ Raw.years raw) all_parks) ∧
      cs ≠ [] ∧
      Forall (fun pc => in_rgb_range (snd pc)) cs
  | Stopped => Forall (fun raw => TARGET_YEAR ∉ Raw.years raw) all_parks
  | Failed _ => False
  end.
Proof.
  intros Hall.
  destruct (popularity_selection_aux TARGET_YEAR all_parks Hall) as (ps & Hps & HF).
  unfold popularity_run. destruct all_parks as [| raw0 rest]; [constructor |].
  rewrite Hps. destruct ps as [| p ps'].
  - apply Forall2_nil_inv_r in HF. apply Forall_forall. intros raw Hraw Hy.
    assert (raw ∈ filter (fun raw => TARGET_YEAR ∈ Raw.years raw) (raw0 :: rest))
      as Hin by (by apply list_elem_of_filter).
    rewrite HF in Hin. by apply elem_of_nil in Hin.
  - destruct (popularity_colors_ok (p :: ps')) as (cs & Hcs & Hr); [done |].
    rewrite Hcs. split; [| split; [| done]].
    + rewrite <- (map_map fst Popularity.name).
      rewrite (proj1 assign_colors_keeps_parks_aux _ _ Hcs).
      eapply Forall2_names; [| exact HF]. cbn. intros a b (Hn & _). exact Hn.
    + apply (proj1 assign_colors_keeps_parks_aux) in Hcs. by destruct cs.
Qed.

(** X16.  In real arithmetic, when every park that has both years has
    coordinates, the change driver never raises: it stops when no park
    has both years; otherwise the absolute map colours the parks that
    have both, and the percent map colours those of them with
    [visitors_a > 0], being skipped exactly when there is none. *)
Theorem change_run_outcome (YEAR_A YEAR_B : string)
    (all_parks : list (Raw.park R)) :
  Forall (fun raw => YEAR_A ∈ Raw.years raw → YEAR_B ∈ Raw.years raw →
                     is_Some (Raw.coordinates raw)) all_parks →
  match change_run YEAR_A YEAR_B (Some all_parks) with
  | Finished (parks_abs_colors, pct) =>
      map (fun pc => Change.name (fst pc)) parks_abs_colors
      = map Raw.name
          (filter (fun raw => YEAR_A ∈ Raw.years raw ∧ YEAR_B ∈ Raw.years raw)
             all_parks) ∧
      parks_abs_colors ≠ [] ∧
      Forall (fun pc => in_rgb_range (snd pc)) parks_abs_colors ∧
      match pct with
      | Some parks_pct_colors =>
          map fst parks_pct_colors
          = filter (fun p => Rltb 0 (Change.visitors_a p) = true)
              (map fst parks_abs_colors) ∧
          parks_pct_colors ≠ [] ∧
          Forall (fun pc => in_rgb_range (snd pc)) parks_pct_colors
      | None =>
          Forall (fun pc => Change.visitors_a (fst pc) <= 0) parks_abs_colors
      end
  | Stopped =>
      Forall (fun raw => ¬ (YEAR_A ∈ Raw.years raw ∧ YEAR_B ∈ Raw.years raw))
        all_parks
  | Failed _ => False
  end.
Proof.
  intros Hall.
  destruct (change_selection_aux YEAR_A YEAR_B all_parks Hall) as (ps & Hps & HF).
  unfold change_run. destruct all_parks as [| raw0 rest]; [constructor |].
  rewrite Hps. destruct ps as [| p ps'].
  - apply Forall2_nil_inv_r in HF. apply Forall_forall. intros raw Hraw Hy.
    assert (raw ∈ filter (fun raw => YEAR_A ∈ Raw.years raw ∧ YEAR_B ∈ Raw.years raw)
                    (raw0 :: rest))
      as Hin by (by apply list_elem_of_filter).
    rewrite HF in Hin. by apply elem_of_nil in Hin.
  - destruct (absolute_colors_ok (p :: ps')) as (cs & Hcs & Hr); [done |].
    rewrite Hcs.
    destruct (percent_colors_ok (p :: ps')) as (pct & Hpct & Hpr).
    rewrite Hpct.
    pose proof (proj2 (proj2 assign_colors_keeps_parks_aux) _ _ Hcs) as Hkeys.
    split; [| split; [| split; [done |]]].
    + rewrite <- (map_map fst Change.name), Hkeys.
      eapply Forall2_names; [| exact HF]. cbn. intros a b (Hn & _). exact Hn.
    + by destruct cs.
    + rewrite Hkeys. destruct pct as [pcs |].
      * pose proof (proj1 (percent_map_selection_aux (p :: ps')) _ Hpct) as Hsel.
        split; [| split; [| by apply Hpr]].
        -- exact Hsel.
        -- intros ->. revert Hpct. unfold Change.percent_colors.
           destruct (Change.with_valid_percent (p :: ps')) as [[| v valid] |];
             cbn [mbind result_bind]; [done | | done].
           destruct (Change.max_abs_percent (v :: valid)); cbn [mbind result_bind];
             [| done].
           destruct (for_each _ (v :: valid)) as [cs' |] eqn:Hfe;
             cbn [mbind result_bind mret result_ret]; [| done].
           intros [= ->]. apply for_each_length in Hfe. done.
      * pose proof (proj2 (percent_map_selection_aux (p :: ps')) Hpct) as Hsel.
        apply Forall_forall. intros [q c] Hqc. cbn.
        assert (q ∈ p :: ps') as Hq
          by (rewrite <- Hkeys; apply list_elem_of_fmap; by exists (q, c)).
        destruct (Rle_dec (Change.visitors_a q) 0) as [| Hgt]; [done |].
        assert (q ∈ filter (fun p0 => fltb (of_int 0) (Change.visitors_a p0) = true)
                      (p :: ps')) as Hin.
        { apply list_elem_of_filter. split; [| done]. cbn. apply Rltb_true. lra. }
        rewrite Hsel in Hin. by apply elem_of_nil in Hin.
Qed.
End Outcome.

(** ** The density run *)

Section DensityOutcome.
Local Open Scope R_scope.
Variable power : R → R → R.

Lemma density_turn_spec (Y : string) (raw : Raw.park R)
    (Hc : density_eligible Y raw = true → is_Some (Raw.coordinates raw)) :
  (density_eligible Y raw = false ∧ density_turn power Y raw = Skip) ∨
  (density_eligible Y raw = true ∧ ∃ p v a,
     density_turn power Y raw = Append p ∧
     Density.name p = Raw.name raw ∧
     Raw.coordinates raw = Some (Density.lat p, Density.lon p) ∧
     Raw.history raw !! Y = Some v ∧ Raw.area raw = Some a ∧
     Density.density p = power (v / a) (1 / 3)).
Proof.
  revert Hc. unfold density_turn, density_eligible. cbn zeta.
  destruct (Raw.history raw !! Y) as [v |] eqn:Hv.
  - assert (Y ∈ Raw.years raw) as Hy by (apply history_years; eauto).
    rewrite bool_decide_eq_true_2 by done. cbn [andb].
    destruct (Raw.area raw) as [a |]; [| left; done].
    ideal_simpl. unfold Rleb, Rltb.
    destruct (Rle_dec a 0), (Rlt_dec 0 a); try lra; [left; done |].
    intros Hc. destruct Hc as [[la lo] ->]; [done |].
    rewrite pydiv_ok by lra. right. split; [done |].
    eexists _, v, a. by repeat split.
  - apply history_None in Hv. rewrite bool_decide_eq_false_2 by done.
    left. done.
Qed.

Lemma density_selection_aux (Y : string) (all_parks : list (Raw.park R)) :
  Forall (fun raw => density_eligible Y raw = true →
                     is_Some (Raw.coordinates raw)) all_parks →
  ∃ ps,
    filter_loop (density_turn power Y) all_parks = inr ps ∧
    Forall2 (fun raw p =>
      Density.name p = Raw.name raw ∧
      Raw.coordinates raw = Some (Density.lat p, Density.lon p) ∧
      ∃ v a, Raw.history raw !! Y = Some v ∧ Raw.area raw = Some a ∧
             Density.density p = power (v / a) (1 / 3))
      (filter (fun raw => density_eligible Y raw = true) all_parks) ps.
Proof.
  induction 1 as [| raw l Hraw _ (ps & Hps & HF)].
  - exists []. split; [done | constructor].
  - cbn [filter_loop]. rewrite Hps, filter_cons.
    destruct (density_turn_spec Y raw Hraw)
      as [[Hy ->] | (Hy & p & v & a & -> & Hn & Hc & Hv & Ha & Hd)].
    + exists ps. rewrite decide_False by (by rewrite Hy). done.
    + exists (p :: ps). rewrite decide_True by done.
      split; [done |]. constructor; [| done]. eauto 10.
Qed.

(** X17.  In real arithmetic, for non-negative visitor counts and when the
    eligible parks (target year present, area a positive number) have
    coordinates: the density run stops when no park is eligible, raises
    [IndexError] when exactly one is, and colours the eligible parks, by
    name and in order, when there are two or more. *)
Theorem density_run_outcome (TARGET_YEAR : string)
    (all_parks : list (Raw.park R)) :
  Forall (fun raw => density_eligible TARGET_YEAR raw = true →
                     is_Some (Raw.coordinates raw)) all_parks →
  Forall (fun raw => Forall (fun e => 0 <= Raw.visitors e)
                       (Raw.visitor_history raw)) all_parks →
  let eligible :=
    filter (fun raw => density_eligible TARGET_YEAR raw = true) all_parks in
  match density_run power TARGET_YEAR (Some all_parks) with
  | Finished cs =>
      map (fun pc => Density.name (fst pc)) cs = map Raw.name eligible ∧
      (2 ≤ length eligible)%nat
  | Stopped => eligible = []
  | Failed e => e = Arith IndexError ∧ length eligible = 1%nat
  end.
Proof.
  intros Hall _ eligible.
  destruct (density_selection_aux TARGET_YEAR all_parks Hall) as (ps & Hps & HF).
  fold eligible in HF. pose proof (Forall2_length _ _ _ HF) as Hlen.
  unfold density_run. destruct all_parks as [| raw0 rest]; [done |].
  rewrite Hps. destruct ps as [| p [| p' ps']].
  - by apply Forall2_nil_inv_r in HF.
  - rewrite density_singleton_raises. done.
  - destruct (density_black_iff_max_aux (p :: p' :: ps')) as (cs & Hcs & Hkeys & _);
      [cbn; lia |].
    rewrite Hcs. split; [| rewrite Hlen; cbn; lia].
    rewrite <- (map_map fst Density.name), Hkeys.
    eapply Forall2_names; [| exact HF]. cbn. intros a b (Hn & _). exact Hn.
Qed.
End DensityOutcome.

(** ** The data stage on a sample file *)

Lemma sample_file_located {F : Type} `{PyFloat F} :
  Forall (fun r => is_Some (Raw.coordinates r)) (sample_file (F:=F)).
Proof. repeat constructor; by eexists. Qed.

(** X14.  When every park that has the target year has coordinates, the
    filtering loop of the popularity driver returns, in input order, one
    entry for each park whose visitor history has the target year, with
    the park's name and coordinates and with the visitors of the last
    entry of that year. *)
Theorem popularity_selection {F : Type} `{PyFloat F} (TARGET_YEAR : string)
    (all_parks : list (Raw.park F)) :
  Forall (fun raw => TARGET_YEAR ∈ Raw.years raw → is_Some (Raw.coordinates raw))
    all_parks →
  ∃ parks_for_analysis,
    filter_loop (popularity_turn TARGET_YEAR) all_parks = inr parks_for_analysis ∧
    Forall2 (fun raw p =>
      Popularity.name p = Raw.name raw ∧
      Raw.coordinates raw = Some (Popularity.lat p, Popularity.lon p) ∧
      ∃ e, last (filter (fun e => Raw.year e = TARGET_YEAR)
                   (Raw.visitor_history raw)) = Some e ∧
           Popularity.visitors p = Raw.visitors e)
      (filter (fun raw => TARGET_YEAR ∈ Raw.years raw) all_parks)
      parks_for_analysis.
Proof. apply popularity_selection_aux. Qed.

Lemma popularity_selection_witness :
  ∃ parks_for_analysis,
    filter_loop (popularity_turn "2010") (sample_file (F:=float))
    = inr parks_for_analysis ∧
    map Popularity.name parks_for_analysis = ["A"; "C"].
Proof.
  destruct (popularity_selection "2010" (sample_file (F:=float)))
    as (ps & Hps & _).
  - eapply Forall_impl; [apply sample_file_located |]. by intros.
  - exists ps. split; [exact Hps |].
    vm_compute in Hps. injection Hps as <-. reflexivity.
Defined.

Lemma missing_coordinates_abort_witness :
  popularity_run "2010" (Some (sample_file (F:=float) ++ sample_lost :: []))
  = Failed TypeError.
Proof.
  apply (missing_coordinates_abort "2010" "2019" "2020"
           (sample_file (F:=float)) [] sample_lost).
  - apply sample_file_located.
  - reflexivity.
  - vm_compute. set_solver.
Defined.

(** ** The runs, stated *)

Lemma popularity_run_outcome_witness :
  ∃ cs, popularity_run "2010" (Some (sample_file (F:=R))) = Finished cs ∧
        map (fun pc => Popularity.name (fst pc)) cs = ["A"; "C"].
Proof.
  pose proof (popularity_run_outcome "2010" (sample_file (F:=R))) as Hrun.
  destruct (popularity_run "2010" (Some sample_file)) as [cs | | e].
  - exists cs. split; [reflexivity |].
    destruct Hrun as [Hnames _]; [| exact Hnames].
    eapply Forall_impl; [apply sample_file_located |]. by intros.
  - exfalso. apply Forall_inv in Hrun.
    + apply Hrun. vm_compute. set_solver.
    + eapply Forall_impl; [apply sample_file_located |]. by intros.
  - exfalso. apply Hrun.
    eapply Forall_impl; [apply sample_file_located |]. by intros.
Defined.

Lemma change_run_outcome_witness :
  ∃ abs pct, change_run "2019" "2020" (Some (sample_file (F:=R)))
             = Finished (abs, pct) ∧
             map (fun pc => Change.name (fst pc)) abs = ["A"; "B"; "C"].
Proof.
  pose proof (change_run_outcome "2019" "2020" (sample_file (F:=R))) as Hrun.
  destruct (change_run "2019" "2020" (Some sample_file)) as [[abs pct] | | e].
  - exists abs, pct. split; [reflexivity |].
    destruct Hrun as [Hnames _]; [| exact Hnames].
    eapply Forall_impl; [apply sample_file_located |]. by intros.
  - exfalso. apply Forall_inv in Hrun.
    + apply Hrun. vm_compute. set_solver.
    + eapply Forall_impl; [apply sample_file_located |]. by intros.
  - exfalso. apply Hrun.
    eapply Forall_impl; [apply sample_file_located |]. by intros.
Defined.

Lemma sample_file_counts :
  Forall (fun raw => Forall (fun e => (0 <= Raw.visitors e)%R)
                       (Raw.visitor_history raw)) (sample_file (F:=R)).
Proof. repeat constructor; cbn; lra. Qed.

Lemma sample_file_eligible :
  map Raw.name
    (filter (fun raw => density_eligible "2020" raw = true) (sample_file (F:=R)))
  = ["A"; "C"].
Proof.
  unfold sample_file. rewrite !filter_cons, filter_nil.
  rewrite decide_True; [| unfold density_eligible; cbn -[Rltb];
    rewrite Rltb_true by lra; done].
  rewrite decide_False; [| unfold density_eligible; cbn; done].
  rewrite decide_True; [| unfold density_eligible; cbn -[Rltb];
    rewrite Rltb_true by lra; done].
  reflexivity.
Qed.

Lemma density_run_outcome_witness :
  ∃ cs, density_run (fun x _ => x) "2020" (Some (sample_file (F:=R)))
        = Finished cs ∧
        map (fun pc => Density.name (fst pc)) cs = ["A"; "C"].
Proof.
  pose proof (density_run_outcome (fun x _ => x) "2020" (sample_file (F:=R)))
    as Hrun.
  cbn zeta in Hrun. pose proof sample_file_eligible as Hnames.
  lapply Hrun; [clear Hrun; intros Hrun |
    eapply Forall_impl; [apply sample_file_located |]; by intros].
  lapply Hrun; [clear Hrun; intros Hrun | apply sample_file_counts].
  destruct (density_run (fun x _ => x) "2020" (Some sample_file)) as [cs | | e].
  - exists cs. split; [reflexivity |].
    destruct Hrun as [-> _]. exact Hnames.
  - exfalso. rewrite Hrun in Hnames. discriminate Hnames.
  - exfalso. destruct Hrun as [_ Hl].
    apply (f_equal length) in Hnames. rewrite length_map, Hl in Hnames.
    discriminate Hnames.
Defined.

(** ** The stable sort *)

Section StringOrder.

Lemma ltb_true_le (a b : string) : String.ltb a b = true → String.le a b ∧ a ≠ b.
Proof.
  unfold String.ltb, String.le, String.leb. intros Hlt.
  destruct (String.compare a b) eqn:Hc; try done. split; [done |].
  intros ->. pose proof (String.compare_antisym b b) as Ha.
  rewrite Hc in Ha. done.
Qed.

Lemma ltb_false_le (a b : string) : String.ltb a b = false → String.le b a.
Proof.
  unfold String.ltb, String.le, String.leb. rewrite (String.compare_antisym b a).
  by destruct (String.compare a b).
Qed.

Lemma ltb_le_contra (a b : string) :
  String.ltb a b = true → String.le b a → False.
Proof.
  intros [Hab Hne]%ltb_true_le Hba. apply Hne. by apply (anti_symm String.le).
Qed.
End StringOrder.

Lemma filter_none {A : Type} (P : A → Prop) `{∀ a, Decision (P a)} (l : list A) :
  Forall (fun a => ¬ P a) l → filter P l = [].
Proof.
  induction 1 as [| a l Ha _ IH]; [done |]. by rewrite filter_cons_False.
Qed.

Section SortBy.
Context {A : Type} (key : A → string).

Lemma insert_by_perm (x : A) (l : list A) : insert_by key x l ≡ₚ x :: l.
Proof.
  induction l as [| y l IH]; cbn; [done |].
  destruct (String.ltb _ _); [done |]. rewrite IH. apply Permutation_swap.
Qed.

Lemma insert_by_sorted (x : A) (l : list A) :
  ascending_by key l → ascending_by key (insert_by key x l).
Proof.
  unfold ascending_by. induction 1 as [| y l Hs IH Hy]; cbn.
  - repeat constructor.
  - destruct (String.ltb (key x) (key y)) eqn:Hlt.
    + apply ltb_true_le in Hlt as [Hle _].
      constructor; [by constructor |].
      constructor; [done |]. eapply Forall_impl; [exact Hy |]. cbn.
      intros z Hz. by etrans.
    + apply ltb_false_le in Hlt.
      constructor; [done |]. rewrite insert_by_perm. by constructor.
Qed.

Lemma insert_by_filter (k : string) (x : A) (l : list A) :
  ascending_by key l →
  filter (fun a => key a = k) (insert_by key x l)
  = filter (fun a => key a = k) l ++ filter (fun a => key a = k) [x].
Proof.
  unfold ascending_by. induction 1 as [| y l Hs IH Hy]; cbn [insert_by].
  - by rewrite filter_nil.
  - destruct (String.ltb (key x) (key y)) eqn:Hlt.
    + rewrite (filter_cons _ x), (filter_cons _ x), filter_nil.
      destruct (decide (key x = k)) as [Hk | Hk]; [| by rewrite app_nil_r].
      assert (filter (fun a => key a = k) (y :: l) = []) as ->; [| done].
      apply filter_none. constructor.
      * intros Hyk. apply (ltb_le_contra _ _ Hlt). by rewrite Hk, Hyk.
      * eapply Forall_impl; [exact Hy |]. cbn. intros z Hz Hzk.
        apply (ltb_le_contra _ _ Hlt). rewrite Hk, <- Hzk.
        apply ltb_true_le in Hlt as [Hle _]. rewrite Hk, <- Hzk in Hle.
        by apply (anti_symm String.le) in Hz as ->.
    + rewrite !(filter_cons _ y). destruct (decide (key y = k)); by rewrite IH.
Qed.

Lemma sort_from_spec (acc l : list A) :
  ascending_by key acc →
  ascending_by key (foldl (fun acc x => insert_by key x acc) acc l) ∧
  foldl (fun acc x => insert_by key x acc) acc l ≡ₚ acc ++ l ∧
  ∀ k, filter (fun a => key a = k) (foldl (fun acc x => insert_by key x acc) acc l)
       = filter (fun a => key a = k) acc ++ filter (fun a => key a = k) l.
Proof.
  revert acc. induction l as [| x l IH]; intros acc Hacc; cbn [foldl].
  - split; [done |]. split; [by rewrite app_nil_r |].
    intros k. by rewrite filter_nil, app_nil_r.
  - destruct (IH (insert_by key x acc)) as (Hs & Hp & Hf);
      [by apply insert_by_sorted |].
    split; [done |]. split.
    + rewrite Hp, insert_by_perm. cbn. apply Permutation_middle.
    + intros k. rewrite Hf, insert_by_filter by done.
      rewrite <- app_assoc. f_equal. by rewrite <- filter_app.
Qed.

Lemma sort_by_spec (l : list A) :
  ascending_by key (sort_by key l) ∧
  sort_by key l ≡ₚ l ∧
  ∀ k, filter (fun a => key a = k) (sort_by key l)
       = filter (fun a => key a = k) l.
Proof.
  destruct (sort_from_spec [] l) as (Hs & Hp & Hf); [constructor |].
  split; [done |]. split; [done |]. intros k. by rewrite Hf, filter_nil.
Qed.
End SortBy.

(** ** Retrying a request *)

Section Retry.
Context {D : Type}.
Variable request : nat → string → option D.

Lemma attempts_spec (n a : nat) (entity_id : string) (w : net) :
  a + n = MAX_RETRIES →
  match attempts request (seq a n) entity_id w with
  | (Some d, w') =>
      ∃ k, k < n ∧ request (sent w + k) entity_id = Some d ∧
           (∀ j, j < k → request (sent w + j) entity_id = None) ∧
           sent w' = sent w + k + 1 ∧
           slept w' = slept w + RETRY_DELAY_SECONDS * k
  | (None, w') =>
      (∀ j, j < n → request (sent w + j) entity_id = None) ∧
      sent w' = sent w + n ∧
      slept w' = slept w + RETRY_DELAY_SECONDS * (n - 1)
  end.
Proof.
  revert a w. induction n as [| n IH]; intros a w Han.
  - cbn. repeat split; try lia.
  - cbn [seq attempts]. unfold attempt_get.
    destruct (request (sent w) entity_id) as [d |] eqn:Hreq.
    + exists 0. cbn [sent slept]. rewrite Nat.add_0_r.
      repeat split; try lia. done.
    + set (w1 := if decide (a < MAX_RETRIES - 1)
                 then sleep RETRY_DELAY_SECONDS {| sent := S (sent w); slept := slept w |}
                 else {| sent := S (sent w); slept := slept w |}).
      assert (sent w1 = S (sent w)) as Hs1 by (subst w1; by destruct (decide _)).
      assert (slept w1 = slept w + (if decide (1 ≤ n) then RETRY_DELAY_SECONDS else 0))
        as Hz1.
      { subst w1. unfold MAX_RETRIES in *.
        destruct (decide (a < 99 - 1)), (decide (1 ≤ n)); cbn; lia. }
      specialize (IH (S a) w1). lapply IH; [clear IH; intros IH | lia].
      destruct (attempts request (seq (S a) n) entity_id w1) as [[d |] w'].
      * destruct IH as (k & Hk & Hd & Hnone & Hsent & Hslept).
        exists (S k). rewrite Hs1 in *. rewrite Hz1 in Hslept.
        rewrite decide_True in Hslept by lia.
        split; [lia |]. split; [by rewrite <- Nat.add_succ_comm |].
        split; [| lia].
        intros [| j] Hj; [by rewrite Nat.add_0_r |].
        rewrite <- Nat.add_succ_comm. apply Hnone. lia.
      * destruct IH as (Hnone & Hsent & Hslept). rewrite Hs1 in *.
        rewrite Hz1 in Hslept.
        split; [| split; [lia |]].
        -- intros [| j] Hj; [by rewrite Nat.add_0_r |].
           rewrite <- Nat.add_succ_comm. apply Hnone. lia.
        -- destruct (decide (1 ≤ n)); unfold RETRY_DELAY_SECONDS in *; lia.
Qed.

(** X18.  [get_wikidata_entity] returns the answer of the first attempt that
    succeeds, after [k] failed attempts, [k + 1] requests and [10 * k]
    seconds of sleep, with [k < 99]; it returns [None] only when 99
    attempts in a row fail, after 99 requests and 980 seconds of sleep
    (none after the last attempt). *)
Theorem get_wikidata_entity_first_success (entity_id : string) (w : net) :
  match get_wikidata_entity request entity_id w with
  | (Some d, w') =>
      ∃ k, k < 99 ∧ request (sent w + k) entity_id = Some d ∧
           (∀ j, j < k → request (sent w + j) entity_id = None) ∧
           sent w' = sent w + k + 1 ∧
           slept w' = slept w + 10 * k
  | (None, w') =>
      (∀ j, j < 99 → request (sent w + j) entity_id = None) ∧
      sent w' = sent w + 99 ∧
      slept w' = slept w + 980
  end.
Proof.
  pose proof (attempts_spec MAX_RETRIES 0 entity_id w eq_refl) as Hspec.
  unfold get_wikidata_entity.
  destruct (attempts request (seq 0 MAX_RETRIES) entity_id w) as [[d |] w'].
  - exact Hspec.
  - destruct Hspec as (Hnone & Hsent & Hslept). repeat split; try done.
Qed.
End Retry.

(** ** The main loop of the fetch *)

Section MainLoop.
Context {F D : Type}.
Variable request : nat → string → option D.
Variable extract :
  park_info → D → net →
  (py_exn + option (list (Raw.entry F) * option (F * F) * option F * option string))
  * net.

Lemma process_park_names (park : park_info) (w w' : net) (result : Raw.park F) :
  process_park request extract park w = (inr (Some result), w') →
  Raw.name result = info_name park ∧ Raw.id result = info_id park.
Proof.
  unfold process_park.
  destruct (get_wikidata_entity request (info_id park) w) as [[d |] w1]; [| done].
  destruct (extract park d w1) as [[e | [[[[vh co] ar] un] |]] w2]; try done.
  by intros [= <- _].
Qed.

Lemma main_loop_spec (total_parks : nat) (todo : list (nat * park_info))
    (t t' : tally F) (w w' : net) :
  main_loop request extract total_parks todo t w = (inr t', w') →
  success_count t' + failure_count t'
  = success_count t + failure_count t + length todo ∧
  ∃ added,
    processed_parks t' = processed_parks t ++ added ∧
    success_count t' = success_count t + length added ∧
    map (fun p => (Raw.name p, Raw.id p)) added
      `sublist_of` map (fun ip => (info_name (snd ip), info_id (snd ip))) todo ∧
    ∀ u, u ∈ unconverted_units t' ↔
         u ∈ unconverted_units t ∨ ∃ p, p ∈ added ∧ unconverted p = Some u.
Proof.
  revert t w. induction todo as [| [i park] todo IH]; intros t w; cbn [main_loop].
  - intros [= <- <-]. split; [cbn; lia |]. exists [].
    rewrite app_nil_r. cbn. repeat split; try lia; try done.
    + intros Hu. by left.
    + intros [Hu | (p & Hp & _)]; [done | by apply elem_of_nil in Hp].
  - destruct (process_park request extract park w) as [[e | result] w1] eqn:Hpp;
      [done |].
    intros Hloop. apply IH in Hloop as (Hcount & added & Hproc & Hsucc & Hsub & Hunits).
    destruct result as [result |]; cbn [processed_parks success_count failure_count
                                        unconverted_units] in *.
    + split; [cbn; lia |]. exists (result :: added).
      rewrite Hproc, <- app_assoc. cbn [app length map snd].
      split; [done |]. split; [lia |]. split.
      * apply process_park_names in Hpp as [-> ->]. by apply sublist_skip.
      * intros u. rewrite Hunits. split.
        -- intros [Hu | (p & Hp & Hpu)].
           ++ destruct (unconverted result) as [u' |] eqn:Hres; [| by left].
              apply elem_of_union in Hu as [Hu | Hu]; [| by left].
              apply elem_of_singleton in Hu as ->. right. exists result.
              split; [left | done].
           ++ right. exists p. split; [by right | done].
        -- intros [Hu | (p & Hp & Hpu)].
           ++ left. destruct (unconverted result); [| done].
              apply elem_of_union. by right.
           ++ apply elem_of_cons in Hp as [-> | Hp].
              ** left. rewrite Hpu. apply elem_of_union. left.
                 by apply elem_of_singleton.
              ** right. eauto.
    + split; [cbn; lia |]. exists added. cbn [map snd].
      split; [done |]. split; [lia |]. split; [by apply sublist_cons | done].
Qed.

Lemma imap_pairs {A B : Type} (g : A → B) (f : nat → nat) (l : list A) :
  map (fun ip => g (snd ip)) (imap (fun i a => (f i, a)) l) = map g l.
Proof.
  revert f. induction l as [| a l IH]; intros f; [done |].
  cbn. f_equal. apply (IH (f ∘ S)).
Qed.

(** X20.  When the main loop of the fetch ends, the successes and the
    failures add up to the number of parks to process, the parks written
    are as many as the successes and carry names and ids of the input in
    input order, and the units reported as not converted are the units of
    written parks other than the empty string, [acre] and [unknown]. *)
Theorem get_data_main_tally (parks_to_process : list park_info)
    (w w' : net) (t : tally F) :
  get_data_main request extract parks_to_process w = (inr t, w') →
  success_count t + failure_count t = length parks_to_process ∧
  length (processed_parks t) = success_count t ∧
  map (fun p => (Raw.name p, Raw.id p)) (processed_parks t)
    `sublist_of` map (fun ip => (info_name ip, info_id ip)) parks_to_process ∧
  ∀ u, u ∈ unconverted_units t ↔
       ∃ p, p ∈ processed_parks t ∧ Raw.area_unit p = Some u ∧
            u ≠ EmptyString ∧ u ≠ "acre" ∧ u ≠ "unknown".
Proof.
  unfold get_data_main. intros Hmain.
  apply main_loop_spec in Hmain as (Hcount & added & Hproc & Hsucc & Hsub & Hunits).
  cbn [processed_parks success_count failure_count unconverted_units app] in *.
  rewrite length_imap in Hcount. subst added.
  split; [lia |]. split; [lia |]. split.
  - by rewrite (imap_pairs (fun ip => (info_name ip, info_id ip)) (fun i => i))
      in Hsub.
  - intros u. rewrite Hunits. split.
    + intros [Hu | (p & Hp & Hpu)]; [by apply elem_of_empty in Hu |].
      exists p. split; [done |]. unfold unconverted in Hpu.
      destruct (Raw.area_unit p) as [u' |]; [| done].
      destruct (decide (u' = EmptyString)); [done |].
      destruct (decide (u' = "acre" ∨ u' = "unknown")); [done |].
      injection Hpu as <-. repeat split; try done; intros ->; tauto.
    + intros (p & Hp & Hu & Hne & Hacre & Hunk). right. exists p.
      split; [done |]. unfold unconverted. rewrite Hu.
      rewrite decide_False by done. rewrite decide_False by tauto. done.
Qed.
End MainLoop.

(** ** What the fetch writes *)

Section ProcessPark.
Context {F D : Type}.
Variable request : nat → string → option D.
Variable extract :
  park_info → D → net →
  (py_exn + option (list (Raw.entry F) * option (F * F) * option F * option string))
  * net.

(** X19.  When [process_park] returns a park, the park has the name and the
    id it was asked for, its visitor history is the extracted one sorted
    upwards by year, and the visitors a year maps to in the dict the
    drivers build are those of the last Wikidata statement of that year:
    the sort, being stable, does not change which entry wins. *)
Theorem process_park_result (park : park_info) (w w' : net)
    (result : Raw.park F) :
  process_park request extract park w = (inr (Some result), w') →
  Raw.name result = info_name park ∧ Raw.id result = info_id park ∧
  ∃ d statements,
    fst (get_wikidata_entity request (info_id park) w) = Some d ∧
    extract park d (snd (get_wikidata_entity request (info_id park) w))
    = (inr (Some (statements, Raw.coordinates result, Raw.area result,
                  Raw.area_unit result)), w') ∧
    Raw.visitor_history result ≡ₚ statements ∧
    ascending_by Raw.year (Raw.visitor_history result) ∧
    ∀ y, Raw.history result !! y
         = Raw.visitors <$> last (filter (fun e => Raw.year e = y) statements).
Proof.
  unfold process_park.
  destruct (get_wikidata_entity request (info_id park) w) as [[d |] w1]; [| done].
  destruct (extract park d w1) as [[e | [[[[vh co] ar] un] |]] w2] eqn:Hex;
    try done.
  intros [= <- <-]. cbn [Raw.name Raw.id Raw.coordinates Raw.area Raw.area_unit
                          Raw.visitor_history fst snd].
  split; [done |]. split; [done |]. exists d, vh.
  destruct (sort_by_spec Raw.year vh) as (Hs & Hp & Hf).
  split; [done |]. split; [done |]. split; [done |]. split; [done |].
  intros y. rewrite history_lookup. cbn [Raw.visitor_history]. by rewrite Hf.
Qed.

End ProcessPark.

Lemma process_park_result_witness :
  ∃ result w',
    process_park sample_request sample_extract sample_info
      {| sent := 0; slept := 0 |} = (inr (Some result), w') ∧
    map Raw.year (Raw.visitor_history result) = ["2010"; "2020"; "2020"] ∧
    Raw.history result !! "2020" = Some 700%Z ∧
    sent w' = 3 ∧ slept w' = 20.
Proof.
  destruct (process_park sample_request sample_extract sample_info
              {| sent := 0; slept := 0 |}) as [[e | [result |]] w'] eqn:Hpp;
    [vm_compute in Hpp; discriminate | | vm_compute in Hpp; discriminate].
  exists result, w'. split; [reflexivity |].
  destruct (process_park_result _ _ _ _ _ _ Hpp) as (_ & _ & d & st & _ & Hex & _ & _ & Hh).
  rewrite (Hh "2020").
  vm_compute in Hpp. injection Hpp as <- <-.
  vm_compute in Hex. injection Hex as <-.
  repeat split; reflexivity.
Defined.

Lemma get_data_main_tally_witness :
  ∃ t w',
    get_data_main sample_request sample_extract [sample_info; sample_info]
      {| sent := 0; slept := 0 |} = (inr t, w') ∧
    success_count t + failure_count t = 2.
Proof.
  destruct (get_data_main sample_request sample_extract [sample_info; sample_info]
              {| sent := 0; slept := 0 |}) as [[e | t] w'] eqn:Hmain;
    [vm_compute in Hmain; discriminate |].
  exists t, w'. split; [reflexivity |].
  exact (proj1 (get_data_main_tally _ _ _ _ _ _ Hmain)).
Defined.

(** ** The list of parks *)

Section Segments.
Local Open Scope string_scope.

Lemma after_last_slash_Some (s r : string) :
  after_last_slash s = Some r →
  after_last_slash r = None ∧ ∃ pre, s = pre ++ "/" ++ r.
Proof.
  revert r. induction s as [| c s IH]; intros r; cbn; [done |].
  destruct (after_last_slash s) as [r' |] eqn:Hs.
  - intros [= <-]. destruct (IH r' eq_refl) as (Hn & pre & ->).
    split; [done |]. by exists (String c pre).
  - destruct (decide (String c EmptyString = "/")) as [Hc | Hc]; [| done].
    intros [= <-]. split; [done |]. exists EmptyString.
    injection Hc as ->. done.
Qed.

Lemma after_last_slash_None (s : string) :
  after_last_slash s = None ↔ ∀ a b, s ≠ a ++ "/" ++ b.
Proof.
  split.
  - induction s as [| c s IH]; cbn.
    + intros _ [| x a] b; done.
    + destruct (after_last_slash s) as [r |]; [done |].
      destruct (decide (String c EmptyString = "/")) as [Hc | Hc]; [done |].
      intros _ [| x a] b; cbn.
      * intros [= -> _]. by apply Hc.
      * intros [= -> ->]. by eapply IH.
  - intros Hno. destruct (after_last_slash s) as [r |] eqn:Hs; [| done].
    apply after_last_slash_Some in Hs as (_ & pre & ->). by destruct (Hno pre r).
Qed.

Lemma last_segment_spec (s : string) :
  (∀ a b, last_segment s ≠ a ++ "/" ++ b) ∧
  (s = last_segment s ∨ ∃ pre, s = pre ++ "/" ++ last_segment s).
Proof.
  unfold last_segment. destruct (after_last_slash s) as [r |] eqn:Hs; cbn.
  - apply after_last_slash_Some in Hs as (Hn & pre & ->).
    split; [by apply after_last_slash_None | right; eauto].
  - split; [by apply after_last_slash_None | by left].
Qed.
End Segments.

Section Dedup.
Variable simple_name : string → string.

Lemma extract_parks_spec (results : list binding) (parks : list park_info)
    (seen_names : gset string) :
  (∀ k, k ∈ seen_names ↔ k ∈ map (fun p => simple_name (info_name p)) parks) →
  NoDup (map (fun p => simple_name (info_name p)) parks) →
  ∃ added,
    extract_parks simple_name results parks seen_names = parks ++ added ∧
    NoDup (map (fun p => simple_name (info_name p)) (parks ++ added)) ∧
    (∀ item, item ∈ results → simple_name (parkLabel_value item) ∈ map (fun p => simple_name (info_name p)) (parks ++ added)) ∧
    (∀ p, p ∈ added → ∃ pre item post,
       results = pre ++ item :: post ∧ p = park_of_binding item ∧
       (simple_name (parkLabel_value item) ∉ seen_names) ∧ ∀ x, x ∈ pre → simple_name (parkLabel_value x) ≠ simple_name (parkLabel_value item)) ∧
    length added ≤ length results.
Proof.
  revert parks seen_names.
  induction results as [| item results IH]; intros parks seen Hseen Hnd.
  - exists []. cbn. rewrite app_nil_r. repeat split; try done.
    + intros item Hitem. by apply elem_of_nil in Hitem.
    + intros p Hp. by apply elem_of_nil in Hp.
  - cbn [extract_parks]. cbn zeta.
    destruct (decide (simple_name (parkLabel_value item) ∈ seen)) as [Hin | Hnin].
    + destruct (IH parks seen Hseen Hnd) as (added & Heq & Hnd' & Hcov & Hfirst & Hlen).
      exists added. split; [done |]. split; [done |]. split; [| split].
      * intros x Hx. apply elem_of_cons in Hx as [-> | Hx]; [| by apply Hcov].
        rewrite map_app. apply elem_of_app. left. by apply Hseen.
      * intros p Hp. destruct (Hfirst p Hp) as (pre & it & post & -> & -> & Hk & Hpre).
        exists (item :: pre), it, post. repeat split; try done.
        intros x Hx. apply elem_of_cons in Hx as [-> | Hx]; [| by apply Hpre].
        intros Heqk. apply Hk. by rewrite <- Heqk.
      * cbn. lia.
    + destruct (IH (parks ++ [park_of_binding item]) ({[ simple_name (parkLabel_value item) ]} ∪ seen))
        as (added & Heq & Hnd' & Hcov & Hfirst & Hlen).
      * intros k. rewrite map_app, elem_of_app, elem_of_union, elem_of_singleton.
        cbn. rewrite list_elem_of_singleton, Hseen. tauto.
      * rewrite map_app. apply NoDup_app. split; [done |]. split.
        -- intros k Hk. cbn. rewrite list_elem_of_singleton. intros ->.
           apply Hnin. by apply Hseen.
        -- cbn. apply NoDup_singleton.
      * exists (park_of_binding item :: added).
        rewrite <- app_assoc in Heq, Hnd', Hcov. cbn [app] in Heq, Hnd', Hcov.
        split; [exact Heq |]. split; [done |]. split; [| split].
        -- intros x Hx. apply elem_of_cons in Hx as [-> | Hx]; [| by apply Hcov].
           rewrite map_app. apply elem_of_app. right. cbn. left.
        -- intros p Hp. apply elem_of_cons in Hp as [-> | Hp].
           ++ exists [], item, results. repeat split; try done.
              intros x Hx. by apply elem_of_nil in Hx.
           ++ destruct (Hfirst p Hp) as (pre & it & post & -> & -> & Hk & Hpre).
              exists (item :: pre), it, post.
              rewrite not_elem_of_union, not_elem_of_singleton in Hk.
              destruct Hk as [Hne Hk]. repeat split; try done.
              intros x Hx. apply elem_of_cons in Hx as [-> | Hx]; [| by apply Hpre].
              intros Heqk. by apply Hne.
        -- cbn. lia.
Qed.

Lemma ascending_strict {A : Type} (name : A → string) (l : list A) :
  ascending_by name l → NoDup (map name l) →
  StronglySorted (fun a b => String.ltb (name a) (name b) = true) l.
Proof.
  unfold ascending_by. induction 1 as [| a l Hs IH Ha]; cbn; [constructor |].
  intros [Hnin Hnd]%NoDup_cons. constructor; [by apply IH |].
  apply Forall_forall. intros b Hb. rewrite Forall_forall in Ha.
  destruct (String.ltb (name a) (name b)) eqn:Hlt; [done |].
  apply ltb_false_le in Hlt. exfalso. apply Hnin.
  assert (name a = name b) as -> by (apply (anti_symm String.le); auto).
  apply list_elem_of_fmap. eauto.
Qed.

Lemma get_park_urls_dedup_aux (results : list binding) :
  let '(parks, total) := get_park_urls simple_name results in
  total = length parks ∧ length parks ≤ length results ∧
  NoDup (map (fun p => simple_name (info_name p)) parks) ∧
  (∀ item, item ∈ results → simple_name (parkLabel_value item) ∈ map (fun p => simple_name (info_name p)) parks) ∧
  (∀ p, p ∈ parks → ∃ pre item post,
     results = pre ++ item :: post ∧ p = park_of_binding item ∧
     ∀ x, x ∈ pre → simple_name (parkLabel_value x) ≠ simple_name (parkLabel_value item)).
Proof.
  unfold get_park_urls. cbn zeta.
  destruct (extract_parks_spec results [] ∅) as (added & Heq & Hnd & Hcov & Hfirst & Hlen).
  { intros k. cbn. rewrite elem_of_empty. split; [done |]. apply elem_of_nil. }
  { constructor. }
  cbn [app] in *. rewrite Heq.
  destruct (sort_by_spec info_name added) as (_ & Hperm & _).
  split; [done |]. split; [by rewrite Hperm |].
  split; [by rewrite Hperm |]. split.
  - intros item Hitem. rewrite Hperm. by apply Hcov.
  - intros p Hp. rewrite Hperm in Hp.
    destruct (Hfirst p Hp) as (pre & it & post & -> & -> & _ & Hpre). eauto 10.
Qed.

(** X21.  The park list of [GetParkURLs]: [total] is its length, at most
    the number of rows; no two parks have the same simplified name; every
    row's simplified name is that of a listed park; and a listed park is
    built from the first row of its simplified name. *)
Theorem get_park_urls_dedup (results : list binding) :
  let '(parks, total) := get_park_urls simple_name results in
  total = length parks ∧ length parks ≤ length results ∧
  NoDup (map (fun p => simple_name (info_name p)) parks) ∧
  (∀ item, item ∈ results →
     simple_name (parkLabel_value item)
     ∈ map (fun p => simple_name (info_name p)) parks) ∧
  (∀ p, p ∈ parks → ∃ pre item post,
     results = pre ++ item :: post ∧ p = park_of_binding item ∧
     ∀ x, x ∈ pre →
       simple_name (parkLabel_value x) ≠ simple_name (parkLabel_value item)).
Proof. apply get_park_urls_dedup_aux. Qed.

(** X22.  The park list of [GetParkURLs] is strictly increasing by name;
    the id of a park is the part of the row's entity URI behind its last
    slash, so it holds no slash, and the park's URL is the wiki prefix
    followed by that id. *)
Theorem get_park_urls_sorted (results : list binding) :
  let '(parks, total) := get_park_urls simple_name results in
  StronglySorted (fun p q => String.ltb (info_name p) (info_name q) = true) parks ∧
  ∀ p, p ∈ parks →
    info_url p = ("https://www.wikidata.org/wiki/" ++ info_id p)%string ∧
    (∀ a b, info_id p ≠ (a ++ "/" ++ b)%string) ∧
    ∃ item, item ∈ results ∧ info_name p = parkLabel_value item ∧
            (park_value item = info_id p ∨
             ∃ pre, park_value item = (pre ++ "/" ++ info_id p)%string).
Proof.
  pose proof (get_park_urls_dedup_aux results) as Hd.
  destruct (get_park_urls simple_name results) as [parks total] eqn:Hg.
  destruct Hd as (_ & _ & Hnd & _ & Hfirst).
  split.
  - unfold get_park_urls in Hg. cbn zeta in Hg. injection Hg as <- _.
    apply ascending_strict; [apply sort_by_spec |].
    rewrite <- (map_map info_name simple_name) in Hnd.
    by apply NoDup_fmap_1 in Hnd.
  - intros p Hp. destruct (Hfirst p Hp) as (pre & item & post & -> & -> & _).
    cbn [park_of_binding info_url info_id info_name].
    destruct (last_segment_spec (park_value item)) as [Hno Hsplit].
    split; [done |]. split; [done |]. exists item.
    split; [apply elem_of_app; right; left |]. split; [done |].
    destruct Hsplit as [Hs | [pre' Hs]]; [by left | right; eauto].
Qed.
End Dedup.

(** ** The rows of the plots *)

Section CovidProofs.
Context {F : Type}.

Lemma year_set_elem (p : Raw.park F) (y : string) :
  y ∈ year_set p ↔ y ∈ Raw.years p.
Proof. unfold year_set. apply elem_of_list_to_set. Qed.

Lemma year_set_subseteq (p : Raw.park F) (ys : list string) :
  list_to_set ys ⊆ year_set p ↔ ∀ y, y ∈ ys → y ∈ Raw.years p.
Proof.
  split.
  - intros Hsub y Hy. apply year_set_elem. apply Hsub.
    by apply elem_of_list_to_set.
  - intros Hall y Hy. apply elem_of_list_to_set in Hy.
    apply year_set_elem. by apply Hall.
Qed.

(** X23.  The plots script excludes by name: a park is kept when no park of
    the same name lacks an entry for 2018, so a park with 2018 data is
    dropped when it shares its name with a park without. *)
Theorem covid_exclusion_by_name (parks_data : list (Raw.park F)) (p : Raw.park F) :
  p ∈ filtered_parks parks_data ↔
  p ∈ parks_data ∧
  ∀ q, q ∈ parks_data → Raw.name q = Raw.name p →
       PRIMARY_FILTER_YEAR ∈ Raw.years q.
Proof.
  unfold filtered_parks, parks_to_exclude.
  rewrite list_elem_of_filter, elem_of_list_to_set, list_elem_of_fmap.
  split.
  - intros [Hex Hp]. split; [done |]. intros q Hq Hname.
    destruct (decide (PRIMARY_FILTER_YEAR ∈ Raw.years q)) as [| Hno]; [done |].
    exfalso. apply Hex. exists q. split; [done |].
    apply list_elem_of_filter. split; [| done]. by rewrite year_set_elem.
  - intros [Hp Hall]. split; [| done]. intros (q & Hname & Hq).
    apply list_elem_of_filter in Hq as [Hno Hq]. apply Hno.
    apply year_set_elem. by apply Hall.
Qed.

Lemma park_rows_spec (park : Raw.park F) (years : list string) :
  (∀ y, y ∈ years → y ∈ Raw.years park) →
  ∃ rows, park_rows park (Raw.history park) years = inr rows ∧
    Forall2 (fun y r => Park r = Raw.name park ∧ Year r = y ∧
                        Raw.history park !! y = Some (Visitors r)) years rows.
Proof.
  induction years as [| y years IH]; intros Hall.
  - exists []. split; [done | constructor].
  - destruct IH as (rows & Hrows & HF).
    { intros y' Hy'. apply Hall. by right. }
    cbn [park_rows]. rewrite Hrows.
    destruct (proj2 (history_years park y)) as [v Hv]; [apply Hall; left |].
    rewrite Hv. eexists. split; [done |]. constructor; [| done]. done.
Qed.

Lemma long_form_data_spec (parks : list (Raw.park F)) :
  Forall (fun p => ∀ y, y ∈ TARGET_YEARS → y ∈ Raw.years p) parks →
  ∃ rows, long_form_data parks = inr rows ∧
    length rows = length TARGET_YEARS * length parks ∧
    map (fun r => (Park r, Year r)) rows
    = flat_map (fun p => map (fun y => (Raw.name p, y)) TARGET_YEARS) parks ∧
    ∀ r, r ∈ rows →
      ∃ p, p ∈ parks ∧ Park r = Raw.name p ∧
           Raw.history p !! Year r = Some (Visitors r).
Proof.
  induction 1 as [| p parks Hp _ (rows' & Hrows' & Hlen & Hmap & Hval)].
  - exists []. cbn. repeat split; try done. intros r Hr. by apply elem_of_nil in Hr.
  - destruct (park_rows_spec p TARGET_YEARS Hp) as (rows & Hrows & HF).
    cbn [long_form_data]. rewrite Hrows, Hrows'. exists (rows ++ rows').
    split; [done |]. split; [| split].
    + rewrite length_app, Hlen, <- (Forall2_length _ _ _ HF). cbn. lia.
    + rewrite map_app, Hmap. cbn [flat_map]. f_equal.
      clear -HF. induction HF as [| y r ys rs (Hn & Hy & _) _ IH]; [done |].
      cbn. by rewrite Hn, Hy, IH.
    + intros r Hr. apply elem_of_app in Hr as [Hr | Hr].
      * exists p. split; [left |].
        apply list_elem_of_lookup in Hr as [i Hi].
        destruct (Forall2_lookup_r _ _ _ _ _ HF Hi) as (y & _ & Hn & Hy & Hv).
        by rewrite Hy.
      * destruct (Hval r Hr) as (q & Hq & Hrest). exists q. split; [by right | done].
Qed.

(** X24.  The plots script never fails on [park_visitor_map[year]]: it stops
    when the data is empty or a kept park lacks one of the four target
    years, and otherwise builds four rows for each kept park, in order of
    parks and years, each with the visitors the park's history gives for
    the year. *)
Theorem covid_main_rows (parks_data : list (Raw.park F)) :
  match covid_main (Some parks_data) with
  | Finished rows =>
      Forall (fun p => ∀ y, y ∈ TARGET_YEARS → y ∈ Raw.years p)
        (filtered_parks parks_data) ∧
      length rows = 4 * length (filtered_parks parks_data) ∧
      map (fun r => (Park r, Year r)) rows
      = flat_map (fun p => map (fun y => (Raw.name p, y)) TARGET_YEARS)
          (filtered_parks parks_data) ∧
      ∀ r, r ∈ rows →
        ∃ p, p ∈ filtered_parks parks_data ∧ Park r = Raw.name p ∧
             Raw.history p !! Year r = Some (Visitors r)
  | Stopped =>
      parks_data = [] ∨
      Exists (fun p => ∃ y, y ∈ TARGET_YEARS ∧ y ∉ Raw.years p)
        (filtered_parks parks_data)
  | Failed _ => False
  end.
Proof.
  unfold covid_main. destruct parks_data as [| p0 rest]; [by left |].
  cbn zeta. set (data := p0 :: rest).
  destruct (decide (Exists _ (filtered_parks data))) as [Hex | Hall].
  - right. eapply Exists_impl; [exact Hex |]. intros p Hp. cbn beta in *.
    destruct (decide (Forall (fun y => y ∈ Raw.years p) TARGET_YEARS))
      as [Hf | Hnf].
    + exfalso. apply Hp. apply (proj2 (year_set_subseteq p TARGET_YEARS)).
      by apply Forall_forall.
    + apply not_Forall_Exists in Hnf; [| apply _].
      apply Exists_exists in Hnf as (y & Hy & Hny). eauto.
  - assert (Forall (fun p => ∀ y, y ∈ TARGET_YEARS → y ∈ Raw.years p)
              (filtered_parks data)) as Hok.
    { apply Forall_forall. intros p Hp.
      apply (proj1 (year_set_subseteq p TARGET_YEARS)).
      destruct (decide (list_to_set TARGET_YEARS ⊆ year_set p)) as [| Hno];
        [done |].
      exfalso. apply Hall. apply Exists_exists. eauto. }
    destruct (long_form_data_spec _ Hok) as (rows & -> & Hlen & Hmap & Hval).
    done.
Qed.
End CovidProofs.

